(** * CODAP: the hierarchical case-data model and its change dispatch

    A shallow embedding of [DG.DataContext] (change dispatch, case creation,
    selection, deletion with its undo command, the collections and the
    change log as clients read them), of [DG.CaseTableDataManager] (the
    rows, groups and counts of the case table), of the unsaved changes of
    [DG.DocumentController] and of the rectangles of [DG.PlotView]'s
    incremental selection, followed by the properties proved about them.

    Conventions of the embedding.
    - JavaScript objects with identity (cases, collection clients) are
      referred to by their numeric id; the objects themselves live in finite
      maps ([store], [_collectionClients]).  A destroyed case stays in the
      map with [isDestroyed] set, as a destroyed object stays reachable from
      the arrays that still hold it.
    - A call that does not return normally (a [TypeError] on an undefined
      receiver, or a recursion over the case hierarchy that does not end
      within the bound [fuel]) is [None].
    - Closure variables of a handler become a record that is threaded through
      its local functions. *)

From stdpp Require Import gmap strings list fin_maps sorting.

Set Default Proof Using "Type".
#[local] Set Warnings "-clear-no-such-hyp".

(** ** Values *)

(** Case values are untyped JavaScript scalars; arrays occur as the elements
    of [iChange.values]. *)
#[local] Unset Elimination Schemes.
Inductive Value :=
  | VUndefined
  | VNull
  | VNumber (z : Z)
  | VString (s : string)
  | VBoolean (b : bool)
  | VArray (l : list Value).
#[local] Set Elimination Schemes.

(** [SC.none]: null or undefined. *)
Definition SC_none (v : Value) : bool :=
  match v with
  | VUndefined | VNull => true
  | _ => false
  end.

(** [Array.prototype.concat] with one argument: an array argument is spliced
    in, any other value is appended as one element. *)
Definition Array_concat (xs : list Value) (arg : Value) : list Value :=
  match arg with
  | VArray l => xs ++ l
  | v => xs ++ [v]
  end.

(** [forEach] with a callback that may fail and that updates closure state. *)
Fixpoint forEachM {A S : Type} (f : A → S → option S) (l : list A) (s : S) : option S :=
  match l with
  | [] => Some s
  | x :: l' =>
      match f x s with
      | Some s' => forEachM f l' s'
      | None => None
      end
  end.

(** ** Cases, collections, the hierarchy *)

Record Case := mkCase {
  case_id : nat;
  case_collection : nat;          (* id of the owning collection *)
  case_parent : option nat;       (* id of the parent case *)
  children : list nat;            (* ids of the child cases, in order *)
  _valuesMap : gmap nat Value;    (* attribute id to value *)
  isDestroyed : bool
}.

(** A [DG.CollectionClient] together with its [DG.Collection] and its
    [casesController] (the ordered cases and the selection set). *)
Record Collection := mkCollection {
  parentCollectionID : option nat;
  attributeIDs : list nat;
  casesController : list nat;
  selection : gset nat
}.

Record Hierarchy := mkHierarchy {
  collections : list (nat * string);        (* model.collections: id and name, parent to child *)
  _collectionClients : gmap nat Collection;
  store : gmap nat Case                     (* the case objects, by id *)
}.

Definition set_clients (f : gmap nat Collection → gmap nat Collection) (h : Hierarchy) : Hierarchy :=
  {| collections := collections h;
     _collectionClients := f (_collectionClients h);
     store := store h |}.

Definition set_store (f : gmap nat Case → gmap nat Case) (h : Hierarchy) : Hierarchy :=
  {| collections := collections h;
     _collectionClients := _collectionClients h;
     store := f (store h) |}.

Definition set_selection (s : gset nat) (c : Collection) : Collection :=
  {| parentCollectionID := parentCollectionID c;
     attributeIDs := attributeIDs c;
     casesController := casesController c;
     selection := s |}.

Definition set_casesController (l : list nat) (c : Collection) : Collection :=
  {| parentCollectionID := parentCollectionID c;
     attributeIDs := attributeIDs c;
     casesController := l;
     selection := selection c |}.

Definition set_children (l : list nat) (c : Case) : Case :=
  {| case_id := case_id c;
     case_collection := case_collection c;
     case_parent := case_parent c;
     children := l;
     _valuesMap := _valuesMap c;
     isDestroyed := isDestroyed c |}.

Definition set_valuesMap (m : gmap nat Value) (c : Case) : Case :=
  {| case_id := case_id c;
     case_collection := case_collection c;
     case_parent := case_parent c;
     children := children c;
     _valuesMap := m;
     isDestroyed := isDestroyed c |}.

(** Modelled from the spec: [DG.store.find(DG.Case, id)] is not among the
    sources.  A parent reference "must resolve to an existing, non-deleted
    Case", so a destroyed case is not found. *)
Definition getCaseByID (h : Hierarchy) (iCaseID : nat) : option Case :=
  match store h !! iCaseID with
  | Some c => if isDestroyed c then None else Some c
  | None => None
  end.

Definition getCollectionByID (h : Hierarchy) (iCollectionID : nat) : option Collection :=
  _collectionClients h !! iCollectionID.

Definition getCollectionForCase (h : Hierarchy) (c : Case) : option Collection :=
  getCollectionByID h (case_collection c).

(** [childCollection]: the client of the last collection, if any. *)
Definition childCollectionID (h : Hierarchy) : option nat :=
  match last (collections h) with
  | Some (cid, _) =>
      match _collectionClients h !! cid with
      | Some _ => Some cid
      | None => None
      end
  | None => None
  end.

(** [getCollectionByName]: the client of the first collection with that
    name; nothing when that collection has no client. *)
Definition getCollectionByName (h : Hierarchy) (iName : string) : option nat :=
  match list_find (λ p, snd p = iName) (collections h) with
  | Some (_, (cid, _)) =>
      match _collectionClients h !! cid with
      | Some _ => Some cid
      | None => None
      end
  | None => None
  end.

(** Modelled from the spec: [DG.Case.getValue] is not among the sources; a
    case holds "a mapping from attribute-ID to value". *)
Definition getValue (c : Case) (iAttrID : nat) : Value :=
  default VUndefined (_valuesMap c !! iAttrID).

(** Ids are handed out by the store; a fresh one is above every id in use
    (and so is never 0). *)
Definition newCaseID (st : gmap nat Case) : nat :=
  S (max_list (elements (dom st))).

(** Insertion of a new case in the ordered cases: at [index] when one is
    given and lies within the array, at the end otherwise. *)
Definition insertAt (index : option nat) (x : nat) (l : list nat) : list nat :=
  match index with
  | Some i => if decide (i ≤ length l) then take i l ++ x :: drop i l else l ++ [x]
  | None => l ++ [x]
  end.

(** A reference to a parent case in [properties.parent]. *)
Inductive ParentRef :=
  | ParentUndefined
  | ParentNull
  | ParentID (k : nat)       (* a number *)
  | ParentCase (k : nat).    (* a DG.Case object *)

Record Properties := mkProperties {
  parent : ParentRef;
  index : option nat
}.

Definition emptyProperties : Properties :=
  {| parent := ParentUndefined; index := None |}.

(** [typeof iChange.properties.parent !== 'object'] *)
Definition typeof_is_object (p : ParentRef) : bool :=
  match p with
  | ParentNull | ParentCase _ => true
  | ParentUndefined | ParentID _ => false
  end.

(** JavaScript truthiness of [properties.parent]. *)
Definition parent_truthy (p : ParentRef) : bool :=
  match p with
  | ParentUndefined | ParentNull => false
  | ParentID k => negb (k =? 0)
  | ParentCase _ => true
  end.

(** The case a parent reference denotes, when there is one. *)
Definition resolveParent (h : Hierarchy) (p : ParentRef) : option nat :=
  match p with
  | ParentID k | ParentCase k =>
      match getCaseByID h k with
      | Some _ => Some k
      | None => None
      end
  | _ => None
  end.

(** Modelled from the spec: [DG.Collection.createCase] is not among the
    sources.  It makes a new case with a new id in the collection, linked to
    the parent named by the properties and, as the undo of a deletion asks,
    at "the original index position" when [properties.index] is given. *)
Definition Collection_createCase (cid : nat) (props : Properties) (h : Hierarchy)
    : nat * Hierarchy :=
  let newID := newCaseID (store h) in
  let par := resolveParent h (parent props) in
  let newCase :=
    {| case_id := newID; case_collection := cid; case_parent := par;
       children := []; _valuesMap := ∅; isDestroyed := false |} in
  let st1 := <[newID := newCase]> (store h) in
  let st2 :=
    match par with
    | Some p => alter (λ pc, set_children (children pc ++ [newID]) pc) p st1
    | None => st1
    end in
  (newID,
   {| collections := collections h;
      _collectionClients :=
        alter (λ c, set_casesController (insertAt (index props) newID (casesController c)) c)
              cid (_collectionClients h);
      store := st2 |}).

(** Positional assignment of a value vector to the attributes of a
    collection. *)
Definition assignValues (attrs : list nat) (vals : list Value) (m : gmap nat Value)
    : gmap nat Value :=
  foldl (λ acc p, <[fst p := snd p]> acc) m (zip attrs vals).

(** Modelled from the spec: [DG.CollectionClient.setCaseValuesFromArray] is
    not among the sources.  "The order of the values should match the order
    of the attributes in the collection"; the "value vector is replaced
    positionally". *)
Definition Collection_setCaseValuesFromArray (cid iCase : nat) (iValues : list Value)
    (h : Hierarchy) : Hierarchy :=
  match _collectionClients h !! cid with
  | Some coll =>
      set_store (alter (λ c, set_valuesMap (assignValues (attributeIDs coll) iValues (_valuesMap c)) c)
                       iCase) h
  | None => h
  end.

(** Modelled from the spec: [DG.CollectionClient.deleteCase] is not among
    the sources.  The case leaves the ordered cases of its collection and,
    at once, the [children] of its parent; the case is destroyed and its
    values map is dropped. *)
Definition Collection_deleteCase (cid iCase : nat) (h : Hierarchy) : Hierarchy :=
  let par := match store h !! iCase with Some c => case_parent c | None => None end in
  let st1 :=
    match par with
    | Some p => alter (λ pc, set_children (filter (λ k, k ≠ iCase) (children pc)) pc) p (store h)
    | None => store h
    end in
  let st2 :=
    alter (λ c, {| case_id := case_id c; case_collection := case_collection c;
                   case_parent := case_parent c; children := children c;
                   _valuesMap := ∅; isDestroyed := true |}) iCase st1 in
  {| collections := collections h;
     _collectionClients :=
       alter (λ c, set_casesController (filter (λ k, k ≠ iCase) (casesController c)) c)
             cid (_collectionClients h);
     store := st2 |}.

(** Modelled from the spec: [caseIDToIndexMap] of [DG.Collection] is not
    among the sources; it gives the position of a case among the cases of
    its collection. *)
Definition caseIDToIndexMap (coll : Collection) (iCaseID : nat) : option nat :=
  fst <$> list_find (λ k, k = iCaseID) (casesController coll).

(** ** Changes, results, the data context *)

Inductive Operation :=
  | createCollection
  | createCase
  | createCases
  | updateCases
  | deleteCases
  | selectCases
  | createAttributes
  | updateAttributes
  | deleteAttributes
  | resetCollections
  | unknownOperation (tag : string).

(** [iChange.collection]: a collection name or a collection client. *)
Inductive CollectionRef :=
  | ByName (iName : string)
  | ByClient (cid : nat).

Record Result := mkResult {
  success : bool;
  caseIDs : option (list nat);
  caseID : option nat
}.

Record Change := mkChange {
  operation : Operation;
  isComplete : bool;
  collection : option CollectionRef;
  properties : option Properties;
  values : option (list Value);
  cases : option (list nat);
  select : bool;
  extend : bool;
  ids : list nat;                 (* on output of deleteCases: the deleted ids *)
  collectionIDs : gset nat;       (* on output of deleteCases: the affected collections *)
  result : option Result
}.

Definition set_result (r : Result) (c : Change) : Change :=
  {| operation := operation c; isComplete := isComplete c; collection := collection c;
     properties := properties c; values := values c; cases := cases c;
     select := select c; extend := extend c; ids := ids c;
     collectionIDs := collectionIDs c; result := Some r |}.

Definition set_values (v : option (list Value)) (c : Change) : Change :=
  {| operation := operation c; isComplete := isComplete c; collection := collection c;
     properties := properties c; values := v; cases := cases c;
     select := select c; extend := extend c; ids := ids c;
     collectionIDs := collectionIDs c; result := result c |}.

Definition set_collection_properties (r : option CollectionRef) (p : option Properties)
    (c : Change) : Change :=
  {| operation := operation c; isComplete := isComplete c; collection := r;
     properties := p; values := values c; cases := cases c;
     select := select c; extend := extend c; ids := ids c;
     collectionIDs := collectionIDs c; result := result c |}.

Definition set_ids (l : list nat) (s : gset nat) (c : Change) : Change :=
  {| operation := operation c; isComplete := isComplete c; collection := collection c;
     properties := properties c; values := values c; cases := cases c;
     select := select c; extend := extend c; ids := l;
     collectionIDs := s; result := result c |}.

(** What the command of a deletion keeps about one deleted case. *)
Record DeletedCase := mkDeletedCase {
  oldCase : nat;
  oldValues : gmap nat Value;
  oldIndex : option nat
}.

(** The command that [doDeleteCases] hands to [DG.UndoHistory], with the
    variables its closures share. *)
Record Command := mkCommand {
  _undoData : list DeletedCase;
  oldCaseToNewCaseMap : gmap nat nat;
  cmd_change : Change
}.

(** Modelled from the spec: [DG.UndoHistory] is not among the sources.  A
    linear history: an undo stack, a redo stack, and whether a command is
    being executed, undone or redone. *)
Record UndoHistory := mkUndoHistory {
  undoStack : list Command;
  redoStack : list Command;
  inProgress : bool
}.

Inductive LogEntry :=
  | WarnInvalidParent (parentKey : ParentRef)
  | WarnUnknownOperation (op : Operation).

Record DataContext := mkDataContext {
  hierarchy : Hierarchy;
  changeCount : nat;
  selectionChangeCount : nat;
  changes : list Change;
  _changeCount : nat;
  _prevChangeCount : nat;
  invokeLastQueue : nat;          (* callbacks of applyChange waiting for the end of the run loop *)
  history : UndoHistory;          (* DG.UndoHistory *)
  logged : list LogEntry          (* DG.logWarn *)
}.

Definition set_hierarchy (h : Hierarchy) (dc : DataContext) : DataContext :=
  {| hierarchy := h; changeCount := changeCount dc;
     selectionChangeCount := selectionChangeCount dc; changes := changes dc;
     _changeCount := _changeCount dc; _prevChangeCount := _prevChangeCount dc;
     invokeLastQueue := invokeLastQueue dc; history := history dc; logged := logged dc |}.

Definition set_history (u : UndoHistory) (dc : DataContext) : DataContext :=
  {| hierarchy := hierarchy dc; changeCount := changeCount dc;
     selectionChangeCount := selectionChangeCount dc; changes := changes dc;
     _changeCount := _changeCount dc; _prevChangeCount := _prevChangeCount dc;
     invokeLastQueue := invokeLastQueue dc; history := u; logged := logged dc |}.

Definition DG_logWarn (e : LogEntry) (dc : DataContext) : DataContext :=
  {| hierarchy := hierarchy dc; changeCount := changeCount dc;
     selectionChangeCount := selectionChangeCount dc; changes := changes dc;
     _changeCount := _changeCount dc; _prevChangeCount := _prevChangeCount dc;
     invokeLastQueue := invokeLastQueue dc; history := history dc;
     logged := logged dc ++ [e] |}.

(** [incrementProperty('selectionChangeCount')] *)
Definition incrementSelectionChangeCount (dc : DataContext) : DataContext :=
  {| hierarchy := hierarchy dc; changeCount := changeCount dc;
     selectionChangeCount := S (selectionChangeCount dc); changes := changes dc;
     _changeCount := _changeCount dc; _prevChangeCount := _prevChangeCount dc;
     invokeLastQueue := invokeLastQueue dc; history := history dc; logged := logged dc |}.

(** [init]: no changes, no collections. *)
Definition init : DataContext :=
  {| hierarchy := {| collections := []; _collectionClients := ∅; store := ∅ |};
     changeCount := 0; selectionChangeCount := 0; changes := [];
     _changeCount := 0; _prevChangeCount := 0; invokeLastQueue := 0;
     history := {| undoStack := []; redoStack := []; inProgress := false |};
     logged := [] |}.

(** [DG.dirtyCurrentDocument] as far as the undo history goes (the change
    count of the document controller is outside this model).
    Modelled from the spec: [DG.UndoHistory.documentWasChanged] is not among
    the sources.  A change of the document outside of a command "clears the
    undo stack". *)
Definition DG_dirtyCurrentDocument (dc : DataContext) : DataContext :=
  if inProgress (history dc) then dc
  else set_history {| undoStack := []; redoStack := []; inProgress := false |} dc.

(** ** doCreateCases *)

(** The collection a change names: the client itself, or the one found by
    name.  A client that this context does not hold counts as none. *)
Definition resolveCollection (h : Hierarchy) (r : option CollectionRef) : option nat :=
  match r with
  | Some (ByName iName) => getCollectionByName h iName
  | Some (ByClient cid) =>
      match _collectionClients h !! cid with
      | Some _ => Some cid
      | None => None
      end
  | None => None
  end.

(** [validateParent]: fails on a null collection; warns on a parent key
    that does not resolve when the collection has a parent collection. *)
Definition validateParent (dc : DataContext) (collection : option nat) (parentKey : ParentRef)
    : option (bool * DataContext) :=
  match collection with
  | None => None
  | Some cid =>
      match _collectionClients (hierarchy dc) !! cid with
      | None => None
      | Some coll =>
          match parentCollectionID coll with
          | Some (S _) =>
              let found :=
                match parentKey with
                | ParentID k | ParentCase k => getCaseByID (hierarchy dc) k
                | _ => None
                end in
              match found with
              | Some _ => Some (true, dc)
              | None => Some (false, DG_logWarn (WarnInvalidParent parentKey) dc)
              end
          | _ => Some (true, dc)
          end
      end
  end.

(** The values of the parent case, in the order of the attributes of the
    parent's collection. *)
Definition parentValuesOf (h : Hierarchy) (parentKey : ParentRef) : option (list Value) :=
  match parentKey with
  | ParentID k | ParentCase k =>
      match getCaseByID h k with
      | Some parentCase =>
          match _collectionClients h !! case_collection parentCase with
          | Some pcoll => Some (getValue parentCase <$> attributeIDs pcoll)
          | None => None
          end
      | None => None
      end
  | _ => None
  end.

(** [createOneCase]: the closure state is the hierarchy and the result. *)
Definition createOneCase (cid : nat) (props : Properties) (parentValues : list Value)
    (iValues : Value) (s : Hierarchy * Result) : Hierarchy * Result :=
  let '(h, res) := s in
  let '(newCase, h1) := Collection_createCase cid props h in
  let h2 :=
    if SC_none iValues then h1
    else Collection_setCaseValuesFromArray cid newCase (Array_concat parentValues iValues) h1 in
  (h2, {| success := true;
          caseIDs := Some (default [] (caseIDs res) ++ [newCase]);
          caseID := caseID res |}).

(** [iChange.collection] once a missing one has been replaced by the child
    collection, and the collection that it names. *)
Definition defaultedCollection (h : Hierarchy) (iChange : Change) : option CollectionRef :=
  match collection iChange with
  | None | Some (ByName "") => ByClient <$> childCollectionID h
  | r => r
  end.

Definition targetCollection (h : Hierarchy) (iChange : Change) : option nat :=
  resolveCollection h (defaultedCollection h iChange).

Definition doCreateCases (iChange : Change) (dc : DataContext)
    : option (Change * DataContext * Result) :=
  let result0 := {| success := false; caseIDs := Some []; caseID := None |} in
  let h := hierarchy dc in
  let collRef := defaultedCollection h iChange in
  let collection := targetCollection h iChange in
  let props := default emptyProperties (properties iChange) in
  let iChange1 := set_collection_properties collRef (Some props) iChange in
  match
    (if typeof_is_object (parent props) then Some (true, [], dc)
     else
       match validateParent dc collection (parent props) with
       | None => None
       | Some (parentIsValid, dc1) =>
           if parent_truthy (parent props) && parentIsValid then
             match parentValuesOf (hierarchy dc1) (parent props) with
             | Some pv => Some (parentIsValid, pv, dc1)
             | None => None
             end
           else Some (parentIsValid, [], dc1)
       end)
  with
  | None => None
  | Some (parentIsValid, parentValues, dc1) =>
      match collection with
      | Some cid =>
          if parentIsValid then
            let valuesArrays := default [VArray []] (values iChange) in
            let '(h', res) :=
              foldl (λ s iValues, createOneCase cid props parentValues iValues s)
                    (hierarchy dc1, result0) valuesArrays in
            let res' :=
              match caseIDs res with
              | Some (first :: _) =>
                  {| success := success res; caseIDs := caseIDs res; caseID := Some first |}
              | _ => res
              end in
            Some (iChange1, set_hierarchy h' dc1, res')
          else Some (iChange1, dc1, result0)
      | None => Some (iChange1, dc1, result0)
      end
  end.

(** ** doSelectCases *)

(** Modelled from the spec: the selection support of the cases controller
    ([selectObjects], [deselectObjects], [selectObject]) belongs to the UI
    framework.  A controller "maintains one selection set"; selecting
    without [extend] replaces it, [selectObject()] with no argument is the
    source's "deselect all". *)
Definition selectObjects (tCases : list nat) (extend : bool) (c : Collection) : Collection :=
  set_selection (if extend then selection c ∪ list_to_set tCases else list_to_set tCases) c.

Definition deselectObjects (tCases : list nat) (c : Collection) : Collection :=
  set_selection (selection c ∖ list_to_set tCases) c.

Definition selectObject_none (c : Collection) : Collection :=
  set_selection ∅ c.

(** The closure variables of [doSelectCases]. *)
Record SelectVars := mkSelectVars {
  tCollectionExtendMap : gset nat;
  tCollectionSelectionMap : gmap nat (list nat);
  isSelectionChanged : bool
}.

Definition initialSelectVars : SelectVars :=
  {| tCollectionExtendMap := ∅; tCollectionSelectionMap := ∅; isSelectionChanged := false |}.

(** [extendForCollection]: the first request for a collection answers
    [tExtend] and marks the collection; later ones answer [true]. *)
Definition extendForCollection (tExtend : bool) (collectionID : nat) (m : gset nat)
    : bool * gset nat :=
  if decide (collectionID ∈ m) then (true, m)
  else (tExtend, {[collectionID]} ∪ m).

Definition addSelectionToCollectionMap (collectionID iCase : nat) (m : gmap nat (list nat))
    : gmap nat (list nat) :=
  <[collectionID := default [] (m !! collectionID) ++ [iCase]]> m.

Definition visitForSelection (collectionID iCase : nat) (changed : bool) (v : SelectVars)
    : SelectVars :=
  {| tCollectionExtendMap := tCollectionExtendMap v;
     tCollectionSelectionMap :=
       addSelectionToCollectionMap collectionID iCase (tCollectionSelectionMap v);
     isSelectionChanged := changed || isSelectionChanged v |}.

(** The test that sets [isSelectionChanged] when selecting, and the one when
    deselecting. *)
Definition selectChanges (tSelection : gset nat) (iCase : nat) : bool :=
  bool_decide (iCase ∉ tSelection) || bool_decide (1 < size tSelection).

Definition deselectChanges (tSelection : gset nat) (iCase : nat) : bool :=
  bool_decide (iCase ∈ tSelection).

(** [selectCaseAndChildren] and [deselectCaseAndChildren] differ in that
    test only. *)
Fixpoint walkCaseAndChildren (changes : gset nat → nat → bool) (fuel : nat) (h : Hierarchy)
    (iCase : nat) (v : SelectVars) : option SelectVars :=
  match fuel with
  | 0 => None
  | S fuel' =>
      match store h !! iCase with
      | None => None
      | Some c =>
          match getCollectionForCase h c with
          | Some tCollection =>
              forEachM (walkCaseAndChildren changes fuel' h) (children c)
                (visitForSelection (case_collection c) iCase
                   (changes (selection tCollection) iCase) v)
          | None => Some v
          end
      end
  end.

Definition selectCaseAndChildren := walkCaseAndChildren selectChanges.
Definition deselectCaseAndChildren := walkCaseAndChildren deselectChanges.

(** [doSelectByCollection]: one [selectObjects] per collection of the
    selection map. *)
Definition doSelectByCollection (tExtend : bool) (selMap : gmap nat (list nat))
    (s : gmap nat Collection * gset nat) : gmap nat Collection * gset nat :=
  map_fold (λ collectionID tCases s,
              let '(ext, extMap) := extendForCollection tExtend collectionID (snd s) in
              (alter (selectObjects tCases ext) collectionID (fst s), extMap))
           s selMap.

Definition doDeselectByCollection (selMap : gmap nat (list nat))
    (clients : gmap nat Collection) : gmap nat Collection :=
  map_fold (λ collectionID tCases clients, alter (deselectObjects tCases) collectionID clients)
           clients selMap.

(** The pass over all collections after a change of the selection: a
    collection that [extendForCollection] does not extend is deselected. *)
Definition deselectStep (tExtend : bool) (s : gmap nat Collection * gset nat)
    (p : nat * string) : gmap nat Collection * gset nat :=
  let collectionID := fst p in
  match fst s !! collectionID with
  | Some _ =>
      if collectionID =? 0 then s
      else
        let '(ext, extMap) := extendForCollection tExtend collectionID (snd s) in
        if ext then (fst s, extMap)
        else (alter selectObject_none collectionID (fst s), extMap)
  | None => s
  end.

Definition deselectOthers (tExtend : bool) (colls : list (nat * string))
    (s : gmap nat Collection * gset nat) : gmap nat Collection * gset nat :=
  foldl (deselectStep tExtend) s colls.

(** [tCollection]: the collection of the change (a client), or the child
    collection.  A collection given by name has no [get] and makes the call
    fail. *)
Definition selectCollection (h : Hierarchy) (iChange : Change) : option (option nat) :=
  match collection iChange with
  | None | Some (ByName "") => Some (childCollectionID h)
  | Some (ByName _) => None
  | Some (ByClient cid) => Some (resolveCollection h (Some (ByClient cid)))
  end.

(** [tCases]: the cases of the change or, without them, all cases of
    [tCollection]. *)
Definition tCasesOf (h : Hierarchy) (iChange : Change) (tCollection : option nat)
    : option (list nat) :=
  match cases iChange with
  | Some l => Some l
  | None => tCollection ≫= λ cid, casesController <$> (_collectionClients h !! cid)
  end.

(** [tCases.forEach(tFunction)] *)
Definition walkCases (fuel : nat) (h : Hierarchy) (iChange : Change) (tCases : list nat)
    : option SelectVars :=
  forEachM ((if select iChange then selectCaseAndChildren else deselectCaseAndChildren) fuel h)
           tCases initialSelectVars.

(** [doSelectByCollection()] or [doDeselectByCollection()], by
    [iChange.select]. *)
Definition applySelection (h : Hierarchy) (iChange : Change) (v : SelectVars)
    : gmap nat Collection * gset nat :=
  if select iChange then
    doSelectByCollection (extend iChange) (tCollectionSelectionMap v)
      (_collectionClients h, tCollectionExtendMap v)
  else
    (doDeselectByCollection (tCollectionSelectionMap v) (_collectionClients h),
     tCollectionExtendMap v).

(** The end of [doSelectCases], after the cases have been walked and the
    selection applied. *)
Definition finishSelection (iChange : Change) (dc : DataContext)
    (s : gmap nat Collection * gset nat) (changed : bool) : DataContext :=
  let h := hierarchy dc in
  if changed then
    incrementSelectionChangeCount
      (set_hierarchy
         (set_clients (λ _, fst (deselectOthers (extend iChange) (collections h) s)) h) dc)
  else set_hierarchy (set_clients (λ _, fst s) h) dc.

Definition doSelectCases (fuel : nat) (iChange : Change) (dc : DataContext)
    : option (Change * DataContext * Result) :=
  let h := hierarchy dc in
  match selectCollection h iChange with
  | None => None
  | Some tCollection =>
      match tCasesOf h iChange tCollection with
      | Some tCases =>
          match walkCases fuel h iChange tCases with
          | Some v =>
              Some (iChange,
                    finishSelection iChange dc (applySelection h iChange v)
                      (isSelectionChanged v),
                    {| success := true; caseIDs := None; caseID := None |})
          | None => None
          end
      | None =>
          Some (iChange, finishSelection iChange dc (_collectionClients h, ∅) false,
                {| success := true; caseIDs := None; caseID := None |})
      end
  end.

(** ** doDeleteCases *)

(** The variables that [deleteCaseAndChildren] updates: [iChange.ids],
    [iChange.collectionIDs], [deletedCases], and the hierarchy. *)
Record DeleteVars := mkDeleteVars {
  del_ids : list nat;
  del_collectionIDs : gset nat;
  deletedCases : list DeletedCase;
  del_hierarchy : Hierarchy
}.

(** The loop [for (ix = tChildren.length - 1; ix >= 0; ix--)] over the live
    [children] array of [iCase]: [ix] counts the indices still to visit. *)
Fixpoint deleteChildrenLoop (rec : nat → DeleteVars → option DeleteVars) (iCase : nat)
    (ix : nat) (v : DeleteVars) : option DeleteVars :=
  match ix with
  | 0 => Some v
  | S i =>
      match store (del_hierarchy v) !! iCase with
      | None => None
      | Some c =>
          match children c !! i with
          | None => None
          | Some child =>
              match rec child v with
              | Some v' => deleteChildrenLoop rec iCase i v'
              | None => None
              end
          end
      end
  end.

(** What [deleteCaseAndChildren] does to a case once its children are
    gone. *)
Definition deleteThisCase (iCase : nat) (v : DeleteVars) : option DeleteVars :=
  let h := del_hierarchy v in
  match store h !! iCase with
  | None => None
  | Some c =>
      match getCollectionForCase h c with
      | None => None
      | Some tCollection =>
          Some {| del_ids := del_ids v ++ [iCase];
                  del_collectionIDs := {[case_collection c]} ∪ del_collectionIDs v;
                  deletedCases :=
                    deletedCases v ++
                      [{| oldCase := iCase; oldValues := _valuesMap c;
                          oldIndex := caseIDToIndexMap tCollection iCase |}];
                  del_hierarchy := Collection_deleteCase (case_collection c) iCase h |}
      end
  end.

Fixpoint deleteCaseAndChildren (fuel : nat) (iCase : nat) (v : DeleteVars)
    : option DeleteVars :=
  match fuel with
  | 0 => None
  | S fuel' =>
      match store (del_hierarchy v) !! iCase with
      | None => None
      | Some c =>
          if isDestroyed c then Some v
          else
            match deleteChildrenLoop (deleteCaseAndChildren fuel') iCase
                    (length (children c)) v with
            | Some v' => deleteThisCase iCase v'
            | None => None
            end
      end
  end.

(** Modelled from the spec: [DG.UndoHistory.execute] is not among the
    sources.  It "runs command.execute() immediately and pushes the command
    onto the undo stack, clearing the redo stack". *)
Definition UndoHistory_push (cmd : Command) (u : UndoHistory) : UndoHistory :=
  {| undoStack := cmd :: undoStack u; redoStack := []; inProgress := inProgress u |}.

(** [doDeleteCases]: the [execute] of its command deletes each case of the
    change; [didDeleteCases] of the affected collections only notifies, and
    [DG.dirtyCurrentDocument], called within the command, leaves the history
    alone.  The command keeps the deleted cases for its [undo]. *)
Definition doDeleteCases (fuel : nat) (iChange : Change) (dc : DataContext)
    : option (Change * DataContext * Result) :=
  match cases iChange with
  | None => None
  | Some l =>
      match forEachM (deleteCaseAndChildren fuel) l
              {| del_ids := []; del_collectionIDs := ∅; deletedCases := [];
                 del_hierarchy := hierarchy dc |} with
      | None => None
      | Some v =>
          let iChange' := set_ids (del_ids v) (del_collectionIDs v) iChange in
          let cmd := {| _undoData := deletedCases v; oldCaseToNewCaseMap := ∅;
                        cmd_change := iChange' |} in
          Some (iChange',
                set_history (UndoHistory_push cmd (history dc))
                  (set_hierarchy (del_hierarchy v) dc),
                {| success := true; caseIDs := None; caseID := None |})
      end
  end.

(** Modelled from the spec: [DG.ObjectMap.forEach] is not among the sources.
    The values of a map "from attribute-ID to value" are visited as
    JavaScript visits the integer keys of an object: in ascending order. *)
Definition ObjectMap_values (m : gmap nat Value) : list Value :=
  omap (λ k, m !! k) (seq 0 (S (max_list (elements (dom m))))).

(** ** performChange and applyChange *)

Section ChangeDispatch.

(** The handlers of the operations on collections and attributes
    ([doCreateCollection], [doUpdateCases], [doCreateAttributes],
    [doUpdateAttributes], [doDeleteAttributes], [doResetCollections]) work on
    the change and on the hierarchy, through [DG.Collection] and
    [DG.Attribute], which are not among the sources; they are parameters
    here. *)
Context (doCreateCollection doUpdateCases doCreateAttributes doUpdateAttributes
         doDeleteAttributes doResetCollections
           : Change → Hierarchy → option (Change * Hierarchy * Result)).

Definition onHierarchy (handler : Change → Hierarchy → option (Change * Hierarchy * Result))
    (iChange : Change) (dc : DataContext) : option (Change * DataContext * Result) :=
  match handler iChange (hierarchy dc) with
  | Some (iChange', h', r) => Some (iChange', set_hierarchy h' dc, r)
  | None => None
  end.

(** The end of [performChange]: [if (shouldDirtyDoc) DG.dirtyCurrentDocument(...)]. *)
Definition dirty (shouldDirtyDoc : bool) (r : option (Change * DataContext * Result))
    : option (Change * DataContext * Result) :=
  match r with
  | Some (iChange', dc', res) =>
      Some (iChange', if shouldDirtyDoc then DG_dirtyCurrentDocument dc' else dc', res)
  | None => None
  end.

Definition performChange (fuel : nat) (iChange : Change) (dc : DataContext)
    : option (Change * DataContext * Result) :=
  if isComplete iChange then
    Some (iChange, dc, {| success := true; caseIDs := None; caseID := None |})
  else
    match operation iChange with
    | createCollection => dirty true (onHierarchy doCreateCollection iChange dc)
    | createCase =>
        let iChange1 := set_values (Some [VArray (default [] (values iChange))]) iChange in
        dirty true
          (match doCreateCases iChange1 dc with
           | Some (iChange2, dc', res) =>
               Some (iChange2, dc',
                     match caseIDs res with
                     | Some (first :: _) =>
                         {| success := success res; caseIDs := caseIDs res;
                            caseID := Some first |}
                     | _ => res
                     end)
           | None => None
           end)
    | createCases => dirty true (doCreateCases iChange dc)
    | updateCases => dirty true (onHierarchy doUpdateCases iChange dc)
    | deleteCases => dirty false (doDeleteCases fuel iChange dc)
    | selectCases => dirty false (doSelectCases fuel iChange dc)
    | createAttributes => dirty true (onHierarchy doCreateAttributes iChange dc)
    | updateAttributes => dirty true (onHierarchy doUpdateAttributes iChange dc)
    | deleteAttributes => dirty true (onHierarchy doDeleteAttributes iChange dc)
    | resetCollections => dirty true (onHierarchy doResetCollections iChange dc)
    | unknownOperation _ =>
        dirty true
          (Some (iChange, DG_logWarn (WarnUnknownOperation (operation iChange)) dc,
                 {| success := false; caseIDs := None; caseID := None |}))
    end.

(** [applyChange]: perform, log the change with its result, count, and
    schedule the notification of [changeCount] for the end of the run
    loop. *)
Definition applyChange (fuel : nat) (iChange : Change) (dc : DataContext)
    : option (DataContext * Result) :=
  match performChange fuel iChange dc with
  | None => None
  | Some (iChange', dc', res) =>
      Some ({| hierarchy := hierarchy dc';
               changeCount := changeCount dc';
               selectionChangeCount := selectionChangeCount dc';
               changes := changes dc' ++ [set_result res iChange'];
               _changeCount := S (_changeCount dc');
               _prevChangeCount := _prevChangeCount dc';
               invokeLastQueue := S (invokeLastQueue dc');
               history := history dc';
               logged := logged dc' |},
            res)
  end.

(** One callback scheduled by [applyChange]: it reads [_changeCount] when
    it runs. *)
Definition notifyChangeCount (dc : DataContext) : DataContext :=
  {| hierarchy := hierarchy dc;
     changeCount := _changeCount dc;
     selectionChangeCount := selectionChangeCount dc;
     changes := changes dc;
     _changeCount := _changeCount dc;
     _prevChangeCount := _changeCount dc;
     invokeLastQueue := invokeLastQueue dc;
     history := history dc;
     logged := logged dc |}.

(** The end of the run loop runs every scheduled callback. *)
Definition endRunLoop (dc : DataContext) : DataContext :=
  let dc' := Nat.iter (invokeLastQueue dc) notifyChangeCount dc in
  {| hierarchy := hierarchy dc';
     changeCount := changeCount dc';
     selectionChangeCount := selectionChangeCount dc';
     changes := changes dc';
     _changeCount := _changeCount dc';
     _prevChangeCount := _prevChangeCount dc';
     invokeLastQueue := 0;
     history := history dc';
     logged := logged dc' |}.

(** What happens to a data context: a call of [applyChange], or the end of
    a run loop. *)
Inductive Event :=
  | Apply (iChange : Change)
  | EndOfRunLoop.

Definition step (fuel : nat) (e : Event) (dc : DataContext) : option DataContext :=
  match e with
  | Apply iChange => fst <$> applyChange fuel iChange dc
  | EndOfRunLoop => Some (endRunLoop dc)
  end.

Definition run (fuel : nat) (es : list Event) (dc : DataContext) : option DataContext :=
  forEachM (step fuel) es dc.

Fixpoint applyCount (es : list Event) : nat :=
  match es with
  | [] => 0
  | Apply _ :: es' => S (applyCount es')
  | EndOfRunLoop :: es' => applyCount es'
  end.

(** *** The undo of a deletion *)

(** One turn of the loop of the command's [undo]: a [createCase] change
    re-inserts a case with the values, the index and the (remapped)
    parent of the deleted one, and the new case is recorded under the old
    one. *)
Definition undoDeletedCase (fuel : nat) (d : DeletedCase)
    (s : DataContext * gmap nat nat) : option (DataContext * gmap nat nat) :=
  let '(dc, newCaseMap) := s in
  match store (hierarchy dc) !! oldCase d with
  | None => None
  | Some oc =>
      let oldCollection :=
        match getCollectionForCase (hierarchy dc) oc with
        | Some _ => Some (case_collection oc)
        | None => None
        end in
      let parent :=
        match case_parent oc with
        | Some p => ParentCase (default p (newCaseMap !! p))
        | None => ParentNull
        end in
      let iChange :=
        {| operation := createCase; isComplete := false;
           collection := ByClient <$> oldCollection;
           properties := Some {| parent := parent; index := oldIndex d |};
           values := Some (ObjectMap_values (oldValues d));
           cases := None; select := false; extend := false;
           ids := []; collectionIDs := ∅; result := None |} in
      match applyChange fuel iChange dc with
      | None => None
      | Some (dc', res) =>
          match oldCollection with
          | None => None
          | Some cid =>
              match caseID res, _collectionClients (hierarchy dc') !! cid with
              | Some k, Some coll =>
                  if decide (k ∈ casesController coll)
                  then Some (dc', <[oldCase d := k]> newCaseMap)
                  else Some (dc', newCaseMap)
              | _, _ => Some (dc', newCaseMap)
              end
          end
      end
  end.

(** The command's [undo]: the deleted cases are taken last to first. *)
Definition Command_undo (fuel : nat) (cmd : Command) (dc : DataContext)
    : option (DataContext * Command) :=
  match forEachM (undoDeletedCase fuel) (reverse (_undoData cmd))
          (dc, oldCaseToNewCaseMap cmd) with
  | Some (dc', newCaseMap) =>
      Some (DG_dirtyCurrentDocument dc',
            {| _undoData := _undoData cmd; oldCaseToNewCaseMap := newCaseMap;
               cmd_change := cmd_change cmd |})
  | None => None
  end.

(** Modelled from the spec: [DG.UndoHistory.undo] is not among the
    sources.  It "pops the top command, calls its undo() closure, and
    pushes it onto the redo stack". *)
Definition UndoHistory_undo (fuel : nat) (dc : DataContext) : option DataContext :=
  match undoStack (history dc) with
  | [] => Some dc
  | cmd :: rest =>
      let dc1 :=
        set_history {| undoStack := rest; redoStack := redoStack (history dc);
                       inProgress := true |} dc in
      match Command_undo fuel cmd dc1 with
      | Some (dc2, cmd') =>
          Some (set_history {| undoStack := undoStack (history dc2);
                               redoStack := cmd' :: redoStack (history dc2);
                               inProgress := inProgress (history dc) |} dc2)
      | None => None
      end
  end.

End ChangeDispatch.

(** ** DG.CaseTableDataManager: the row index of a case table *)

(** The manager with, from its [model], the collapsed cases.  Its [context]
    is the hierarchy of the data context, passed to each function.
    [onRowCountChanged] holds the notifications fired so far, each with
    [previous] and [current]. *)
Record CaseTableDataManager := mkCaseTableDataManager {
  table_collection : option nat;      (* this.collection *)
  collapsedNodes : gset nat;          (* this.model *)
  suspended : bool;
  refreshNeeded : bool;
  _rowCaseMap : list nat;
  onRowCountChanged : list (nat * nat)
}.

(** Modelled from the spec: [DG.CaseTableModel] ([collapseNode],
    [expandNode], [isCollapsedNode]) is not among the sources; the table
    model holds "a collapsed marker on individual Cases". *)
Definition isCollapsedNode (m : CaseTableDataManager) (node : nat) : bool :=
  bool_decide (node ∈ collapsedNodes m).

Definition set_collapsedNodes (s : gset nat) (m : CaseTableDataManager) : CaseTableDataManager :=
  {| table_collection := table_collection m; collapsedNodes := s;
     suspended := suspended m; refreshNeeded := refreshNeeded m;
     _rowCaseMap := _rowCaseMap m; onRowCountChanged := onRowCountChanged m |}.

Definition collapseNode (node : nat) (m : CaseTableDataManager) : CaseTableDataManager :=
  set_collapsedNodes ({[node]} ∪ collapsedNodes m) m.

Definition expandNode (node : nat) (m : CaseTableDataManager) : CaseTableDataManager :=
  set_collapsedNodes (collapsedNodes m ∖ {[node]}) m.

Definition caseTableInit (cid : option nat) : CaseTableDataManager :=
  {| table_collection := cid; collapsedNodes := ∅; suspended := false;
     refreshNeeded := false; _rowCaseMap := []; onRowCountChanged := [] |}.

Definition getLength (m : CaseTableDataManager) : nat := length (_rowCaseMap m).

Definition getItem (m : CaseTableDataManager) (row : nat) : option nat := _rowCaseMap m !! row.

(** [makeCollections]: this collection and its ancestors; [arr] is built
    child first and reversed at the end. *)
Fixpoint makeCollections_loop (fuel : nat) (h : Hierarchy) (col : option nat) (arr : list nat)
    : option (list nat) :=
  match col with
  | None => Some arr
  | Some cid =>
      match fuel with
      | 0 => None
      | S fuel' =>
          match _collectionClients h !! cid with
          | None => Some arr
          | Some coll =>
              makeCollections_loop fuel' h (parentCollectionID coll) (arr ++ [cid])
          end
      end
  end.

Definition makeCollections (fuel : nat) (h : Hierarchy) (iCollection : option nat)
    : option (list nat) :=
  reverse <$> makeCollections_loop fuel h iCollection [].

(** [visit]: [depth] is [collections.length - 1 - level]. *)
Fixpoint visit (h : Hierarchy) (m : CaseTableDataManager) (depth : nat) (nodes : list nat)
    (rowCaseIndex : list nat) : option (list nat) :=
  match depth with
  | 0 => Some (rowCaseIndex ++ nodes)
  | S depth' =>
      forEachM (λ node acc,
                  if isCollapsedNode m node then Some (acc ++ [node])
                  else
                    match store h !! node with
                    | Some c => visit h m depth' (children c) acc
                    | None => None
                    end)
               nodes rowCaseIndex
  end.

(** [rowCaseIndex !== beforeCount]: the left operand is an array, the right
    one a number; operands of different types are never strictly equal. *)
Definition array_strictNotEqual_number (rowCaseIndex : list nat) (beforeCount : nat) : bool :=
  true.

Definition refresh (fuel : nat) (h : Hierarchy) (m : CaseTableDataManager)
    : option CaseTableDataManager :=
  if suspended m then
    Some {| table_collection := table_collection m; collapsedNodes := collapsedNodes m;
            suspended := suspended m; refreshNeeded := true;
            _rowCaseMap := _rowCaseMap m; onRowCountChanged := onRowCountChanged m |}
  else
    let beforeCount := length (_rowCaseMap m) in
    match makeCollections fuel h (table_collection m) with
    | Some (root :: ancestors) =>
        match _collectionClients h !! root with
        | Some rootColl =>
            match visit h m (length ancestors) (casesController rootColl) [] with
            | Some rowCaseIndex =>
                Some {| table_collection := table_collection m;
                        collapsedNodes := collapsedNodes m;
                        suspended := suspended m; refreshNeeded := false;
                        _rowCaseMap := rowCaseIndex;
                        onRowCountChanged :=
                          if array_strictNotEqual_number rowCaseIndex beforeCount
                          then onRowCountChanged m ++ [(beforeCount, length rowCaseIndex)]
                          else onRowCountChanged m |}
            | None => None
            end
        | None => None
        end
    | _ => None
    end.

Definition beginUpdate (m : CaseTableDataManager) : CaseTableDataManager :=
  {| table_collection := table_collection m; collapsedNodes := collapsedNodes m;
     suspended := true; refreshNeeded := refreshNeeded m;
     _rowCaseMap := _rowCaseMap m; onRowCountChanged := onRowCountChanged m |}.

Definition endUpdate (fuel : nat) (h : Hierarchy) (m : CaseTableDataManager)
    : option CaseTableDataManager :=
  let m' := {| table_collection := table_collection m; collapsedNodes := collapsedNodes m;
               suspended := false; refreshNeeded := refreshNeeded m;
               _rowCaseMap := _rowCaseMap m; onRowCountChanged := onRowCountChanged m |} in
  if refreshNeeded m' then refresh fuel h m' else Some m'.

Definition collapseGroup (h : Hierarchy) (iCaseID : nat) (m : CaseTableDataManager)
    : CaseTableDataManager :=
  match getCaseByID h iCaseID with
  | Some _ => collapseNode iCaseID m
  | None => m
  end.

Definition expandGroup (h : Hierarchy) (iCaseID : nat) (m : CaseTableDataManager)
    : CaseTableDataManager :=
  match getCaseByID h iCaseID with
  | Some _ => expandNode iCaseID m
  | None => m
  end.

(** ** DG.DataContext: what its clients read *)




Definition collectionCount (h : Hierarchy) : nat := length (collections h).

(** [objectAt]: [undefined] outside of the array. *)
Definition objectAt {A : Type} (l : list A) (idx : Z) : option A :=
  if (idx <? 0)%Z then None else l !! Z.to_nat idx.

(** [this._collectionClients[id]], as the id of the client found. *)
Definition clientOf (h : Hierarchy) (id : nat) : option nat :=
  match _collectionClients h !! id with
  | Some _ => Some id
  | None => None
  end.

(** [getCollectionAtIndex]: index 0 is the oldest ancestor. *)
Definition getCollectionAtIndex (h : Hierarchy) (iIndex : Z) : option nat :=
  if (iIndex <? Z.of_nat (collectionCount h))%Z then
    match objectAt (collections h) iIndex with
    | Some (cid, _) => clientOf h cid
    | None => None
    end
  else None.

(** [parentCollection]: the collection above the child collection. *)
Definition parentCollection (h : Hierarchy) : option nat :=
  if collectionCount h =? 0 then None
  else getCollectionAtIndex h (Z.of_nat (collectionCount h) - 2).

(** The loop of [getParentCollection] and of [getChildCollection]: the
    collection visited just before the one looked for, [null] when that one
    is visited first or not at all. *)
Fixpoint collectionBefore (h : Hierarchy) (childCollectionID : option nat)
    (colls : list (nat * string)) (prevCollectionID : option nat) : option nat :=
  match colls with
  | [] => None
  | (collectionID, _) :: rest =>
      if decide (Some collectionID = childCollectionID)
      then prevCollectionID ≫= clientOf h
      else collectionBefore h childCollectionID rest (Some collectionID)
  end.

(** [getParentCollection]: the collections are visited from the first;
    [iCollection] is the id of the client given, if one is given. *)
Definition getParentCollection (h : Hierarchy) (iCollection : option nat) : option nat :=
  collectionBefore h iCollection (collections h) None.

(** [getChildCollection]: the collections are visited from the last. *)
Definition getChildCollection (h : Hierarchy) (iCollection : option nat) : option nat :=
  collectionBefore h iCollection (reverse (collections h)) None.

(** [getSelectedCases]: the selected cases of the collections, collection by
    collection.  The order of the cases of one selection set is that of the
    set. *)
Definition getSelectedCases (h : Hierarchy) : list nat :=
  flat_map (λ i,
              match getCollectionAtIndex h (Z.of_nat i) with
              | Some cid =>
                  match _collectionClients h !! cid with
                  | Some coll => elements (selection coll)
                  | None => []
                  end
              | None => []
              end)
           (seq 0 (collectionCount h)).

(** ** DG.CaseTableDataManager: rows and groups *)

(** [Array.prototype.indexOf] *)
Definition Array_indexOf (l : list nat) (x : nat) : Z :=
  match list_find (λ y, y = x) l with
  | Some (i, _) => Z.of_nat i
  | None => (-1)%Z
  end.

(** [getRowById]: a case that the store does not find is [undefined], which
    is in no row. *)
Definition getRowById (h : Hierarchy) (m : CaseTableDataManager) (iCaseID : nat) : Z :=
  match getCaseByID h iCaseID with
  | Some _ => Array_indexOf (_rowCaseMap m) iCaseID
  | None => (-1)%Z
  end.

(** The metadata of a row that stands for a collapsed group: one cell that
    spans all columns, with the formatter that shows [subcaseCount] of the
    case of the row. *)
Inductive RowMetadata := GroupRowMetadata.

(** [getItemMetadata]: the outer [None] is the [TypeError] on a row without
    a case or on a manager without a collection, the inner one is
    [undefined]. *)
Definition getItemMetadata (h : Hierarchy) (m : CaseTableDataManager) (row : nat)
    : option (option RowMetadata) :=
  match getItem m row with
  | None => None
  | Some myCase =>
      match store h !! myCase, table_collection m with
      | Some c, Some cid =>
          Some (if decide (case_collection c ≠ cid) then Some GroupRowMetadata else None)
      | _, _ => None
      end
  end.

(** [subcaseCount]: the cases of the collection of the table at or below
    [iCase]. *)
Fixpoint subcaseCount (fuel : nat) (h : Hierarchy) (m : CaseTableDataManager) (iCase : nat)
    : option nat :=
  match fuel with
  | 0 => None
  | S fuel' =>
      match store h !! iCase, table_collection m with
      | Some c, Some cid =>
          if decide (case_collection c = cid) then Some 1
          else
            forEachM (λ myCase count,
                        match subcaseCount fuel' h m myCase with
                        | Some n => Some (count + n)
                        | None => None
                        end)
                     (children c) 0
      | _, _ => None
      end
  end.

Record Counts := mkCounts {
  expanded : nat;
  collapsed : nat
}.

(** [expandCollapseCounts]: over the cases of the collection of the
    table. *)
Definition expandCollapseCounts (h : Hierarchy) (m : CaseTableDataManager) : option Counts :=
  match table_collection m ≫= (λ cid, _collectionClients h !! cid) with
  | Some coll =>
      Some (foldl (λ counts myCase,
                     if isCollapsedNode m myCase
                     then {| expanded := expanded counts; collapsed := collapsed counts + 1 |}
                     else {| expanded := expanded counts + 1; collapsed := collapsed counts |})
                  {| expanded := 0; collapsed := 0 |} (casesController coll))
  | None => None
  end.

(** What a client does to a table between [beginUpdate] and [endUpdate]:
    it asks for a refresh, or collapses or expands a group. *)
Inductive TableOp :=
  | OpRefresh
  | OpCollapseGroup (iCaseID : nat)
  | OpExpandGroup (iCaseID : nat).

Definition isRefresh (op : TableOp) : bool :=
  match op with
  | OpRefresh => true
  | _ => false
  end.

Definition tableStep (fuel : nat) (h : Hierarchy) (op : TableOp) (m : CaseTableDataManager)
    : option CaseTableDataManager :=
  match op with
  | OpRefresh => refresh fuel h m
  | OpCollapseGroup iCaseID => Some (collapseGroup h iCaseID m)
  | OpExpandGroup iCaseID => Some (expandGroup h iCaseID m)
  end.

Definition tableRun (fuel : nat) (h : Hierarchy) (ops : list TableOp) (m : CaseTableDataManager)
    : option CaseTableDataManager :=
  forEachM (tableStep fuel h) ops m.

(** ** DG.DocumentController: the changes of the document that are not
    saved yet *)

Module DocumentController.

(** A callback registered with [done] on the deferred object of a save. *)
Inductive Callback :=
  | ClearSaveInProgress              (* of [signalSaveInProgress] *)
  | Update (changedObject : nat).    (* of [DG.dirtyCurrentDocument] *)

(** The controller: the document and the objects that have changed are
    referred to by numbers, as objects with identity; [saveInProgress] is
    the pending deferred object, with the callbacks registered on it in
    their order. *)
Record DocumentController := mkDocumentController {
  content : nat;
  changeCount : nat;
  savedChangeCount : nat;
  _changedObjects : list nat;
  saveInProgress : option (list Callback)
}.

(** [hasUnsavedChanges]; [isSaveEnabled] and [gameHasUnsavedChanges] are
    bound to other controllers. *)
Definition hasUnsavedChanges (isSaveEnabled gameHasUnsavedChanges : bool)
    (d : DocumentController) : bool :=
  isSaveEnabled &&
    (bool_decide (savedChangeCount d < changeCount d) || gameHasUnsavedChanges ||
     bool_decide (0 < length (_changedObjects d))).

(** [updateSavedChangeCount]; the game controllers that it tells to do the
    same are not part of this controller. *)
Definition updateSavedChangeCount (d : DocumentController) : DocumentController :=
  {| content := content d; changeCount := changeCount d;
     savedChangeCount := changeCount d; _changedObjects := _changedObjects d;
     saveInProgress := saveInProgress d |}.

Definition set_changedObjects (l : list nat) (d : DocumentController) : DocumentController :=
  {| content := content d; changeCount := changeCount d;
     savedChangeCount := savedChangeCount d; _changedObjects := l;
     saveInProgress := saveInProgress d |}.

Definition objectChanged (obj : nat) (d : DocumentController) : DocumentController :=
  if (Array_indexOf (_changedObjects d) obj =? -1)%Z
  then set_changedObjects (_changedObjects d ++ [obj]) d
  else d.

Definition clearChangedObjects (d : DocumentController) : DocumentController :=
  set_changedObjects [] d.

(** [changes.splice(idx, 1)] takes out the element at [idx]. *)
Definition clearChangedObject (obj : nat) (d : DocumentController) : DocumentController :=
  let idx := Array_indexOf (_changedObjects d) obj in
  if (idx =? -1)%Z then d
  else set_changedObjects (delete (Z.to_nat idx) (_changedObjects d)) d.

Definition objectHasUnsavedChanges (obj : nat) (d : DocumentController) : bool :=
  negb (Array_indexOf (_changedObjects d) obj =? -1)%Z.

(** [signalSaveInProgress]: a new deferred object whose first callback
    clears [saveInProgress]. *)
Definition signalSaveInProgress (d : DocumentController) : DocumentController :=
  {| content := content d; changeCount := changeCount d;
     savedChangeCount := savedChangeCount d; _changedObjects := _changedObjects d;
     saveInProgress := Some [ClearSaveInProgress] |}.

(** The [update] of [DG.dirtyCurrentDocument]. *)
Definition update (changedObject : nat) (d : DocumentController) : DocumentController :=
  let d1 := objectChanged changedObject d in
  {| content := content d1; changeCount := S (changeCount d1);
     savedChangeCount := savedChangeCount d1; _changedObjects := _changedObjects d1;
     saveInProgress := saveInProgress d1 |}.

(** [DG.dirtyCurrentDocument], as far as the document controller goes (what
    it tells the undo history is [DG_dirtyCurrentDocument] above): the
    document is dirtied at once, or when the save in progress is done. *)
Definition dirtyCurrentDocument (changedObject : option nat) (d : DocumentController)
    : DocumentController :=
  let changedObject := default (content d) changedObject in
  match saveInProgress d with
  | Some callbacks =>
      {| content := content d; changeCount := changeCount d;
         savedChangeCount := savedChangeCount d; _changedObjects := _changedObjects d;
         saveInProgress := Some (callbacks ++ [Update changedObject]) |}
  | None => update changedObject d
  end.

Definition runCallback (d : DocumentController) (cb : Callback) : DocumentController :=
  match cb with
  | ClearSaveInProgress =>
      {| content := content d; changeCount := changeCount d;
         savedChangeCount := savedChangeCount d; _changedObjects := _changedObjects d;
         saveInProgress := None |}
  | Update changedObject => update changedObject d
  end.

(** [saveInProgress.resolve()]: the callbacks registered with [done] run in
    the order of their registration. *)
Definition resolve (d : DocumentController) : DocumentController :=
  match saveInProgress d with
  | Some callbacks => foldl runCallback d callbacks
  | None => d
  end.

End DocumentController.

(** ** DG.PlotView: the rectangles of an incremental selection *)

Module PlotView.




End PlotView.

(** ** Example documents *)

(** Handlers that leave the hierarchy alone, for running the dispatch on
    examples that do not use the operations on collections and
    attributes. *)
Definition idleHandler (iChange : Change) (h : Hierarchy)
    : option (Change * Hierarchy * Result) :=
  Some (iChange, h, {| success := false; caseIDs := None; caseID := None |}).

Definition mkCaseOf (k coll : nat) (par : option nat) (kids : list nat)
    (vals : list (nat * Value)) : Case :=
  {| case_id := k; case_collection := coll; case_parent := par; children := kids;
     _valuesMap := list_to_map vals; isDestroyed := false |}.

(** "Families" (collection 1, attribute 1) above "People" (collection 2,
    attributes 2 and 3, the first a copy of the parent's).  Family 10 has
    the people 11, 12 and 13. *)
Definition oneFamily : Hierarchy :=
  {| collections := [(1, "Families"); (2, "People")];
     _collectionClients :=
       list_to_map
         [(1, {| parentCollectionID := None; attributeIDs := [1];
                 casesController := [10]; selection := ∅ |});
          (2, {| parentCollectionID := Some 1; attributeIDs := [2; 3];
                 casesController := [11; 12; 13]; selection := ∅ |})];
     store :=
       list_to_map
         [(10, mkCaseOf 10 1 None [11; 12; 13] [(1, VString "Smith")]);
          (11, mkCaseOf 11 2 (Some 10) [] [(2, VString "Smith"); (3, VString "Ann")]);
          (12, mkCaseOf 12 2 (Some 10) [] [(2, VString "Smith"); (3, VString "Bob")]);
          (13, mkCaseOf 13 2 (Some 10) [] [(2, VString "Smith"); (3, VString "Cy")])] |}.

(** The same with a second family, 14, that has no people. *)
Definition twoFamilies : Hierarchy :=
  {| collections := collections oneFamily;
     _collectionClients :=
       alter (set_casesController [10; 14]) 1 (_collectionClients oneFamily);
     store := <[14 := mkCaseOf 14 1 None [] [(1, VString "Jones")]]> (store oneFamily) |}.

Definition contextOf (h : Hierarchy) : DataContext := set_hierarchy h init.

Definition selectChange (l : list nat) (sel ext : bool) : Change :=
  {| operation := selectCases; isComplete := false; collection := None; properties := None;
     values := None; cases := Some l; select := sel; extend := ext;
     ids := []; collectionIDs := ∅; result := None |}.

Definition createCasesChange (coll : option CollectionRef) (par : ParentRef)
    (vals : list Value) : Change :=
  {| operation := createCases; isComplete := false; collection := coll;
     properties := Some {| parent := par; index := None |};
     values := Some vals; cases := None; select := false; extend := false;
     ids := []; collectionIDs := ∅; result := None |}.

Definition deleteChange (l : list nat) : Change :=
  {| operation := deleteCases; isComplete := false; collection := None; properties := None;
     values := None; cases := Some l; select := false; extend := false;
     ids := []; collectionIDs := ∅; result := None |}.

Definition createCaseChange (coll : option CollectionRef) (par : ParentRef)
    (vals : list Value) : Change :=
  {| operation := createCase; isComplete := false; collection := coll;
     properties := Some {| parent := par; index := None |};
     values := Some vals; cases := None; select := false; extend := false;
     ids := []; collectionIDs := ∅; result := None |}.

(** One collection, "Trials", holding case 10, with the attributes 1 and 2
    listed in the given order (a collection that is created again has its
    attributes reordered to the order asked for). *)
Definition trials (attrs : list nat) : Hierarchy :=
  {| collections := [(1, "Trials")];
     _collectionClients :=
       {[ 1 := {| parentCollectionID := None; attributeIDs := attrs;
                  casesController := [10]; selection := ∅ |} ]};
     store := {[ 10 := mkCaseOf 10 1 None [] [] ]} |}.

(** ** Predicates of the statements *)

(** The fields that only [applyChange] and the end of the run loop write. *)
Definition sameCounters (dc dc' : DataContext) : Prop :=
  changeCount dc' = changeCount dc ∧ _changeCount dc' = _changeCount dc ∧
  _prevChangeCount dc' = _prevChangeCount dc ∧ changes dc' = changes dc ∧
  invokeLastQueue dc' = invokeLastQueue dc.

(** The invariant of the counters between two calls. *)
Definition countersInv (dc : DataContext) : Prop :=
  changeCount dc ≤ _changeCount dc ∧
  (invokeLastQueue dc = 0 → changeCount dc = _changeCount dc).

(** A data context at rest: no notification is pending and the log, the
    counter and the observable count agree, as after [init]. *)
Definition settled (dc : DataContext) : Prop :=
  invokeLastQueue dc = 0 ∧ changeCount dc = _changeCount dc ∧
  length (changes dc) = _changeCount dc.

(** What the creation of other cases leaves untouched in a case. *)
Definition caseKept (c c' : Case) : Prop :=
  _valuesMap c' = _valuesMap c ∧ isDestroyed c' = isDestroyed c ∧
  case_parent c' = case_parent c ∧ case_collection c' = case_collection c.

Definition storeExtends (st st' : gmap nat Case) : Prop :=
  ∀ id c, st !! id = Some c → ∃ c', st' !! id = Some c' ∧ caseKept c c'.

(** A store without cycles: [rank] falls from a case to its children, which
    are all in the store. *)
Definition acyclicStore (st : gmap nat Case) (rank : nat → nat) : Prop :=
  ∀ k c, st !! k = Some c → ∀ j, j ∈ children c → is_Some (st !! j) ∧ rank j < rank k.

(** The cases [l] can be walked with their descendants within [fuel]. *)
Definition walkable (h : Hierarchy) (fuel : nat) (l : list nat) : Prop :=
  ∃ rank, acyclicStore (store h) rank ∧
          ∀ k, k ∈ l → is_Some (store h !! k) ∧ rank k < fuel.

(** What holds of the closure variables while the cases are walked: no
    collection is marked as extended yet, every collection of the selection
    map has a client and at least one case, and [isSelectionChanged] is
    set exactly when some case of the map passed the test. *)
Definition walkInv (changes : gset nat → nat → bool) (h : Hierarchy) (v : SelectVars) : Prop :=
  tCollectionExtendMap v = ∅ ∧
  (∀ cid L, tCollectionSelectionMap v !! cid = Some L →
            L ≠ [] ∧ is_Some (_collectionClients h !! cid)) ∧
  (isSelectionChanged v = true ↔
   ∃ cid L c coll, tCollectionSelectionMap v !! cid = Some L ∧ c ∈ L ∧
                   _collectionClients h !! cid = Some coll ∧
                   changes (selection coll) c = true).

(** A case recorded for a collection in the selection map. *)
Definition inSelectionMap (v : SelectVars) (cid k : nat) : Prop :=
  ∃ L, tCollectionSelectionMap v !! cid = Some L ∧ k ∈ L.

(** The pass over all collections: a collection is deselected when the
    caller does not extend, it is one of the collections of the context,
    its id is not 0, and it is not marked. *)
Definition deselectedByPass (tExtend : bool) (colls : list (nat * string)) (ext : gset nat)
    (cid : nat) : Prop :=
  tExtend = false ∧ cid ≠ 0 ∧ (cid ∉ ext) ∧ cid ∈ colls.*1.

(** The cases that the walk of [selectCaseAndChildren] (and of
    [deselectCaseAndChildren]) visits when it starts on a case: the case
    itself, if it is in the store and its collection is a client of the
    context, and then what the walk visits from each of its children.  These
    are the case and its descendants, down to the cases whose collection is
    no client. *)
Inductive walkedFrom (h : Hierarchy) : nat → nat → Prop :=
  | walkedFrom_self k c :
      store h !! k = Some c → is_Some (_collectionClients h !! case_collection c) →
      walkedFrom h k k
  | walkedFrom_child k c j d :
      store h !! k = Some c → is_Some (_collectionClients h !! case_collection c) →
      j ∈ children c → walkedFrom h j d →
      walkedFrom h k d.

(** [k] is a case of the collection [cid] that is walked from one of the
    cases [l]. *)
Definition walkedCase (h : Hierarchy) (l : list nat) (cid k : nat) : Prop :=
  ∃ k0 c, k0 ∈ l ∧ walkedFrom h k0 k ∧ store h !! k = Some c ∧ case_collection c = cid.

(** A change of the selection is detected on the cases [l]: selecting,
    some walked case is not in the selection of its collection, or that
    selection holds more than one case; deselecting, some walked case is in
    the selection of its collection. *)
Definition changeDetected (h : Hierarchy) (sel : bool) (l : list nat) : Prop :=
  ∃ k0 k c coll,
    k0 ∈ l ∧ walkedFrom h k0 k ∧ store h !! k = Some c ∧
    _collectionClients h !! case_collection c = Some coll ∧
    if sel then k ∉ selection coll ∨ 1 < size (selection coll)
    else k ∈ selection coll.

(** The pass over all collections clears the collection [cid]: a change
    has been detected, the caller does not extend, and [cid] is a collection
    of the context with an id other than 0. *)
Definition clearedByPass (h : Hierarchy) (iChange : Change) (l : list nat) (cid : nat) : Prop :=
  changeDetected h (select iChange) l ∧ extend iChange = false ∧
  cid ≠ 0 ∧ cid ∈ (collections h).*1.

(** A check of [walkable] that computes, for concrete documents. *)
Definition walkableCheck (h : Hierarchy) (fuel : nat) (l : list nat) (rank : nat → nat) : bool :=
  bool_decide
    (map_Forall (λ k c, Forall (λ j, is_Some (store h !! j) ∧ rank j < rank k) (children c))
                (store h)) &&
  bool_decide (Forall (λ k, is_Some (store h !! k) ∧ rank k < fuel) l).

(** Families rank above people. *)
Definition familyRank (k : nat) : nat :=
  if decide (k = 10 ∨ k = 14) then 1 else 0.

Definition destroyedIn (st : gmap nat Case) (id : nat) : Prop :=
  ∃ c, st !! id = Some c ∧ isDestroyed c = true.

(** What a deletion may do to a case that stays in the store: lose
    children, become destroyed. *)
Definition caseShrinks (c c' : Case) : Prop :=
  case_parent c' = case_parent c ∧ case_collection c' = case_collection c ∧
  children c' `sublist_of` children c ∧
  (isDestroyed c = true → isDestroyed c' = true).

Definition storeShrinks (st st' : gmap nat Case) : Prop :=
  (∀ id c, st !! id = Some c → ∃ c', st' !! id = Some c' ∧ caseShrinks c c') ∧
  (∀ id, st !! id = None → st' !! id = None).

(** What holds of [iChange.ids] and of the deleted cases kept for undo while
    cases are deleted, [st0] being the store before the deletion: the ids are
    distinct, there is one kept record per id, and the ids are exactly the
    cases destroyed since [st0]. *)
Definition deleteInv (st0 : gmap nat Case) (v : DeleteVars) : Prop :=
  storeShrinks st0 (store (del_hierarchy v)) ∧
  NoDup (del_ids v) ∧
  oldCase <$> deletedCases v = del_ids v ∧
  (∀ id, id ∈ del_ids v →
         destroyedIn (store (del_hierarchy v)) id ∧ ¬ destroyedIn st0 id) ∧
  (∀ id, destroyedIn (store (del_hierarchy v)) id →
         destroyedIn st0 id ∨ id ∈ del_ids v).

(** What one call of [deleteCaseAndChildren] on [x] guarantees. *)
Definition deleteStepOk (st0 : gmap nat Case) (rank : nat → nat) (bound : nat)
    (v v' : DeleteVars) : Prop :=
  deleteInv st0 v' ∧
  storeShrinks (store (del_hierarchy v)) (store (del_hierarchy v')) ∧
  (∀ id, destroyedIn (store (del_hierarchy v')) id →
         destroyedIn (store (del_hierarchy v)) id ∨ rank id ≤ bound).

(** A store that is a forest: no cycles, no case twice among the children of
    a case, every child pointing back to its parent, and every case in a
    collection of the context. *)
Definition treeStore (cl : gmap nat Collection) (st : gmap nat Case) (rank : nat → nat) : Prop :=
  acyclicStore st rank ∧
  ∀ y c, st !! y = Some c →
    NoDup (children c) ∧ is_Some (cl !! case_collection c) ∧
    ∀ x, x ∈ children c → ∃ cx, st !! x = Some cx ∧ case_parent cx = Some y.

(** What a deletion below [x] does to the children of the cases above
    [x]. *)
Definition childrenFrame (rank : nat → nat) (x : nat) (st st' : gmap nat Case) : Prop :=
  ∀ y cy, st !! y = Some cy → rank x < rank y →
          ∃ cy', st' !! y = Some cy' ∧
                 (children cy' = children cy ∨
                  children cy' = filter (λ k, k ≠ x) (children cy)).

Definition treeVars (rank : nat → nat) (v : DeleteVars) : Prop :=
  treeStore (_collectionClients (del_hierarchy v)) (store (del_hierarchy v)) rank.

Definition deleteReturns (rank : nat → nat) (x : nat) (v v' : DeleteVars) : Prop :=
  treeVars rank v' ∧
  storeShrinks (store (del_hierarchy v)) (store (del_hierarchy v')) ∧
  childrenFrame rank x (store (del_hierarchy v)) (store (del_hierarchy v')).

(** A check of [treeStore] that computes, for concrete documents. *)
Definition treeStoreCheck (cl : gmap nat Collection) (st : gmap nat Case) (rank : nat → nat)
    : bool :=
  bool_decide
    (map_Forall
       (λ y c, NoDup (children c) ∧ is_Some (cl !! case_collection c) ∧
               Forall (λ x, is_Some (st !! x) ∧ rank x < rank y ∧
                            (st !! x ≫= case_parent) = Some y)
                      (children c))
       st).

(** The cases [nodes] and their descendants down to [depth] levels lie in
    the store, those of the last level in the collection [C] and those above
    it in other collections: the hierarchy as a table on [C] expects it. *)
Fixpoint levelled (h : Hierarchy) (C : nat) (depth : nat) (nodes : list nat) : Prop :=
  match depth with
  | 0 => Forall (λ n, ∃ c, store h !! n = Some c ∧ case_collection c = C) nodes
  | S depth' =>
      Forall (λ n, ∃ c, store h !! n = Some c ∧ case_collection c ≠ C ∧
                        levelled h C depth' (children c)) nodes
  end.
(** No destroyed case is among the children of a case, or among the cases
    of a collection; and the cases of a collection are cases of that
    collection. *)
Definition liveChildren (st : gmap nat Case) : Prop :=
  ∀ y c k, st !! y = Some c → k ∈ children c → ¬ destroyedIn st k.

Definition liveCollections (h : Hierarchy) : Prop :=
  ∀ cid coll k, _collectionClients h !! cid = Some coll → k ∈ casesController coll →
                ∃ c, store h !! k = Some c ∧ case_collection c = cid ∧ isDestroyed c = false.

(** What every step of a deletion keeps, from the variables [v] to [v']:
    cases only lose children or become destroyed, a child that a case has
    lost is destroyed, and a case destroyed since [v] has no children
    left. *)
Definition deleteKeeps (v v' : DeleteVars) : Prop :=
  storeShrinks (store (del_hierarchy v)) (store (del_hierarchy v')) ∧
  (∀ y cy k, store (del_hierarchy v) !! y = Some cy → k ∈ children cy →
             (∃ cy', store (del_hierarchy v') !! y = Some cy' ∧ k ∈ children cy') ∨
             destroyedIn (store (del_hierarchy v')) k) ∧
  (∀ id, destroyedIn (store (del_hierarchy v')) id →
         ¬ destroyedIn (store (del_hierarchy v)) id →
         ∃ c', store (del_hierarchy v') !! id = Some c' ∧ children c' = []).

Definition liveVars (rank : nat → nat) (v : DeleteVars) : Prop :=
  treeVars rank v ∧ liveChildren (store (del_hierarchy v)).

(** What one call of [deleteCaseAndChildren] on [x] guarantees on a forest
    without destroyed children. *)
Definition deletedTree (rank : nat → nat) (x : nat) (v v' : DeleteVars) : Prop :=
  liveVars rank v' ∧ deleteKeeps v v' ∧
  destroyedIn (store (del_hierarchy v')) x ∧
  (∀ y cy, store (del_hierarchy v) !! y = Some cy → rank x < rank y →
           ∃ cy', store (del_hierarchy v') !! y = Some cy' ∧
                  children cy' = filter (λ k, k ≠ x) (children cy)).

(** A check of [liveChildren] and [liveCollections] that computes, for
    concrete documents. *)
Definition liveCheck (h : Hierarchy) : bool :=
  bool_decide
    (map_Forall (λ (_ : nat) c,
                   Forall (λ k, (isDestroyed <$> store h !! k) ≠ Some true) (children c))
                (store h)) &&
  bool_decide
    (map_Forall (λ cid coll,
                   Forall (λ k, (case_collection <$> store h !! k) = Some cid ∧
                                (isDestroyed <$> store h !! k) = Some false)
                          (casesController coll))
                (_collectionClients h)).


(* ===================================================================== *)
(** * Properties *)
(* ===================================================================== *)

(** ** The change log and its counters *)

Lemma sameCounters_refl dc : sameCounters dc dc.
Proof. by repeat split. Qed.

Lemma sameCounters_trans dc1 dc2 dc3 :
  sameCounters dc1 dc2 → sameCounters dc2 dc3 → sameCounters dc1 dc3.
Proof.
  intros (?&?&?&?&?) (?&?&?&?&?). repeat split; congruence.
Qed.

Lemma sameCounters_dirty dc : sameCounters dc (DG_dirtyCurrentDocument dc).
Proof. unfold DG_dirtyCurrentDocument. destruct (inProgress _); by repeat split. Qed.

Lemma validateParent_counters dc coll p b dc' :
  validateParent dc coll p = Some (b, dc') → sameCounters dc dc'.
Proof.
  unfold validateParent. intros H.
  repeat (case_match; simplify_eq); by repeat split.
Qed.

Lemma doCreateCases_counters c dc c' dc' r :
  doCreateCases c dc = Some (c', dc', r) → sameCounters dc dc'.
Proof.
  unfold doCreateCases. intros H.
  destruct (typeof_is_object _).
  - repeat (case_match; simplify_eq); by repeat split.
  - destruct (validateParent _ _ _) as [[b dc1]|] eqn:Hv; [|done].
    apply validateParent_counters in Hv.
    repeat (case_match; simplify_eq);
      (eapply sameCounters_trans; [exact Hv|by repeat split]).
Qed.

Lemma doSelectCases_counters fuel c dc c' dc' r :
  doSelectCases fuel c dc = Some (c', dc', r) → sameCounters dc dc'.
Proof.
  unfold doSelectCases, finishSelection. intros H.
  repeat (case_match; simplify_eq); by repeat split.
Qed.

Lemma doDeleteCases_counters fuel c dc c' dc' r :
  doDeleteCases fuel c dc = Some (c', dc', r) → sameCounters dc dc'.
Proof.
  unfold doDeleteCases. intros H.
  repeat (case_match; simplify_eq); by repeat split.
Qed.

Section Counters.
Context (doCreateCollection doUpdateCases doCreateAttributes doUpdateAttributes
         doDeleteAttributes doResetCollections
           : Change → Hierarchy → option (Change * Hierarchy * Result)).

#[local] Abbreviation performChange' :=
  (performChange doCreateCollection doUpdateCases doCreateAttributes
     doUpdateAttributes doDeleteAttributes doResetCollections).
#[local] Abbreviation applyChange' :=
  (applyChange doCreateCollection doUpdateCases doCreateAttributes
     doUpdateAttributes doDeleteAttributes doResetCollections).
#[local] Abbreviation step' :=
  (step doCreateCollection doUpdateCases doCreateAttributes
     doUpdateAttributes doDeleteAttributes doResetCollections).
#[local] Abbreviation run' :=
  (run doCreateCollection doUpdateCases doCreateAttributes
     doUpdateAttributes doDeleteAttributes doResetCollections).

Lemma onHierarchy_counters handler c dc c' dc' r :
  onHierarchy handler c dc = Some (c', dc', r) → sameCounters dc dc'.
Proof.
  unfold onHierarchy. intros H.
  repeat (case_match; simplify_eq); by repeat split.
Qed.

Lemma performChange_counters fuel c dc c' dc' r :
  performChange' fuel c dc = Some (c', dc', r) → sameCounters dc dc'.
Proof.
  unfold performChange. intros H.
  destruct (isComplete c); [simplify_eq; apply sameCounters_refl|].
  assert (Hd : ∀ (b : bool) (x : option (Change * DataContext * Result)) dc0,
             (∀ c1 dc1 r1, x = Some (c1, dc1, r1) → sameCounters dc0 dc1) →
             dirty b x = Some (c', dc', r) → sameCounters dc0 dc').
  { intros b [[[c1 dc1] r1]|] dc0 Hx Heq; [|done]. simpl in Heq. simplify_eq.
    specialize (Hx _ _ _ eq_refl). destruct b; [|done].
    eapply sameCounters_trans; [exact Hx|apply sameCounters_dirty]. }
  destruct (operation c); (eapply Hd; [|exact H]); intros c1 dc1 r1 Hx;
    eauto using onHierarchy_counters, doCreateCases_counters,
      doSelectCases_counters, doDeleteCases_counters.
  - destruct (doCreateCases _ dc) as [[[c2 dc2] r2]|] eqn:Hc; [|done].
    simplify_eq. eauto using doCreateCases_counters.
  - simplify_eq. by repeat split.
Qed.

(** One call of [applyChange] appends one change and adds one to
    [_changeCount]; the observable [changeCount] waits for the end of the
    run loop. *)
Lemma applyChange_counters fuel c dc dc' r :
  applyChange' fuel c dc = Some (dc', r) →
  _changeCount dc' = S (_changeCount dc) ∧
  length (changes dc') = S (length (changes dc)) ∧
  changeCount dc' = changeCount dc ∧
  invokeLastQueue dc' = S (invokeLastQueue dc).
Proof.
  unfold applyChange. intros H.
  destruct (performChange' fuel c dc) as [[[c1 dc1] r1]|] eqn:Hp; [|done].
  apply performChange_counters in Hp as (?&?&?&Hch&?). simplify_eq. simpl.
  rewrite length_app, Hch. simpl. repeat split; lia.
Qed.

Lemma notify_iter_counters n dc :
  let dc' := Nat.iter n notifyChangeCount dc in
  _changeCount dc' = _changeCount dc ∧ changes dc' = changes dc ∧
  changeCount dc' = (if n is 0 then changeCount dc else _changeCount dc).
Proof.
  induction n as [|n IH]; simpl; [done|].
  destruct IH as (?&?&?). by repeat split.
Qed.

Lemma endRunLoop_counters dc :
  _changeCount (endRunLoop dc) = _changeCount dc ∧
  changes (endRunLoop dc) = changes dc ∧
  invokeLastQueue (endRunLoop dc) = 0 ∧
  changeCount (endRunLoop dc) =
    (if invokeLastQueue dc is 0 then changeCount dc else _changeCount dc).
Proof.
  unfold endRunLoop. simpl.
  destruct (notify_iter_counters (invokeLastQueue dc) dc) as (?&?&?).
  by repeat split.
Qed.

Lemma step_counters fuel e dc dc' :
  countersInv dc → step' fuel e dc = Some dc' →
  countersInv dc' ∧
  changeCount dc ≤ changeCount dc' ∧
  _changeCount dc' = _changeCount dc + applyCount [e] ∧
  length (changes dc') = length (changes dc) + applyCount [e].
Proof.
  intros [Hle Hq] H. destruct e as [c|]; simpl in H.
  - destruct (applyChange' fuel c dc) as [[dc1 r]|] eqn:Ha; [|done].
    simpl in H. simplify_eq.
    apply applyChange_counters in Ha as (?&?&?&?). simpl.
    unfold countersInv. repeat split; lia.
  - simplify_eq. destruct (endRunLoop_counters dc) as (H1&H2&H3&H4).
    unfold countersInv. rewrite H1, H2, H4. cbn [applyCount].
    destruct (invokeLastQueue dc); repeat split; lia.
Qed.

Lemma run_counters fuel es dc dc' :
  countersInv dc → run' fuel es dc = Some dc' →
  countersInv dc' ∧
  changeCount dc ≤ changeCount dc' ∧
  _changeCount dc' = _changeCount dc + applyCount es ∧
  length (changes dc') = length (changes dc) + applyCount es.
Proof.
  unfold run. revert dc.
  induction es as [|e es IH]; intros dc Hinv H; simpl in H.
  - simplify_eq. simpl. split; [done|]. repeat split; lia.
  - destruct (step' fuel e dc) as [dc1|] eqn:Hs; [|done].
    destruct (step_counters _ _ _ _ Hinv Hs) as (Hinv1&?&H2&H3).
    destruct (IH _ Hinv1 H) as (?&?&?&?).
    assert (applyCount (e :: es) = applyCount [e] + applyCount es) as ->
      by (destruct e; simpl; lia).
    split; [done|]. repeat split; lia.
Qed.

(** Calls of [applyChange] alone leave the observable [changeCount] as it
    is. *)
Lemma run_applies_changeCount fuel es dc dc' :
  EndOfRunLoop ∉ es → run' fuel es dc = Some dc' → changeCount dc' = changeCount dc.
Proof.
  unfold run. revert dc.
  induction es as [|e es IH]; intros dc Hno H; simpl in H; [by simplify_eq|].
  apply not_elem_of_cons in Hno as [He Hno].
  destruct e as [c|]; [|done]. simpl in H.
  destruct (applyChange' fuel c dc) as [[dc1 r]|] eqn:Ha; [|done]. simpl in H.
  apply applyChange_counters in Ha as (_&_&Hc&_).
  rewrite (IH _ Hno H). exact Hc.
Qed.

(** C1, as the code has it.  On a data context at rest, along any sequence
    of calls of [applyChange] (with [isComplete] unset or set) that return
    and of ends of the run loop: the private counter [_changeCount] and the
    length of [changes] have grown by exactly the number of calls, one per
    call, and agree; the observable [changeCount] is never lowered and never
    exceeds them, and the calls themselves do not change it: as long as no
    run loop has ended it is what it was.  Once the run loop has ended,
    [changeCount] has grown by exactly the number of calls and
    [changes.length] equals [changeCount]. *)
Theorem applyChange_changeCount fuel es dc dc' :
  settled dc →
  run' fuel es dc = Some dc' →
  _changeCount dc' = _changeCount dc + applyCount es ∧
  length (changes dc') = _changeCount dc' ∧
  changeCount dc ≤ changeCount dc' ∧
  changeCount dc' ≤ length (changes dc') ∧
  (EndOfRunLoop ∉ es → changeCount dc' = changeCount dc) ∧
  changeCount (endRunLoop dc') = changeCount dc + applyCount es ∧
  length (changes (endRunLoop dc')) = changeCount (endRunLoop dc') ∧
  settled (endRunLoop dc').
Proof.
  intros (Hq&Hc&Hl) H.
  assert (Hinv : countersInv dc) by (split; [lia|done]).
  destruct (run_counters _ _ _ _ Hinv H) as ([Hle' Hq']&?&H2&H3).
  destruct (endRunLoop_counters dc') as (H4&H5&H6&H7).
  assert (changeCount (endRunLoop dc') = _changeCount dc') as Hfin.
  { rewrite H7. destruct (invokeLastQueue dc') eqn:E; [by apply Hq'|done]. }
  unfold settled. rewrite Hfin, H4, H5, H6.
  split; [lia|]. split; [lia|]. split; [lia|]. split; [lia|].
  split; [intros Hno; by eapply run_applies_changeCount|].
  repeat split; lia.
Qed.

End Counters.

Lemma applyChange_changeCount_witness :
  ∃ dc',
    run idleHandler idleHandler idleHandler idleHandler idleHandler idleHandler 3
      [Apply (selectChange [11] true false);
       Apply (createCasesChange (Some (ByName "People")) (ParentID 10)
                [VArray [VString "Dee"]]);
       EndOfRunLoop;
       Apply (deleteChange [13])]
      (contextOf oneFamily) = Some dc' ∧
    changeCount (endRunLoop dc') = 3 ∧
    length (changes (endRunLoop dc')) = changeCount (endRunLoop dc').
Proof.
  destruct (run _ _ _ _ _ _ _ _ _) as [dc'|] eqn:E.
  - exists dc'. split; [reflexivity|].
    destruct (applyChange_changeCount _ _ _ _ _ _ _ _ _ _
                (conj eq_refl (conj eq_refl eq_refl) : settled (contextOf oneFamily)) E)
      as (_&_&_&_&_&H1&H2&_).
    split; [exact H1|exact H2].
  - vm_compute in E. discriminate E.
Defined.

(** C1, a counterexample to the claim as stated.  One call of
    [applyChange] on the data context of the example, the selection of
    person 11, returns with the change in the log and [changeCount] still 0:
    the call has not increased it, and [changes.length] is not equal to it.
    After three calls in the same run loop the count is still 0, against a
    log of three changes. *)
Lemma applyChange_changeCount_not_synchronous :
  ∃ dc1 r dc3,
    applyChange idleHandler idleHandler idleHandler idleHandler idleHandler idleHandler 3
      (selectChange [11] true false) (contextOf oneFamily) = Some (dc1, r) ∧
    changeCount (contextOf oneFamily) = 0 ∧ length (changes (contextOf oneFamily)) = 0 ∧
    changeCount dc1 = 0 ∧ length (changes dc1) = 1 ∧
    run idleHandler idleHandler idleHandler idleHandler idleHandler idleHandler 3
      [Apply (selectChange [11] true false);
       Apply (createCasesChange (Some (ByName "People")) (ParentID 10)
                [VArray [VString "Dee"]]);
       Apply (deleteChange [13])]
      (contextOf oneFamily) = Some dc3 ∧
    changeCount dc3 = 0 ∧ length (changes dc3) = 3.
Proof.
  eexists _, _, _. split; [vm_compute; reflexivity|].
  repeat (split; [vm_compute; reflexivity|]). vm_compute; reflexivity.
Qed.

(** ** The row index of the case table *)

Lemma getCaseByID_Some h k c :
  getCaseByID h k = Some c → store h !! k = Some c ∧ isDestroyed c = false.
Proof.
  unfold getCaseByID. destruct (store h !! k) as [c'|]; [|done].
  destruct (isDestroyed c') eqn:E; [done|]. intros; by simplify_eq.
Qed.

(** The chain of collections of a table on the child collection of a
    two-level hierarchy. *)
Lemma makeCollections_two_levels fuel h C R collC collR :
  2 ≤ fuel →
  _collectionClients h !! C = Some collC → parentCollectionID collC = Some R →
  _collectionClients h !! R = Some collR → parentCollectionID collR = None →
  makeCollections fuel h (Some C) = Some [R; C].
Proof.
  intros Hf HC HpC HR HpR. unfold makeCollections.
  destruct fuel as [|[|fuel]]; [lia|lia|]. simpl.
  rewrite HC, HpC, HR, HpR. by destruct fuel.
Qed.

(** A refresh that is not suspended, on such a table whose root collection
    holds the cases [roots]. *)
Lemma refresh_two_levels fuel h m C R collC collR :
  2 ≤ fuel → suspended m = false → table_collection m = Some C →
  _collectionClients h !! C = Some collC → parentCollectionID collC = Some R →
  _collectionClients h !! R = Some collR → parentCollectionID collR = None →
  ∀ rows, visit h m 1 (casesController collR) [] = Some rows →
  ∃ m', refresh fuel h m = Some m' ∧ _rowCaseMap m' = rows ∧
        collapsedNodes m' = collapsedNodes m ∧ suspended m' = false ∧
        table_collection m' = Some C.
Proof.
  intros Hf Hs Ht HC HpC HR HpR rows Hv. unfold refresh.
  rewrite Hs, Ht, (makeCollections_two_levels fuel h C R collC collR) by done.
  rewrite HR. change (length [C]) with 1. rewrite Hv.
  eexists. split; [reflexivity|]. done.
Qed.

(** C7.  In a two-level hierarchy whose root collection holds the parent
    case [P] with the children [cs] (three of them in the claim), seen by a
    table on the child collection that is not suspended: after
    [collapseGroup(P)] and [refresh] the table has one row, which is [P];
    after [expandGroup(P)] and [refresh] it has one row per child, row [i]
    being child [i]. *)
Theorem collapse_expand_rows fuel h m C R collC collR P caseP :
  2 ≤ fuel → suspended m = false → table_collection m = Some C →
  _collectionClients h !! C = Some collC → parentCollectionID collC = Some R →
  _collectionClients h !! R = Some collR → parentCollectionID collR = None →
  casesController collR = [P] → getCaseByID h P = Some caseP →
  ∃ m1 m2,
    refresh fuel h (collapseGroup h P m) = Some m1 ∧
    getLength m1 = 1 ∧ getItem m1 0 = Some P ∧
    refresh fuel h (expandGroup h P m1) = Some m2 ∧
    getLength m2 = length (children caseP) ∧
    ∀ i, getItem m2 i = children caseP !! i.
Proof.
  intros Hf Hs Ht HC HpC HR HpR Hroots HP.
  pose proof (getCaseByID_Some _ _ _ HP) as [HPs _].
  assert (Hc : collapseGroup h P m = collapseNode P m)
    by (unfold collapseGroup; by rewrite HP).
  assert (Hv1 : visit h (collapseGroup h P m) 1 (casesController collR) [] = Some [P]).
  { rewrite Hroots, Hc. simpl. unfold isCollapsedNode. simpl.
    rewrite bool_decide_eq_true_2; [done|set_solver]. }
  destruct (refresh_two_levels fuel h (collapseGroup h P m) C R collC collR Hf
              ltac:(by rewrite Hc) ltac:(by rewrite Hc) HC HpC HR HpR _ Hv1)
    as (m1&Hr1&Hrows1&_&Hs1&Ht1).
  assert (He : expandGroup h P m1 = expandNode P m1)
    by (unfold expandGroup; by rewrite HP).
  assert (Hv2 : visit h (expandGroup h P m1) 1 (casesController collR) []
                = Some (children caseP)).
  { rewrite Hroots, He. simpl. unfold isCollapsedNode. simpl.
    rewrite bool_decide_eq_false_2; [by rewrite HPs|].
    intros [_ Hn]%elem_of_difference. by apply Hn, elem_of_singleton. }
  destruct (refresh_two_levels fuel h (expandGroup h P m1) C R collC collR Hf
              ltac:(by rewrite He) ltac:(by rewrite He) HC HpC HR HpR _ Hv2)
    as (m2&Hr2&Hrows2&_).
  exists m1, m2. unfold getLength, getItem. rewrite Hrows1, Hrows2.
  repeat split; done.
Qed.

(** Every refresh that is not suspended fires [onRowCountChanged], with the
    previous and the current number of rows. *)
Lemma refresh_always_notifies fuel h m m' :
  suspended m = false → refresh fuel h m = Some m' →
  onRowCountChanged m' =
    onRowCountChanged m ++ [(length (_rowCaseMap m), length (_rowCaseMap m'))].
Proof.
  unfold refresh. intros -> H.
  repeat (case_match; simplify_eq). done.
Qed.

(** C8, at a failing input.  A table on the root collection of a document is
    refreshed twice; the second refresh finds one row before and one row
    after, and fires [onRowCountChanged] all the same, with [previous] and
    [current] both 1. *)
Theorem refresh_notifies_unchanged_count :
  ∃ m1 m2,
    refresh 1 oneFamily (caseTableInit (Some 1)) = Some m1 ∧
    refresh 1 oneFamily m1 = Some m2 ∧
    getLength m1 = 1 ∧ getLength m2 = 1 ∧
    onRowCountChanged m2 = onRowCountChanged m1 ++ [(1, 1)].
Proof.
  eexists _, _. split; [vm_compute; reflexivity|].
  split; [vm_compute; reflexivity|]. by vm_compute.
Qed.

Lemma collapse_expand_rows_witness :
  ∃ m1 m2,
    refresh 2 oneFamily (collapseGroup oneFamily 10 (caseTableInit (Some 2))) = Some m1 ∧
    getLength m1 = 1 ∧ getItem m1 0 = Some 10 ∧
    refresh 2 oneFamily (expandGroup oneFamily 10 m1) = Some m2 ∧
    getLength m2 = 3 ∧
    ∀ i, getItem m2 i = [11; 12; 13] !! i.
Proof.
  apply (collapse_expand_rows 2 oneFamily (caseTableInit (Some 2)) 2 1
           {| parentCollectionID := Some 1; attributeIDs := [2; 3];
              casesController := [11; 12; 13]; selection := ∅ |}
           {| parentCollectionID := None; attributeIDs := [1];
              casesController := [10]; selection := ∅ |}
           10 (mkCaseOf 10 1 None [11; 12; 13] [(1, VString "Smith")]));
    [lia|vm_compute; reflexivity..].
Defined.

(** ** Creation of cases *)

Lemma newCaseID_fresh (st : gmap nat Case) : st !! newCaseID st = None.
Proof.
  destruct (st !! newCaseID st) as [c|] eqn:E; [|done].
  assert (newCaseID st ∈ elements (dom st)) as Hin.
  { apply elem_of_elements, elem_of_dom. by exists c. }
  apply max_list_elem_of_le in Hin. unfold newCaseID in Hin. lia.
Qed.

Lemma storeExtends_refl st : storeExtends st st.
Proof. intros id c H. exists c. by repeat split. Qed.

Lemma storeExtends_trans st1 st2 st3 :
  storeExtends st1 st2 → storeExtends st2 st3 → storeExtends st1 st3.
Proof.
  intros H12 H23 id c H. destruct (H12 _ _ H) as (c2&Hc2&?&?&?&?).
  destruct (H23 _ _ Hc2) as (c3&Hc3&?&?&?&?).
  exists c3. unfold caseKept. repeat split; congruence.
Qed.

Lemma storeExtends_None st st' id :
  storeExtends st st' → st' !! id = None → st !! id = None.
Proof.
  intros He Hn. destruct (st !! id) as [c|] eqn:E; [|done].
  destruct (He _ _ E) as (c'&?&_). congruence.
Qed.

Lemma storeExtends_getCaseByID h h' k pc :
  storeExtends (store h) (store h') → getCaseByID h k = Some pc →
  ∃ pc', getCaseByID h' k = Some pc'.
Proof.
  intros He [Hs Hd]%getCaseByID_Some.
  destruct (He _ _ Hs) as (c'&Hs'&_&Hd'&_).
  exists c'. unfold getCaseByID. rewrite Hs'. rewrite Hd', Hd. done.
Qed.

(** The case that one turn of [createOneCase] makes, and what the turn
    keeps. *)
Lemma createOneCase_spec cid props parentValues iValues h res k pc coll :
  getCaseByID h k = Some pc → _collectionClients h !! cid = Some coll →
  parent props = ParentID k →
  ∃ h2,
    createOneCase cid props parentValues iValues (h, res) =
      (h2, {| success := true;
              caseIDs := Some (default [] (caseIDs res) ++ [newCaseID (store h)]);
              caseID := caseID res |}) ∧
    storeExtends (store h) (store h2) ∧
    (∃ c, store h2 !! newCaseID (store h) = Some c ∧
          case_parent c = Some k ∧ case_collection c = cid ∧ isDestroyed c = false ∧
          _valuesMap c =
            if SC_none iValues then ∅
            else assignValues (attributeIDs coll) (Array_concat parentValues iValues) ∅) ∧
    (∃ coll', _collectionClients h2 !! cid = Some coll' ∧
              attributeIDs coll' = attributeIDs coll).
Proof.
  intros Hk Hc Hpar.
  pose proof (getCaseByID_Some _ _ _ Hk) as [Hks Hkd].
  pose proof (newCaseID_fresh (store h)) as Hfresh.
  assert (newCaseID (store h) ≠ k) as Hne
    by (intros Heq; rewrite Heq in Hfresh; congruence).
  unfold createOneCase, Collection_createCase, resolveParent.
  rewrite Hpar, Hk. cbv zeta.
  set (n := newCaseID (store h)) in *.
  destruct (SC_none iValues) eqn:Hnone.
  - eexists. split; [reflexivity|]. simpl. split; [|split].
    + intros id c Hid. destruct (decide (id = k)) as [->|Hidk].
      * rewrite lookup_alter_eq, lookup_insert_ne, Hid by done. simpl.
        eexists. split; [done|]. by repeat split.
      * rewrite lookup_alter_ne by done.
        rewrite lookup_insert_ne by (intros ->; congruence).
        exists c. by repeat split.
    + rewrite lookup_alter_ne, lookup_insert_eq by done.
      eexists. by repeat split.
    + rewrite lookup_alter_eq, Hc. simpl. eexists. by split.
  - unfold Collection_setCaseValuesFromArray. simpl.
    rewrite lookup_alter_eq, Hc. simpl.
    eexists. split; [reflexivity|]. simpl. split; [|split].
    + intros id c Hid.
      assert (id ≠ n) as Hidn by (intros ->; congruence).
      rewrite lookup_alter_ne by done.
      destruct (decide (id = k)) as [->|Hidk].
      * rewrite lookup_alter_eq, lookup_insert_ne, Hid by done. simpl.
        eexists. split; [done|]. by repeat split.
      * rewrite lookup_alter_ne by done.
        rewrite lookup_insert_ne by done.
        exists c. by repeat split.
    + rewrite lookup_alter_eq, lookup_alter_ne, lookup_insert_eq by done. simpl.
      eexists. by repeat split.
    + rewrite lookup_alter_eq, Hc. simpl. eexists. by split.
Qed.

(** The loop [valuesArrays.forEach(createOneCase)]. *)
Lemma createCases_loop cid props parentValues k attrs vs :
  parent props = ParentID k →
  ∀ h res pc coll,
    getCaseByID h k = Some pc → _collectionClients h !! cid = Some coll →
    attributeIDs coll = attrs →
    ∃ h' newIDs,
      foldl (λ s iValues, createOneCase cid props parentValues iValues s) (h, res) vs =
        (h', {| success := if vs is [] then success res else true;
                caseIDs := if vs is [] then caseIDs res
                           else Some (default [] (caseIDs res) ++ newIDs);
                caseID := caseID res |}) ∧
      storeExtends (store h) (store h') ∧
      Forall2 (λ id iValues,
                 store h !! id = None ∧
                 ∃ c, store h' !! id = Some c ∧
                      case_parent c = Some k ∧ case_collection c = cid ∧
                      isDestroyed c = false ∧
                      _valuesMap c =
                        if SC_none iValues then ∅
                        else assignValues attrs (Array_concat parentValues iValues) ∅)
              newIDs vs.
Proof.
  intros Hpar. induction vs as [|v vs IH]; intros h res pc coll Hk Hc Hattrs.
  - exists h, []. simpl. split; [by destruct res|]. split; [apply storeExtends_refl|constructor].
  - cbn [foldl].
    destruct (createOneCase_spec cid props parentValues v h res k pc coll Hk Hc Hpar)
      as (h2&->&Hext&(c&Hn&Hcp&Hcc&Hcd&Hcv)&(coll2&Hc2&Hattrs2)).
    destruct (storeExtends_getCaseByID _ _ _ _ Hext Hk) as [pc2 Hk2].
    destruct (IH h2 {| success := true;
                       caseIDs := Some (default [] (caseIDs res) ++ [newCaseID (store h)]);
                       caseID := caseID res |} pc2 coll2 Hk2 Hc2)
      as (h'&newIDs&Hfold&Hext2&Hall); [congruence|].
    exists h', (newCaseID (store h) :: newIDs). split; [|split].
    + rewrite Hfold. simpl. destruct vs; simpl; [|by rewrite <- app_assoc].
      inversion Hall; subst. done.
    + by eapply storeExtends_trans.
    + constructor.
      * split; [apply newCaseID_fresh|].
        destruct (Hext2 _ _ Hn) as (c'&Hn'&Hv'&Hd'&Hp'&Hcl').
        exists c'. rewrite Hv', Hd', Hp', Hcl', <- Hattrs. done.
      * eapply Forall2_impl; [exact Hall|]. simpl.
        intros id iv [Hnone Hc']. split; [|done].
        by eapply storeExtends_None.
Qed.

Section CreateCases.
Context (doCreateCollection doUpdateCases doCreateAttributes doUpdateAttributes
         doDeleteAttributes doResetCollections
           : Change → Hierarchy → option (Change * Hierarchy * Result)).

#[local] Abbreviation applyChange' :=
  (applyChange doCreateCollection doUpdateCases doCreateAttributes
     doUpdateAttributes doDeleteAttributes doResetCollections).
#[local] Abbreviation run' :=
  (run doCreateCollection doUpdateCases doCreateAttributes
     doUpdateAttributes doDeleteAttributes doResetCollections).

(** A parent key that does not resolve, for a collection with a parent
    collection: nothing is created. *)
Lemma doCreateCases_invalid_parent iChange dc cid coll pid props k :
  targetCollection (hierarchy dc) iChange = Some cid →
  _collectionClients (hierarchy dc) !! cid = Some coll →
  parentCollectionID coll = Some pid → pid ≠ 0 →
  properties iChange = Some props → parent props = ParentID k →
  getCaseByID (hierarchy dc) k = None →
  ∃ iChange',
    doCreateCases iChange dc =
      Some (iChange', DG_logWarn (WarnInvalidParent (ParentID k)) dc,
            {| success := false; caseIDs := Some []; caseID := None |}).
Proof.
  intros Ht Hc Hp Hpid Hprops Hpar Hk. unfold doCreateCases.
  rewrite Ht, Hprops. simpl. rewrite Hpar. simpl.
  rewrite Hc, Hp. destruct pid as [|pid]; [done|]. rewrite Hk.
  rewrite andb_false_r. eauto.
Qed.

(** C2.  A [createCases] (or [createCase]) change on a collection that has a
    parent collection, with a parent-case id that resolves to no existing,
    non-deleted case: the call returns, its result has [success: false] and
    an empty [caseIDs], the hierarchy (so every collection) is as before, a
    warning is logged, and the changes that follow are processed as
    usual. *)
Theorem createCases_invalid_parent fuel iChange dc cid coll pid props k rest :
  operation iChange = createCases ∨ operation iChange = createCase →
  isComplete iChange = false →
  targetCollection (hierarchy dc) iChange = Some cid →
  _collectionClients (hierarchy dc) !! cid = Some coll →
  parentCollectionID coll = Some pid → pid ≠ 0 →
  properties iChange = Some props → parent props = ParentID k →
  getCaseByID (hierarchy dc) k = None →
  ∃ dc' res,
    applyChange' fuel iChange dc = Some (dc', res) ∧
    success res = false ∧ caseIDs res = Some [] ∧ caseID res = None ∧
    hierarchy dc' = hierarchy dc ∧
    logged dc' = logged dc ++ [WarnInvalidParent (ParentID k)] ∧
    length (changes dc') = S (length (changes dc)) ∧
    run' fuel (Apply iChange :: rest) dc = run' fuel rest dc'.
Proof.
  intros Hop Hic Ht Hc Hp Hpid Hprops Hpar Hk.
  assert (∃ iChange' dc1,
            performChange doCreateCollection doUpdateCases doCreateAttributes
              doUpdateAttributes doDeleteAttributes doResetCollections fuel iChange dc
            = Some (iChange', dc1, {| success := false; caseIDs := Some []; caseID := None |})
            ∧ hierarchy dc1 = hierarchy dc
            ∧ logged dc1 = logged dc ++ [WarnInvalidParent (ParentID k)]
            ∧ changes dc1 = changes dc) as (iChange'&dc1&Hperf&Hh&Hl&Hch).
  { unfold performChange. rewrite Hic.
    destruct Hop as [-> | ->].
    - destruct (doCreateCases_invalid_parent iChange dc cid coll pid props k)
        as [c' ->]; try done.
      simpl. eexists _, _. split; [reflexivity|].
      unfold DG_dirtyCurrentDocument. by destruct (inProgress _).
    - destruct (doCreateCases_invalid_parent
                  (set_values (Some [VArray (default [] (values iChange))]) iChange)
                  dc cid coll pid props k) as [c' ->]; try done.
      simpl. eexists _, _. split; [reflexivity|].
      unfold DG_dirtyCurrentDocument. by destruct (inProgress _). }
  unfold run, step, applyChange. simpl. rewrite Hperf. simpl.
  eexists _, _. split; [reflexivity|]. simpl.
  rewrite length_app, Hch. simpl. repeat split; try done. lia.
Qed.

(** Creation under a parent given by an id that resolves. *)
Lemma doCreateCases_valid_parent iChange dc cid coll props k pc pcoll vectors :
  targetCollection (hierarchy dc) iChange = Some cid →
  _collectionClients (hierarchy dc) !! cid = Some coll →
  properties iChange = Some props → parent props = ParentID k → k ≠ 0 →
  getCaseByID (hierarchy dc) k = Some pc →
  _collectionClients (hierarchy dc) !! case_collection pc = Some pcoll →
  values iChange = Some (VArray <$> vectors) →
  ∃ iChange' h' res newIDs,
    doCreateCases iChange dc = Some (iChange', set_hierarchy h' dc, res) ∧
    caseIDs res = Some newIDs ∧
    Forall2 (λ id childValues,
               store (hierarchy dc) !! id = None ∧
               ∃ c, store h' !! id = Some c ∧
                    case_parent c = Some k ∧ case_collection c = cid ∧
                    _valuesMap c =
                      assignValues (attributeIDs coll)
                        ((getValue pc <$> attributeIDs pcoll) ++ childValues) ∅)
            newIDs vectors.
Proof.
  intros Ht Hc Hprops Hpar Hk0 Hk Hpc Hvals. unfold doCreateCases.
  rewrite Ht, Hprops, Hvals. cbn -[validateParent parentValuesOf foldl].
  rewrite Hpar. cbn -[validateParent parentValuesOf foldl].
  assert (validateParent dc (Some cid) (ParentID k) = Some (true, dc)) as ->.
  { unfold validateParent. rewrite Hc.
    destruct (parentCollectionID coll) as [[|pid]|]; try done. by rewrite Hk. }
  assert (negb (k =? 0) = true) as ->.
  { apply negb_true_iff, Nat.eqb_neq. done. }
  cbn -[foldl]. rewrite Hk, Hpc.
  destruct (createCases_loop cid props (getValue pc <$> attributeIDs pcoll) k
              (attributeIDs coll) (VArray <$> vectors) Hpar (hierarchy dc)
              {| success := false; caseIDs := Some []; caseID := None |}
              pc coll Hk Hc eq_refl) as (h'&newIDs&Hfold&_&Hall).
  rewrite Hfold.
  apply Forall2_fmap_r in Hall.
  destruct vectors as [|v vectors].
  - inversion Hall; subst. simpl. eexists _, h', _, []. repeat split; done.
  - destruct newIDs as [|n newIDs]; [inversion Hall|].
    simpl. eexists _, h', _, (n :: newIDs). split; [reflexivity|]. split; [done|].
    eapply Forall2_impl; [exact Hall|]. simpl. intros id childValues [Hn (c&?&?&?&_&?)].
    split; [done|]. exists c. done.
Qed.

(** C3.  A [createCases] change (or a [createCase] change, whose values make
    one vector) with a parent-case id that resolves: every case created has
    the parent as its parent and, assigned to the attributes of its
    collection in their order, the values of the parent case (in the order of
    the attribute ids of the parent's collection) followed by the child
    values that the caller supplied. *)
Theorem createCases_parent_values fuel iChange dc cid coll props k pc pcoll vectors :
  (operation iChange = createCases ∧ values iChange = Some (VArray <$> vectors)) ∨
  (operation iChange = createCase ∧ ∃ v, values iChange = Some v ∧ vectors = [v]) →
  isComplete iChange = false →
  targetCollection (hierarchy dc) iChange = Some cid →
  _collectionClients (hierarchy dc) !! cid = Some coll →
  properties iChange = Some props → parent props = ParentID k → k ≠ 0 →
  getCaseByID (hierarchy dc) k = Some pc →
  _collectionClients (hierarchy dc) !! case_collection pc = Some pcoll →
  ∃ dc' res newIDs,
    applyChange' fuel iChange dc = Some (dc', res) ∧
    caseIDs res = Some newIDs ∧
    Forall2 (λ id childValues,
               store (hierarchy dc) !! id = None ∧
               ∃ c, store (hierarchy dc') !! id = Some c ∧
                    case_parent c = Some k ∧ case_collection c = cid ∧
                    _valuesMap c =
                      assignValues (attributeIDs coll)
                        ((getValue pc <$> attributeIDs pcoll) ++ childValues) ∅)
            newIDs vectors.
Proof.
  intros Hop Hic Ht Hc Hprops Hpar Hk0 Hk Hpc.
  assert (Hdirty : ∀ d, hierarchy (DG_dirtyCurrentDocument d) = hierarchy d).
  { intros d. unfold DG_dirtyCurrentDocument. by destruct (inProgress _). }
  unfold applyChange, performChange. rewrite Hic.
  destruct Hop as [[-> Hvals] | [-> (v&Hvals&->)]].
  - destruct (doCreateCases_valid_parent iChange dc cid coll props k pc pcoll vectors)
      as (iChange'&h'&res&newIDs&->&Hids&Hall); try done.
    simpl. eexists _, _, newIDs. split; [reflexivity|]. split; [done|].
    simpl. by rewrite Hdirty.
  - destruct (doCreateCases_valid_parent
                (set_values (Some [VArray (default [] (values iChange))]) iChange)
                dc cid coll props k pc pcoll [v])
      as (iChange'&h'&res&newIDs&->&Hids&Hall); try done.
    { simpl. by rewrite Hvals. }
    simpl. rewrite Hids.
    inversion Hall as [|n ? l ? Hn Hrest]; subst. inversion Hrest; subst.
    eexists _, _, [n]. split; [reflexivity|]. split; [done|].
    simpl. rewrite Hdirty. simpl. by constructor.
Qed.

End CreateCases.

Lemma createCases_invalid_parent_witness :
  ∃ dc' res,
    applyChange idleHandler idleHandler idleHandler idleHandler idleHandler idleHandler 3
      (createCasesChange (Some (ByName "People")) (ParentID 999)
         [VArray [VString "Dee"]; VArray [VString "Eve"]])
      (contextOf oneFamily) = Some (dc', res) ∧
    success res = false ∧ caseIDs res = Some [] ∧ hierarchy dc' = oneFamily.
Proof.
  destruct (createCases_invalid_parent idleHandler idleHandler idleHandler idleHandler
              idleHandler idleHandler 3
              (createCasesChange (Some (ByName "People")) (ParentID 999)
                 [VArray [VString "Dee"]; VArray [VString "Eve"]])
              (contextOf oneFamily) 2
              {| parentCollectionID := Some 1; attributeIDs := [2; 3];
                 casesController := [11; 12; 13]; selection := ∅ |}
              1 {| parent := ParentID 999; index := None |} 999 [])
    as (dc'&res&H1&H2&H3&_&H4&_);
    [by left|reflexivity|vm_compute; reflexivity|vm_compute; reflexivity|reflexivity|lia
    |reflexivity|reflexivity|vm_compute; reflexivity|].
  exists dc', res. repeat split; assumption.
Defined.

Lemma createCases_parent_values_witness :
  ∃ dc' res newID c,
    applyChange idleHandler idleHandler idleHandler idleHandler idleHandler idleHandler 3
      (createCasesChange (Some (ByName "People")) (ParentID 10) [VArray [VString "Dee"]])
      (contextOf oneFamily) = Some (dc', res) ∧
    caseIDs res = Some [newID] ∧
    store (hierarchy dc') !! newID = Some c ∧
    _valuesMap c = assignValues [2; 3] [VString "Smith"; VString "Dee"] ∅.
Proof.
  destruct (createCases_parent_values idleHandler idleHandler idleHandler idleHandler
              idleHandler idleHandler 3
              (createCasesChange (Some (ByName "People")) (ParentID 10)
                 [VArray [VString "Dee"]])
              (contextOf oneFamily) 2
              {| parentCollectionID := Some 1; attributeIDs := [2; 3];
                 casesController := [11; 12; 13]; selection := ∅ |}
              {| parent := ParentID 10; index := None |} 10
              (mkCaseOf 10 1 None [11; 12; 13] [(1, VString "Smith")])
              {| parentCollectionID := None; attributeIDs := [1];
                 casesController := [10]; selection := ∅ |}
              [[VString "Dee"]])
    as (dc'&res&newIDs&H1&H2&H3);
    [by left|reflexivity|vm_compute; reflexivity|vm_compute; reflexivity|reflexivity
    |reflexivity|lia|vm_compute; reflexivity|vm_compute; reflexivity|].
  destruct newIDs as [|newID [|? ?]];
    [exfalso; inversion H3| |exfalso; inversion H3 as [|? ? ? ? ? Hrest]; inversion Hrest].
  apply Forall2_cons_1 in H3 as [(_&c&Hc&_&_&Hv) _].
  exists dc', res, newID, c. repeat split; assumption.
Defined.

(** ** Selection *)

Lemma forEachM_is_Some {A S} (f : A → S → option S) l s :
  (∀ x s, x ∈ l → is_Some (f x s)) → is_Some (forEachM f l s).
Proof.
  revert s. induction l as [|x l IH]; intros s H; simpl; [by eexists|].
  destruct (H x s) as [s' ->]; [by left|].
  apply IH. intros y s0 Hy. apply H. by right.
Qed.

Lemma forEachM_invariant {A S} (P : S → Prop) (f : A → S → option S) l s s' :
  (∀ x s s', x ∈ l → P s → f x s = Some s' → P s') →
  P s → forEachM f l s = Some s' → P s'.
Proof.
  revert s. induction l as [|x l IH]; intros s Hf Hs H; simpl in H; [by simplify_eq|].
  destruct (f x s) as [s1|] eqn:E; [|done].
  eapply IH; [|eapply Hf; [by left|exact Hs|exact E]|exact H].
  intros y s0 s0' Hy. apply Hf. by right.
Qed.

Lemma walkCaseAndChildren_is_Some changes rank h :
  acyclicStore (store h) rank →
  ∀ fuel k v, is_Some (store h !! k) → rank k < fuel →
              is_Some (walkCaseAndChildren changes fuel h k v).
Proof.
  intros Hacyc. induction fuel as [|fuel IH]; intros k v [c Hc] Hr; [lia|].
  simpl. rewrite Hc. destruct (getCollectionForCase h c); [|by eexists].
  apply forEachM_is_Some. intros j s Hj.
  destruct (Hacyc _ _ Hc _ Hj) as [Hjs Hjr]. apply IH; [done|lia].
Qed.

Lemma walkCases_is_Some fuel h iChange l :
  walkable h fuel l → is_Some (walkCases fuel h iChange l).
Proof.
  intros (rank&Hacyc&Hl). unfold walkCases.
  apply forEachM_is_Some. intros k s Hk. destruct (Hl _ Hk).
  destruct (select iChange); by eapply walkCaseAndChildren_is_Some.
Qed.

Lemma walkInv_initial changes h : walkInv changes h initialSelectVars.
Proof.
  split; [done|]. split.
  - intros cid L H. simpl in H. by rewrite lookup_empty in H.
  - simpl. split; [done|]. intros (cid&L&c&coll&H&_). by rewrite lookup_empty in H.
Qed.

Lemma walkInv_visit changes h v k c tCollection :
  walkInv changes h v →
  _collectionClients h !! case_collection c = Some tCollection →
  walkInv changes h
    (visitForSelection (case_collection c) k (changes (selection tCollection) k) v).
Proof.
  intros (Hext&Hmap&Hch) Hcl. unfold visitForSelection, addSelectionToCollectionMap.
  split; [done|]. simpl. split.
  - intros cid L. destruct (decide (cid = case_collection c)) as [->|Hne].
    + rewrite lookup_insert_eq. intros [= <-]. split; [|by eexists].
      by destruct (default [] _).
    + rewrite lookup_insert_ne by done. apply Hmap.
  - split.
    + intros [Ht|Hc]%orb_true_iff.
      * exists (case_collection c), (default [] (tCollectionSelectionMap v !! case_collection c) ++ [k]),
          k, tCollection.
        rewrite lookup_insert_eq. repeat split; try done.
        apply elem_of_app. right. by apply list_elem_of_singleton.
      * apply Hch in Hc as (cid&L&c0&coll&HL&Hin&Hcoll&Ht).
        destruct (decide (cid = case_collection c)) as [->|Hne].
        -- eexists (case_collection c), _, c0, coll. rewrite lookup_insert_eq.
           repeat split; try done. rewrite HL. simpl. apply elem_of_app. by left.
        -- exists cid, L, c0, coll. rewrite lookup_insert_ne by done. done.
    + intros (cid&L&c0&coll&HL&Hin&Hcoll&Ht). apply orb_true_iff.
      destruct (decide (cid = case_collection c)) as [->|Hne].
      * rewrite lookup_insert_eq in HL. simplify_eq.
        apply elem_of_app in Hin as [Hin|Hin%list_elem_of_singleton].
        -- right. apply Hch.
           destruct (tCollectionSelectionMap v !! case_collection c) as [L0|] eqn:E;
             [|by apply elem_of_nil in Hin].
           eexists (case_collection c), L0, c0, _. repeat split; eauto.
        -- left. by subst.
      * rewrite lookup_insert_ne in HL by done. right. apply Hch.
        by exists cid, L, c0, coll.
Qed.

Lemma walkCaseAndChildren_inv changes h fuel :
  ∀ k v v', walkInv changes h v →
            walkCaseAndChildren changes fuel h k v = Some v' → walkInv changes h v'.
Proof.
  induction fuel as [|fuel IH]; intros k v v' Hinv H; [done|].
  simpl in H. destruct (store h !! k) as [c|]; [|done].
  destruct (getCollectionForCase h c) as [tCollection|] eqn:Hcl; [|by simplify_eq].
  eapply (forEachM_invariant (walkInv changes h)); [| |exact H].
  - intros j s s' _. apply IH.
  - by apply walkInv_visit.
Qed.

Lemma walkCases_inv fuel h iChange l v :
  walkCases fuel h iChange l = Some v →
  walkInv (if select iChange then selectChanges else deselectChanges) h v.
Proof.
  unfold walkCases. intros H.
  eapply (forEachM_invariant (walkInv _ h)); [|apply walkInv_initial|exact H].
  intros k s s' _ Hs Hw. destruct (select iChange);
    by eapply walkCaseAndChildren_inv.
Qed.

(** [doSelectByCollection] when no collection is marked yet: each
    collection of the map is selected with the caller's [extend] and
    marked. *)
Lemma doSelectByCollection_spec tExtend selMap clients :
  snd (doSelectByCollection tExtend selMap (clients, ∅)) = dom selMap ∧
  ∀ cid, fst (doSelectByCollection tExtend selMap (clients, ∅)) !! cid =
         match selMap !! cid with
         | Some L => selectObjects L tExtend <$> clients !! cid
         | None => clients !! cid
         end.
Proof.
  unfold doSelectByCollection.
  apply (map_fold_weak_ind
           (λ r m, snd r = dom m ∧
                   ∀ cid, fst r !! cid =
                          match m !! cid with
                          | Some L => selectObjects L tExtend <$> clients !! cid
                          | None => clients !! cid
                          end)).
  - simpl. split; [by rewrite dom_empty_L|]. intros cid. by rewrite lookup_empty.
  - intros i L m [cl ext] Hi [Hdom Hlook]. simpl in *.
    unfold extendForCollection. rewrite Hdom.
    destruct (decide (i ∈ dom m)) as [Hin|_].
    { apply elem_of_dom in Hin as [? ?]. congruence. }
    simpl. split; [by rewrite dom_insert_L|].
    intros cid. destruct (decide (cid = i)) as [->|Hne].
    + rewrite lookup_alter_eq, lookup_insert_eq, Hlook, Hi. done.
    + rewrite lookup_alter_ne, lookup_insert_ne by done. apply Hlook.
Qed.

Lemma doDeselectByCollection_spec selMap clients cid :
  doDeselectByCollection selMap clients !! cid =
    match selMap !! cid with
    | Some L => deselectObjects L <$> clients !! cid
    | None => clients !! cid
    end.
Proof.
  unfold doDeselectByCollection. revert cid.
  apply (map_fold_weak_ind
           (λ r m, ∀ cid, r !! cid =
                          match m !! cid with
                          | Some L => deselectObjects L <$> clients !! cid
                          | None => clients !! cid
                          end)).
  - intros cid. by rewrite lookup_empty.
  - intros i L m cl Hi Hlook cid. destruct (decide (cid = i)) as [->|Hne].
    + rewrite lookup_alter_eq, lookup_insert_eq, Hlook, Hi. done.
    + rewrite lookup_alter_ne, lookup_insert_ne by done. apply Hlook.
Qed.

Lemma deselectStep_cases tExtend cl ext i nm :
  deselectStep tExtend (cl, ext) (i, nm) =
    if decide (is_Some (cl !! i) ∧ i ≠ 0 ∧ i ∉ ext)
    then (if tExtend then cl else alter selectObject_none i cl, {[i]} ∪ ext)
    else (cl, ext).
Proof.
  unfold deselectStep, extendForCollection. simpl.
  destruct (cl !! i) as [coll|] eqn:Hi.
  2:{ rewrite decide_False; [done|]. by intros ([? ?]&_). }
  destruct (i =? 0) eqn:Hi0.
  { apply Nat.eqb_eq in Hi0. rewrite decide_False; [done|]. by intros (_&?&_). }
  apply Nat.eqb_neq in Hi0.
  destruct (decide (i ∈ ext)).
  { rewrite decide_False; [done|]. by intros (_&_&?). }
  rewrite decide_True by (split; [by eexists|done]).
  by destruct tExtend.
Qed.

Lemma deselectOthers_spec tExtend colls :
  ∀ cl ext cid,
    (deselectedByPass tExtend colls ext cid →
     fst (deselectOthers tExtend colls (cl, ext)) !! cid = selectObject_none <$> cl !! cid) ∧
    (¬ deselectedByPass tExtend colls ext cid →
     fst (deselectOthers tExtend colls (cl, ext)) !! cid = cl !! cid).
Proof.
  unfold deselectedByPass.
  induction colls as [|[i nm] colls IH]; intros cl ext cid.
  { split; [|done]. intros (_&_&_&Hin). by apply elem_of_nil in Hin. }
  change (deselectOthers tExtend ((i, nm) :: colls) (cl, ext))
    with (deselectOthers tExtend colls (deselectStep tExtend (cl, ext) (i, nm))).
  rewrite deselectStep_cases. rewrite fmap_cons. simpl.
  destruct (decide (is_Some (cl !! i) ∧ i ≠ 0 ∧ i ∉ ext)) as [(Hsome&Hi0&Hiext)|Hno].
  - destruct tExtend.
    + destruct (IH cl ({[i]} ∪ ext) cid) as [_ IH2]. split; [by intros (?&_)|].
      intros _. apply IH2. by intros (?&_).
    + destruct (IH (alter selectObject_none i cl) ({[i]} ∪ ext) cid) as [IH1 IH2].
      destruct (decide (cid = i)) as [->|Hne].
      * split; [|intros Hn; exfalso; apply Hn; repeat split; try done; by left].
        intros _. rewrite IH2 by (intros (_&_&Hn&_); apply Hn; set_solver).
        by rewrite lookup_alter_eq.
      * split.
        -- intros (_&Hc0&Hcext&[->|Hin]%elem_of_cons); [done|].
           rewrite IH1 by (repeat split; try done; set_solver).
           by rewrite lookup_alter_ne.
        -- intros Hn. rewrite IH2; [by rewrite lookup_alter_ne|].
           intros (_&?&Hx&?). apply Hn. repeat split; try done; [set_solver|by right].
  - destruct (IH cl ext cid) as [IH1 IH2]. split.
    + intros (?&?&?&[Heq|Hin]%elem_of_cons); [subst cid|by apply IH1].
      destruct (cl !! i) as [coll|] eqn:Hi.
      * exfalso. apply Hno. split; [by eexists|done].
      * destruct (decide (i ∈ colls.*1)).
        -- by apply IH1.
        -- apply IH2. tauto.
    + intros Hn. apply IH2. intros (?&?&?&?). apply Hn. repeat split; try done. by right.
Qed.

Lemma applySelection_nothing h iChange :
  applySelection h iChange initialSelectVars = (_collectionClients h, ∅).
Proof.
  unfold applySelection, doSelectByCollection, doDeselectByCollection. simpl.
  destruct (select iChange); by rewrite map_fold_empty.
Qed.

(** [doSelectCases] in one equation: without cases to walk it behaves as on
    an empty array of cases. *)
Lemma doSelectCases_unfold fuel iChange dc tCollection :
  selectCollection (hierarchy dc) iChange = Some tCollection →
  doSelectCases fuel iChange dc =
    match walkCases fuel (hierarchy dc) iChange
            (default [] (tCasesOf (hierarchy dc) iChange tCollection)) with
    | Some v =>
        Some (iChange,
              finishSelection iChange dc (applySelection (hierarchy dc) iChange v)
                (isSelectionChanged v),
              {| success := true; caseIDs := None; caseID := None |})
    | None => None
    end.
Proof.
  intros Hc. unfold doSelectCases. rewrite Hc.
  destruct (tCasesOf _ _ _) as [l|]; [done|].
  simpl. unfold walkCases. simpl. by rewrite applySelection_nothing.
Qed.

(** The clients after [doSelectCases], collection by collection. *)
Lemma finishSelection_clients iChange dc cl ext changed cid :
  _collectionClients (hierarchy (finishSelection iChange dc (cl, ext) changed)) !! cid =
    if decide (changed = true ∧
               deselectedByPass (extend iChange) (collections (hierarchy dc)) ext cid)
    then selectObject_none <$> cl !! cid
    else cl !! cid.
Proof.
  unfold finishSelection. destruct changed; simpl.
  - destruct (deselectOthers_spec (extend iChange) (collections (hierarchy dc)) cl ext cid)
      as [H1 H2].
    destruct (decide _) as [[_ Hd]|Hn]; [by apply H1|]. apply H2. tauto.
  - done.
Qed.

Lemma finishSelection_count iChange dc s changed :
  selectionChangeCount (finishSelection iChange dc s changed) =
    if changed then S (selectionChangeCount dc) else selectionChangeCount dc.
Proof. unfold finishSelection. by destruct changed. Qed.

Lemma selectObjects_same L ext coll :
  L ≠ [] → (∀ c, c ∈ L → selectChanges (selection coll) c = false) →
  selectObjects L ext coll = coll.
Proof.
  intros HL Hall.
  assert (∀ c, c ∈ L → c ∈ selection coll ∧ size (selection coll) ≤ 1) as Hall'.
  { intros c Hc. specialize (Hall c Hc). unfold selectChanges in Hall.
    apply orb_false_iff in Hall as [H1 H2].
    apply bool_decide_eq_false in H1, H2. split; [|lia].
    destruct (decide (c ∈ selection coll)); [done|]. by exfalso. }
  assert (list_to_set L = selection coll) as Heq.
  { apply set_eq. intros y. rewrite elem_of_list_to_set. split.
    - intros Hy. by apply Hall'.
    - intros Hy. destruct L as [|x0 L]; [done|].
      destruct (Hall' x0) as [Hx0 Hsz]; [by left|].
      assert (size (selection coll) = 1) as Hsz1.
      { destruct (size (selection coll)) as [|[|n]] eqn:E; [|done|lia].
        apply size_empty_inv in E. exfalso. revert Hx0. rewrite E. apply not_elem_of_empty. }
      rewrite (size_singleton_inv _ _ _ Hsz1 Hy Hx0). by left. }
  unfold selectObjects. rewrite Heq.
  assert (selection coll ∪ selection coll = selection coll) as -> by set_solver.
  destruct coll, ext; done.
Qed.

Lemma deselectObjects_same L coll :
  (∀ c, c ∈ L → deselectChanges (selection coll) c = false) →
  deselectObjects L coll = coll.
Proof.
  intros Hall. unfold deselectObjects.
  assert (selection coll ∖ list_to_set L = selection coll) as ->.
  { apply set_eq. intros y. rewrite elem_of_difference, elem_of_list_to_set.
    split; [tauto|]. intros Hy. split; [done|]. intros HyL.
    specialize (Hall y HyL). unfold deselectChanges in Hall.
    by apply bool_decide_eq_false in Hall. }
  by destruct coll.
Qed.

(** Without a change detected, the selection of every collection is as
    before. *)
Lemma applySelection_unchanged h iChange v :
  walkInv (if select iChange then selectChanges else deselectChanges) h v →
  isSelectionChanged v = false →
  fst (applySelection h iChange v) = _collectionClients h.
Proof.
  intros (Hext&Hmap&Hch) Hfalse.
  assert (∀ cid L c coll, tCollectionSelectionMap v !! cid = Some L → c ∈ L →
            _collectionClients h !! cid = Some coll →
            (if select iChange then selectChanges else deselectChanges) (selection coll) c
            = false) as Hno.
  { intros cid L c coll HL Hc Hcoll.
    destruct ((if select iChange then selectChanges else deselectChanges) (selection coll) c)
      eqn:E; [|done].
    assert (isSelectionChanged v = true) by (apply Hch; by exists cid, L, c, coll).
    congruence. }
  apply map_eq. intros cid. unfold applySelection.
  destruct (select iChange).
  - rewrite Hext.
    destruct (doSelectByCollection_spec (extend iChange) (tCollectionSelectionMap v)
                (_collectionClients h)) as [_ ->].
    destruct (tCollectionSelectionMap v !! cid) as [L|] eqn:HL; [|done].
    destruct (_collectionClients h !! cid) as [coll|] eqn:Hcoll; [|done].
    simpl. f_equal. apply selectObjects_same; [by apply (Hmap cid)|].
    intros c Hc. by eapply Hno.
  - simpl. rewrite doDeselectByCollection_spec.
    destruct (tCollectionSelectionMap v !! cid) as [L|] eqn:HL; [|done].
    destruct (_collectionClients h !! cid) as [coll|] eqn:Hcoll; [|done].
    simpl. f_equal. apply deselectObjects_same. intros c Hc. by eapply Hno.
Qed.

(** C9.  [doSelectCases] reports success whenever it returns, and it
    returns for every change whose collection is a client or absent and
    whose cases can be walked: with no cases, with no collection to take
    them from, or with no change of the selection alike. *)
Theorem doSelectCases_succeeds fuel iChange dc :
  (∀ iChange' dc' res,
     doSelectCases fuel iChange dc = Some (iChange', dc', res) → success res = true) ∧
  (∀ tCollection,
     selectCollection (hierarchy dc) iChange = Some tCollection →
     walkable (hierarchy dc) fuel
       (default [] (tCasesOf (hierarchy dc) iChange tCollection)) →
     ∃ dc', doSelectCases fuel iChange dc =
              Some (iChange, dc', {| success := true; caseIDs := None; caseID := None |})).
Proof.
  split.
  - intros iChange' dc' res H. unfold doSelectCases in H.
    repeat (case_match; simplify_eq); done.
  - intros tCollection Hc Hw. rewrite (doSelectCases_unfold _ _ _ _ Hc).
    destruct (walkCases_is_Some fuel (hierarchy dc) iChange _ Hw) as [v ->].
    by eexists.
Qed.

(** *** The cases that are walked *)

Lemma forEachM_union {A S X} (f : A → S → option S) (member : S → X → Prop)
    (R : A → X → Prop) l :
  (∀ x s s', x ∈ l → f x s = Some s' → ∀ y, member s' y ↔ member s y ∨ R x y) →
  ∀ s s', forEachM f l s = Some s' →
          ∀ y, member s' y ↔ member s y ∨ ∃ x, x ∈ l ∧ R x y.
Proof.
  induction l as [|a l IH]; intros Hf s s' H y; simpl in H.
  { simplify_eq. split; [by left|]. intros [?|(x&Hx&_)]; [done|by apply elem_of_nil in Hx]. }
  destruct (f a s) as [s1|] eqn:E; [|done].
  rewrite (IH (λ x s0 s0' Hx, Hf x s0 s0' (list_elem_of_further _ _ _ Hx)) s1 s' H y).
  rewrite (Hf a s s1 (list_elem_of_here _ _) E y). split.
  - intros [[?|?]|(x&Hx&?)]; [by left|right; exists a|right; exists x];
      (split; [|done]); [by left|by right].
  - intros [?|(x&[->|Hx]%elem_of_cons&?)]; [left; by left|left; by right|].
    right. by exists x.
Qed.

Lemma inSelectionMap_visit_iff v cid k cid' k' b :
  inSelectionMap (visitForSelection cid' k' b v) cid k ↔
  inSelectionMap v cid k ∨ (cid = cid' ∧ k = k').
Proof.
  unfold inSelectionMap, visitForSelection, addSelectionToCollectionMap. simpl.
  destruct (decide (cid = cid')) as [->|Hne].
  - rewrite lookup_insert_eq. split.
    + intros (L&[= <-]&[Hin|Hin%list_elem_of_singleton]%elem_of_app); [|by right].
      left. destruct (tCollectionSelectionMap v !! cid') as [L0|]; [by exists L0|].
      by apply elem_of_nil in Hin.
    + intros [(L&HL&Hin)|[_ ->]]; eexists; (split; [done|]); rewrite ?HL; simpl;
        apply elem_of_app; [by left|right; by apply list_elem_of_singleton].
  - rewrite lookup_insert_ne by done. split; [by left|]. by intros [?|[? _]].
Qed.

Lemma walkedFrom_inv h k0 k :
  walkedFrom h k0 k ↔
  ∃ c, store h !! k0 = Some c ∧ is_Some (_collectionClients h !! case_collection c) ∧
       (k = k0 ∨ ∃ j, j ∈ children c ∧ walkedFrom h j k).
Proof.
  split.
  - intros H. inversion H as [k1 c Hc Hcl|k1 c j d Hc Hcl Hj Hw]; subst;
      exists c; (split; [done|]); (split; [done|]); [by left|right; by exists j].
  - intros (c&Hc&Hcl&[->|(j&Hj&Hw)]); [by eapply walkedFrom_self|by eapply walkedFrom_child].
Qed.

(** A walked case is in the store, and its collection is a client. *)
Lemma walkedFrom_client h k0 k :
  walkedFrom h k0 k →
  ∃ c coll, store h !! k = Some c ∧ _collectionClients h !! case_collection c = Some coll.
Proof.
  induction 1 as [k c Hc [coll Hcl]|]; [by exists c, coll|done].
Qed.

(** What one call of [selectCaseAndChildren] or [deselectCaseAndChildren]
    adds to the selection map: the cases walked from its case, each under
    its own collection. *)
Lemma walkCaseAndChildren_walked changes h fuel :
  ∀ k0 v v',
    walkCaseAndChildren changes fuel h k0 v = Some v' →
    ∀ p, inSelectionMap v' p.1 p.2 ↔
         inSelectionMap v p.1 p.2 ∨
         (walkedFrom h k0 p.2 ∧ ∃ c, store h !! p.2 = Some c ∧ case_collection c = p.1).
Proof.
  induction fuel as [|fuel IH]; intros k0 v v' H [cid k]; [done|]. simpl.
  simpl in H. destruct (store h !! k0) as [c|] eqn:Hc.
  2:{ done. }
  unfold getCollectionForCase, getCollectionByID in H.
  destruct (_collectionClients h !! case_collection c) as [tCollection|] eqn:Hcl.
  2:{ simplify_eq. split; [by left|]. intros [?|[Hw _]]; [done|].
      apply walkedFrom_inv in Hw as (c'&Hc'&[? Hcl']&_). simplify_eq. }
  rewrite (forEachM_union (walkCaseAndChildren changes fuel h)
             (λ v p, inSelectionMap v p.1 p.2)
             (λ j p, walkedFrom h j p.2 ∧ ∃ c, store h !! p.2 = Some c ∧ case_collection c = p.1)
             (children c) (λ j s s' _ Hs, IH j s s' Hs) _ _ H (cid, k)). simpl.
  rewrite inSelectionMap_visit_iff, (walkedFrom_inv h k0 k). split.
  - intros [[?|[-> ->]]|(j&Hj&Hw&Hk)]; [by left|right|right].
    + split; [|by exists c]. exists c. split; [done|]. split; [by eexists|by left].
    + split; [|done]. exists c. split; [done|]. split; [by eexists|]. right. by exists j.
  - intros [?|[(c'&Hc'&_&[->|(j&Hj&Hw)]) (ck&Hck&Hcid)]]; [left; by left| |];
      simplify_eq.
    + left. by right.
    + right. exists j. split; [done|]. split; [done|]. by exists ck.
Qed.

(** The selection map after the walk holds, for each collection, exactly
    the cases of that collection that are walked from the cases of the
    change. *)
Lemma walkCases_walked fuel h iChange l v :
  walkCases fuel h iChange l = Some v →
  ∀ cid k, inSelectionMap v cid k ↔ walkedCase h l cid k.
Proof.
  unfold walkCases. intros H cid k.
  assert (Hstep : ∀ j s s',
            j ∈ l →
            (if select iChange then selectCaseAndChildren else deselectCaseAndChildren)
              fuel h j s = Some s' →
            ∀ p : nat * nat,
              inSelectionMap s' p.1 p.2 ↔
              inSelectionMap s p.1 p.2 ∨
              (walkedFrom h j p.2 ∧ ∃ c, store h !! p.2 = Some c ∧ case_collection c = p.1)).
  { intros j s s' _ Hs. destruct (select iChange); by eapply walkCaseAndChildren_walked. }
  rewrite (forEachM_union _ (λ v p, inSelectionMap v p.1 p.2) _ l Hstep _ _ H (cid, k)).
  simpl. unfold walkedCase. split.
  - intros [(L&HL&_)|(k0&Hk0&Hw&c&Hc&Hcid)]; [simpl in HL; by rewrite lookup_empty in HL|].
    by exists k0, c.
  - intros (k0&c&Hk0&Hw&Hc&Hcid). right. exists k0. split; [done|]. split; [done|].
    by exists c.
Qed.

(** [isSelectionChanged] after the walk. *)
Lemma walkCases_changed fuel h iChange l v :
  walkCases fuel h iChange l = Some v →
  isSelectionChanged v = true ↔ changeDetected h (select iChange) l.
Proof.
  intros Hv. destruct (walkCases_inv _ _ _ _ _ Hv) as (_&_&Hch). rewrite Hch.
  unfold changeDetected. split.
  - intros (cid&L&k&coll&HL&Hin&Hcoll&Ht).
    destruct (proj1 (walkCases_walked _ _ _ _ _ Hv cid k)) as (k0&c&Hk0&Hw&Hc&<-);
      [by exists L|].
    exists k0, k, c, coll. repeat (split; [done|]).
    destruct (select iChange).
    + apply orb_true_iff in Ht as [Ht|Ht]; apply bool_decide_eq_true in Ht; tauto.
    + by apply bool_decide_eq_true in Ht.
  - intros (k0&k&c&coll&Hk0&Hw&Hc&Hcoll&Ht).
    destruct (proj2 (walkCases_walked _ _ _ _ _ Hv (case_collection c) k)) as (L&HL&Hin);
      [by exists k0, c|].
    exists (case_collection c), L, k, coll. repeat (split; [done|]).
    destruct (select iChange).
    + apply orb_true_iff. destruct Ht as [Ht|Ht]; [left|right]; by apply bool_decide_eq_true.
    + by apply bool_decide_eq_true.
Qed.

(** The selection of one collection after [doSelectCases]. *)
Lemma doSelectCases_selection fuel iChange dc tCollection :
  selectCollection (hierarchy dc) iChange = Some tCollection →
  walkable (hierarchy dc) fuel (default [] (tCasesOf (hierarchy dc) iChange tCollection)) →
  ∃ dc',
    doSelectCases fuel iChange dc =
      Some (iChange, dc', {| success := true; caseIDs := None; caseID := None |}) ∧
    (selectionChangeCount dc' = S (selectionChangeCount dc) ∧
     changeDetected (hierarchy dc) (select iChange)
       (default [] (tCasesOf (hierarchy dc) iChange tCollection))
     ∨
     selectionChangeCount dc' = selectionChangeCount dc ∧
     _collectionClients (hierarchy dc') = _collectionClients (hierarchy dc) ∧
     ¬ changeDetected (hierarchy dc) (select iChange)
         (default [] (tCasesOf (hierarchy dc) iChange tCollection))) ∧
    ∀ cid coll,
      _collectionClients (hierarchy dc) !! cid = Some coll →
      ∃ coll',
        _collectionClients (hierarchy dc') !! cid = Some coll' ∧
        ∀ k, k ∈ selection coll' ↔
             if select iChange then
               (walkedCase (hierarchy dc)
                  (default [] (tCasesOf (hierarchy dc) iChange tCollection)) cid k ∨
                (extend iChange = true ∨
                 ¬ (∃ k', walkedCase (hierarchy dc)
                            (default [] (tCasesOf (hierarchy dc) iChange tCollection)) cid k')) ∧
                k ∈ selection coll) ∧
               ((∃ k', walkedCase (hierarchy dc)
                         (default [] (tCasesOf (hierarchy dc) iChange tCollection)) cid k') ∨
                ¬ clearedByPass (hierarchy dc) iChange
                    (default [] (tCasesOf (hierarchy dc) iChange tCollection)) cid)
             else
               k ∈ selection coll ∧
               ¬ walkedCase (hierarchy dc)
                   (default [] (tCasesOf (hierarchy dc) iChange tCollection)) cid k ∧
               ¬ clearedByPass (hierarchy dc) iChange
                   (default [] (tCasesOf (hierarchy dc) iChange tCollection)) cid.
Proof.
  intros Hc Hw. rewrite (doSelectCases_unfold _ _ _ _ Hc).
  set (l := default [] (tCasesOf (hierarchy dc) iChange tCollection)) in *.
  destruct (walkCases_is_Some fuel (hierarchy dc) iChange _ Hw) as [v Hv].
  rewrite Hv. eexists. split; [reflexivity|].
  pose proof (walkCases_inv _ _ _ _ _ Hv) as Hinv.
  pose proof (walkCases_walked _ _ _ _ _ Hv) as Hwalked.
  pose proof (walkCases_changed _ _ _ _ _ Hv) as Hchanged.
  assert (Hmap : ∀ cid, match tCollectionSelectionMap v !! cid with
                        | Some L => (∃ k', walkedCase (hierarchy dc) l cid k') ∧
                                    ∀ k, k ∈ L ↔ walkedCase (hierarchy dc) l cid k
                        | None => ∀ k, ¬ walkedCase (hierarchy dc) l cid k
                        end).
  { intros cid. destruct (tCollectionSelectionMap v !! cid) as [L|] eqn:HL.
    - assert (∀ k, k ∈ L ↔ walkedCase (hierarchy dc) l cid k) as HLk.
      { intros k. rewrite <- Hwalked. unfold inSelectionMap. rewrite HL. split.
        - intros ?. by exists L.
        - by intros (?&[= <-]&?). }
      split; [|done]. destruct Hinv as (_&Hne&_). destruct (Hne _ _ HL) as [HLne _].
      destruct L as [|k' L]; [done|]. exists k'. apply HLk. by left.
    - intros k (L&HL'&_)%Hwalked. congruence. }
  split.
  - rewrite finishSelection_count. destruct (isSelectionChanged v) eqn:E.
    + left. split; [done|]. by apply Hchanged.
    + right. split; [done|]. split.
      * destruct (applySelection (hierarchy dc) iChange v) as [cl1 ext1] eqn:Happ.
        apply map_eq. intros cid. rewrite finishSelection_clients.
        rewrite decide_False by (intros [? _]; congruence).
        pose proof (applySelection_unchanged _ _ _ Hinv E) as Hsame.
        rewrite Happ in Hsame. simpl in Hsame. by subst.
      * intros Hd%Hchanged. congruence.
  - intros cid coll Hcoll. specialize (Hmap cid).
    destruct Hinv as (Hext&_&_).
    unfold applySelection. rewrite Hext. destruct (select iChange) eqn:Hsel.
    + destruct (doSelectByCollection_spec (extend iChange) (tCollectionSelectionMap v)
                  (_collectionClients (hierarchy dc))) as [Hs2 Hs1].
      destruct (doSelectByCollection _ _ _) as [cl1 ext1]. simpl in Hs1, Hs2. subst ext1.
      rewrite finishSelection_clients, Hs1.
      destruct (tCollectionSelectionMap v !! cid) as [L|] eqn:HL.
      * destruct Hmap as [Hsome HLk]. rewrite decide_False.
        2:{ intros (_&_&_&Hn&_). apply Hn, elem_of_dom. by eexists. }
        rewrite Hcoll. eexists. split; [reflexivity|]. intros k. simpl.
        destruct (extend iChange); rewrite ?elem_of_union, elem_of_list_to_set, HLk.
        -- pose proof (eq_refl true). tauto.
        -- assert (false ≠ true) by done. tauto.
      * rewrite Hcoll.
        assert (HnE : ¬ ∃ k', walkedCase (hierarchy dc) l cid k')
          by (intros (k'&Hk'); by destruct (Hmap k')).
        unfold clearedByPass, deselectedByPass. rewrite Hsel.
        destruct (decide _) as [(Hch&Hex&Hc0&_&Hin)|Hn]; eexists; (split; [reflexivity|]);
          intros k; simpl; specialize (Hmap k).
        -- apply Hchanged in Hch. rewrite elem_of_empty. tauto.
        -- assert (¬ (changeDetected (hierarchy dc) true l ∧ extend iChange = false ∧
                      cid ≠ 0 ∧ cid ∈ (collections (hierarchy dc)).*1)) as Hn'.
           { intros (Hd%Hchanged&?&?&?). apply Hn. repeat split; try done.
             by apply not_elem_of_dom. }
           tauto.
    + simpl. rewrite finishSelection_clients, doDeselectByCollection_spec.
      unfold clearedByPass, deselectedByPass. rewrite Hsel.
      destruct (decide _) as [(Hch&Hex&Hc0&_&Hin)|Hn].
      * apply Hchanged in Hch.
        destruct (tCollectionSelectionMap v !! cid); rewrite Hcoll; eexists;
          (split; [reflexivity|]); intros k; simpl; rewrite elem_of_empty; tauto.
      * assert (¬ (changeDetected (hierarchy dc) false l ∧ extend iChange = false ∧
                   cid ≠ 0 ∧ cid ∈ (collections (hierarchy dc)).*1)) as Hn'.
        { intros (Hd%Hchanged&?&?&?). apply Hn. repeat split; done. }
        destruct (tCollectionSelectionMap v !! cid) as [L|]; rewrite Hcoll; eexists;
          (split; [reflexivity|]); intros k; simpl.
        -- destruct Hmap as [_ HLk].
           rewrite elem_of_difference, elem_of_list_to_set, HLk. tauto.
        -- specialize (Hmap k). tauto.
Qed.
Lemma sole_selected (S : gset nat) k :
  ¬ (k ∉ S ∨ 1 < size S) ↔ S = {[k]}.
Proof.
  split.
  - intros Hn. assert (k ∈ S) as Hk by (destruct (decide (k ∈ S)); tauto).
    assert (size S = 1) as Hsz.
    { destruct (size S) as [|[|n]] eqn:E; [|done|exfalso; apply Hn; right; lia].
      apply size_empty_inv in E. exfalso. revert Hk. rewrite E. apply not_elem_of_empty. }
    apply set_eq. intros y. rewrite elem_of_singleton. split.
    + intros Hy. by apply (size_singleton_inv S).
    + by intros ->.
  - intros -> [Hn|Hn].
    + apply Hn. by apply elem_of_singleton.
    + rewrite size_singleton in Hn. lia.
Qed.

(** C4, as the code has it.  The walked cases are the cases of the change
    and their descendants, [walkedFrom].  When cases are selected: a
    collection that holds walked cases gets exactly them as its selection,
    added to its old selection exactly when the caller extends, and the pass
    over all collections never clears it; so every walked case is selected
    afterwards, whatever the collections of the cases of the change.  A
    collection that holds no walked case is cleared when a change has been
    detected, the caller does not extend and the collection is one of the
    context with an id other than 0, and keeps its selection otherwise.
    When cases are deselected: every collection loses its walked cases, and
    is cleared altogether under the same condition, whether it holds walked
    cases or not. *)
Theorem selectCases_extend fuel iChange dc tCollection :
  selectCollection (hierarchy dc) iChange = Some tCollection →
  walkable (hierarchy dc) fuel (default [] (tCasesOf (hierarchy dc) iChange tCollection)) →
  ∃ dc',
    doSelectCases fuel iChange dc =
      Some (iChange, dc', {| success := true; caseIDs := None; caseID := None |}) ∧
    (∀ cid coll,
       _collectionClients (hierarchy dc) !! cid = Some coll →
       ∃ coll',
         _collectionClients (hierarchy dc') !! cid = Some coll' ∧
         (select iChange = true →
          (∃ k', walkedCase (hierarchy dc)
                   (default [] (tCasesOf (hierarchy dc) iChange tCollection)) cid k') →
          ∀ k, k ∈ selection coll' ↔
               walkedCase (hierarchy dc)
                 (default [] (tCasesOf (hierarchy dc) iChange tCollection)) cid k ∨
               (extend iChange = true ∧ k ∈ selection coll)) ∧
         (select iChange = true →
          ¬ (∃ k', walkedCase (hierarchy dc)
                     (default [] (tCasesOf (hierarchy dc) iChange tCollection)) cid k') →
          ∀ k, k ∈ selection coll' ↔
               k ∈ selection coll ∧
               ¬ clearedByPass (hierarchy dc) iChange
                   (default [] (tCasesOf (hierarchy dc) iChange tCollection)) cid) ∧
         (select iChange = false →
          ∀ k, k ∈ selection coll' ↔
               k ∈ selection coll ∧
               ¬ walkedCase (hierarchy dc)
                   (default [] (tCasesOf (hierarchy dc) iChange tCollection)) cid k ∧
               ¬ clearedByPass (hierarchy dc) iChange
                   (default [] (tCasesOf (hierarchy dc) iChange tCollection)) cid)) ∧
    (select iChange = true →
     ∀ k0 k c,
       k0 ∈ default [] (tCasesOf (hierarchy dc) iChange tCollection) →
       walkedFrom (hierarchy dc) k0 k → store (hierarchy dc) !! k = Some c →
       ∃ coll', _collectionClients (hierarchy dc') !! case_collection c = Some coll' ∧
                k ∈ selection coll').
Proof.
  intros Hc Hw.
  destruct (doSelectCases_selection fuel iChange dc tCollection Hc Hw) as (dc'&Hdo&_&Hsel).
  exists dc'. split; [done|]. split.
  - intros cid coll Hcoll. destruct (Hsel cid coll Hcoll) as (coll'&Hcoll'&Hk).
    exists coll'. split; [done|]. split; [|split].
    + intros Hs Hsome k. rewrite (Hk k), Hs. tauto.
    + intros Hs Hnone k. rewrite (Hk k), Hs.
      assert (¬ walkedCase (hierarchy dc)
                  (default [] (tCasesOf (hierarchy dc) iChange tCollection)) cid k)
        by (intros ?; apply Hnone; by exists k).
      tauto.
    + intros Hs k. by rewrite (Hk k), Hs.
  - intros Hs k0 k c Hk0 Hwalked Hst.
    destruct (walkedFrom_client _ _ _ Hwalked) as (c'&coll&Hc'&Hcoll).
    rewrite Hst in Hc'. injection Hc' as <-.
    destruct (Hsel _ coll Hcoll) as (coll'&Hcoll'&Hk).
    exists coll'. split; [done|]. rewrite (Hk k), Hs.
    assert (walkedCase (hierarchy dc)
              (default [] (tCasesOf (hierarchy dc) iChange tCollection))
              (case_collection c) k) as Hwc by (by exists k0, c).
    split; [by left|]. left. by exists k.
Qed.

(** C5, as the code has it.  [selectionChangeCount] grows, by one, exactly
    when a change is detected on the walked cases, the cases of the change
    and their descendants: selecting, a walked case that is not in the
    selection of its collection or whose collection has more than one
    selected case; deselecting, a walked case that is in the selection of
    its collection.  When the count does not grow, the selection of every
    collection is as before, so every flip of a membership is counted.  A
    selecting invocation is not counted exactly when every walked case is
    the one selected case of its collection. *)
Theorem selectCases_changeCount fuel iChange dc tCollection :
  selectCollection (hierarchy dc) iChange = Some tCollection →
  walkable (hierarchy dc) fuel (default [] (tCasesOf (hierarchy dc) iChange tCollection)) →
  ∃ dc',
    doSelectCases fuel iChange dc =
      Some (iChange, dc', {| success := true; caseIDs := None; caseID := None |}) ∧
    (changeDetected (hierarchy dc) (select iChange)
       (default [] (tCasesOf (hierarchy dc) iChange tCollection)) →
     selectionChangeCount dc' = S (selectionChangeCount dc)) ∧
    (¬ changeDetected (hierarchy dc) (select iChange)
         (default [] (tCasesOf (hierarchy dc) iChange tCollection)) →
     selectionChangeCount dc' = selectionChangeCount dc ∧
     _collectionClients (hierarchy dc') = _collectionClients (hierarchy dc)) ∧
    (select iChange = true →
     (selectionChangeCount dc' = selectionChangeCount dc ↔
      ∀ k0 k c coll,
        k0 ∈ default [] (tCasesOf (hierarchy dc) iChange tCollection) →
        walkedFrom (hierarchy dc) k0 k → store (hierarchy dc) !! k = Some c →
        _collectionClients (hierarchy dc) !! case_collection c = Some coll →
        selection coll = {[k]})).
Proof.
  intros Hc Hw.
  destruct (doSelectCases_selection fuel iChange dc tCollection Hc Hw) as (dc'&Hdo&Hcount&_).
  exists dc'. split; [done|].
  assert (Hsole : select iChange = true →
            (¬ changeDetected (hierarchy dc) (select iChange)
                 (default [] (tCasesOf (hierarchy dc) iChange tCollection)) ↔
             ∀ k0 k c coll,
               k0 ∈ default [] (tCasesOf (hierarchy dc) iChange tCollection) →
               walkedFrom (hierarchy dc) k0 k → store (hierarchy dc) !! k = Some c →
               _collectionClients (hierarchy dc) !! case_collection c = Some coll →
               selection coll = {[k]})).
  { intros ->. unfold changeDetected. split.
    - intros Hn k0 k c coll Hk0 Hwalked Hst Hcoll. apply sole_selected.
      intros Ht. apply Hn. by exists k0, k, c, coll.
    - intros Hall (k0&k&c&coll&Hk0&Hwalked&Hst&Hcoll&Ht).
      by apply (proj2 (sole_selected (selection coll) k) (Hall _ _ _ _ Hk0 Hwalked Hst Hcoll)). }
  destruct Hcount as [[Hn Hd]|(Hn&Hcl&Hd)].
  - split; [done|]. split; [done|]. intros Hs. rewrite <- (Hsole Hs). split; [lia|done].
  - split; [done|]. split; [done|]. intros Hs. by rewrite <- (Hsole Hs).
Qed.

Lemma walkableCheck_sound h fuel l rank :
  walkableCheck h fuel l rank = true → walkable h fuel l.
Proof.
  unfold walkableCheck. intros [H1 H2]%andb_true_iff.
  apply bool_decide_eq_true in H1, H2. exists rank. split.
  - intros k c Hk j Hj. specialize (H1 k c Hk). simpl in H1.
    rewrite Forall_forall in H1. by apply H1.
  - intros k Hk. rewrite Forall_forall in H2. by apply H2.
Qed.

Lemma doSelectCases_succeeds_witness :
  ∃ dc', doSelectCases 2 (selectChange [10] true false) (contextOf oneFamily) =
           Some (selectChange [10] true false, dc',
                 {| success := true; caseIDs := None; caseID := None |}).
Proof.
  apply (proj2 (doSelectCases_succeeds 2 (selectChange [10] true false) (contextOf oneFamily))
           (Some 2)).
  - vm_compute; reflexivity.
  - apply (walkableCheck_sound _ _ _ familyRank). vm_compute; reflexivity.
Defined.

(** C4, a counterexample to the claim as stated.  Person 11 and family 14
    are selected in one invocation without [extend]: both selections stand.
    A second invocation without [extend] selects person 11 alone, who is
    already the one selected person: no change is detected and the selection
    of "Families" is not cleared. *)
Lemma selectCases_second_call_keeps_other_selection :
  ∃ dc1 dc2,
    doSelectCases 1 (selectChange [11; 14] true false) (contextOf twoFamilies) =
      Some (selectChange [11; 14] true false, dc1,
            {| success := true; caseIDs := None; caseID := None |}) ∧
    selection <$> _collectionClients (hierarchy dc1) !! 2 = Some {[11]} ∧
    selection <$> _collectionClients (hierarchy dc1) !! 1 = Some {[14]} ∧
    doSelectCases 1 (selectChange [11] true false) dc1 =
      Some (selectChange [11] true false, dc2,
            {| success := true; caseIDs := None; caseID := None |}) ∧
    selection <$> _collectionClients (hierarchy dc2) !! 1 = Some {[14]} ∧
    ({[14]} : gset nat) ≠ ∅.
Proof.
  eexists _, _. split; [vm_compute; reflexivity|].
  split; [vm_compute; reflexivity|]. split; [vm_compute; reflexivity|].
  split; [vm_compute; reflexivity|]. split; [vm_compute; reflexivity|].
  intros H. assert (14 ∈ (∅ : gset nat)) as Hin by (rewrite <- H; by apply elem_of_singleton).
  by apply not_elem_of_empty in Hin.
Qed.

Lemma selectCases_extend_witness :
  ∃ dc', doSelectCases 2 (selectChange [10] true false) (contextOf oneFamily) =
           Some (selectChange [10] true false, dc',
                 {| success := true; caseIDs := None; caseID := None |}) ∧
         (∃ coll', _collectionClients (hierarchy dc') !! 1 = Some coll' ∧ 10 ∈ selection coll') ∧
         (∃ coll', _collectionClients (hierarchy dc') !! 2 = Some coll' ∧ 12 ∈ selection coll').
Proof.
  destruct (selectCases_extend 2 (selectChange [10] true false) (contextOf oneFamily)
              (Some 2) eq_refl)
    as (dc'&Hdo&_&Hwalked).
  - apply (walkableCheck_sound _ _ _ familyRank). vm_compute; reflexivity.
  - exists dc'. split; [exact Hdo|].
    assert (H10 : store oneFamily !! 10 =
                  Some (mkCaseOf 10 1 None [11; 12; 13] [(1, VString "Smith")]))
      by (vm_compute; reflexivity).
    assert (H12 : store oneFamily !! 12 =
                  Some (mkCaseOf 12 2 (Some 10) [] [(2, VString "Smith"); (3, VString "Bob")]))
      by (vm_compute; reflexivity).
    split.
    + apply (Hwalked eq_refl 10 10 (mkCaseOf 10 1 None [11; 12; 13] [(1, VString "Smith")])
               (list_elem_of_here _ _)); [|exact H10].
      eapply walkedFrom_self; [exact H10|]. eexists. vm_compute; reflexivity.
    + apply (Hwalked eq_refl 10 12
               (mkCaseOf 12 2 (Some 10) [] [(2, VString "Smith"); (3, VString "Bob")])
               (list_elem_of_here _ _)); [|exact H12].
      eapply walkedFrom_child; [exact H10| |
                                apply list_elem_of_further, list_elem_of_here|].
      * eexists. vm_compute; reflexivity.
      * eapply walkedFrom_self; [exact H12|]. eexists. vm_compute; reflexivity.
Defined.

(** C5, a counterexample to the claim as stated.  With persons 11 and 12
    selected, person 11 is selected again with [extend]: no membership
    flips, the selections are what they were, and [selectionChangeCount]
    grows all the same. *)
Lemma selectCases_counts_reselection :
  ∃ dc1 dc2,
    doSelectCases 1 (selectChange [11; 12] true false) (contextOf oneFamily) =
      Some (selectChange [11; 12] true false, dc1,
            {| success := true; caseIDs := None; caseID := None |}) ∧
    selection <$> _collectionClients (hierarchy dc1) !! 2 = Some {[11; 12]} ∧
    doSelectCases 1 (selectChange [11] true true) dc1 =
      Some (selectChange [11] true true, dc2,
            {| success := true; caseIDs := None; caseID := None |}) ∧
    _collectionClients (hierarchy dc2) = _collectionClients (hierarchy dc1) ∧
    selectionChangeCount dc2 = S (selectionChangeCount dc1).
Proof.
  eexists _, _. split; [vm_compute; reflexivity|].
  split; [vm_compute; reflexivity|]. split; [vm_compute; reflexivity|].
  split; vm_compute; reflexivity.
Qed.

Lemma selectCases_changeCount_witness :
  ∃ dc', doSelectCases 2 (selectChange [10] true false) (contextOf oneFamily) =
           Some (selectChange [10] true false, dc',
                 {| success := true; caseIDs := None; caseID := None |}) ∧
         selectionChangeCount dc' = 1.
Proof.
  destruct (selectCases_changeCount 2 (selectChange [10] true false) (contextOf oneFamily)
              (Some 2) eq_refl)
    as (dc'&Hdo&Hcount&_).
  - apply (walkableCheck_sound _ _ _ familyRank). vm_compute; reflexivity.
  - exists dc'. split; [exact Hdo|]. apply Hcount.
    assert (H12 : store oneFamily !! 12 =
                  Some (mkCaseOf 12 2 (Some 10) [] [(2, VString "Smith"); (3, VString "Bob")]))
      by (vm_compute; reflexivity).
    exists 10, 12, (mkCaseOf 12 2 (Some 10) [] [(2, VString "Smith"); (3, VString "Bob")]),
      {| parentCollectionID := Some 1; attributeIDs := [2; 3];
         casesController := [11; 12; 13]; selection := ∅ |}.
    split; [apply list_elem_of_here|]. split.
    { eapply walkedFrom_child;
        [vm_compute; reflexivity|eexists; vm_compute; reflexivity
        |apply list_elem_of_further, list_elem_of_here|].
      eapply walkedFrom_self; [exact H12|]. eexists. vm_compute; reflexivity. }
    split; [exact H12|]. split; [vm_compute; reflexivity|].
    left. apply not_elem_of_empty.
Defined.

(** Deselecting without [extend]: with family 10 and its people selected,
    the deselection of person 11 alone is detected as a change, and the pass
    over all collections clears "People", which held the walked case, and
    "Families" alike. *)
Example selectCases_deselect_clears_all :
  ∃ dc1 dc2,
    doSelectCases 2 (selectChange [10] true false) (contextOf oneFamily) =
      Some (selectChange [10] true false, dc1,
            {| success := true; caseIDs := None; caseID := None |}) ∧
    selection <$> _collectionClients (hierarchy dc1) !! 1 = Some {[10]} ∧
    selection <$> _collectionClients (hierarchy dc1) !! 2 = Some {[11; 12; 13]} ∧
    doSelectCases 2 (selectChange [11] false false) dc1 =
      Some (selectChange [11] false false, dc2,
            {| success := true; caseIDs := None; caseID := None |}) ∧
    selection <$> _collectionClients (hierarchy dc2) !! 1 = Some ∅ ∧
    selection <$> _collectionClients (hierarchy dc2) !! 2 = Some ∅.
Proof.
  eexists _, _. split; [vm_compute; reflexivity|].
  split; [vm_compute; reflexivity|]. split; [vm_compute; reflexivity|].
  split; [vm_compute; reflexivity|]. split; vm_compute; reflexivity.
Qed.

(** Selecting family 10 again while it is the one selected family: its
    people are walked too, and "People" holds three selected cases, so the
    invocation is counted although no selection changes. *)
Example selectCases_counts_descendants :
  ∃ dc1 dc2,
    doSelectCases 2 (selectChange [10] true false) (contextOf oneFamily) =
      Some (selectChange [10] true false, dc1,
            {| success := true; caseIDs := None; caseID := None |}) ∧
    selection <$> _collectionClients (hierarchy dc1) !! 1 = Some {[10]} ∧
    doSelectCases 2 (selectChange [10] true false) dc1 =
      Some (selectChange [10] true false, dc2,
            {| success := true; caseIDs := None; caseID := None |}) ∧
    _collectionClients (hierarchy dc2) = _collectionClients (hierarchy dc1) ∧
    selectionChangeCount dc1 = 1 ∧ selectionChangeCount dc2 = 2.
Proof.
  eexists _, _. split; [vm_compute; reflexivity|].
  split; [vm_compute; reflexivity|]. split; [vm_compute; reflexivity|].
  split; [vm_compute; reflexivity|]. split; vm_compute; reflexivity.
Qed.

(** ** Deletion of cases *)

Lemma caseShrinks_refl c : caseShrinks c c.
Proof. by repeat split. Qed.

Lemma storeShrinks_refl st : storeShrinks st st.
Proof. split; [|done]. intros id c H. exists c. split; [done|apply caseShrinks_refl]. Qed.

Lemma storeShrinks_trans st1 st2 st3 :
  storeShrinks st1 st2 → storeShrinks st2 st3 → storeShrinks st1 st3.
Proof.
  intros [H12 N12] [H23 N23]. split; [|by auto].
  intros id c H. destruct (H12 _ _ H) as (c2&Hc2&?&?&?&?).
  destruct (H23 _ _ Hc2) as (c3&Hc3&?&?&?&?).
  exists c3. split; [done|]. unfold caseShrinks.
  split; [congruence|]. split; [congruence|]. split; [by etrans|auto].
Qed.

Lemma storeShrinks_destroyed st st' id :
  storeShrinks st st' → destroyedIn st id → destroyedIn st' id.
Proof.
  intros [H _] (c&Hc&Hd). destruct (H _ _ Hc) as (c'&Hc'&_&_&_&Hd').
  exists c'. auto.
Qed.

Lemma storeShrinks_acyclic st st' rank :
  storeShrinks st st' → acyclicStore st rank → acyclicStore st' rank.
Proof.
  intros [Hs Hn] Hacyc k c' Hk j Hj.
  destruct (st !! k) as [c|] eqn:E; [|rewrite (Hn _ E) in Hk; done].
  destruct (Hs _ _ E) as (c2&Hc2&_&_&Hsub&_). simplify_eq.
  destruct (Hacyc _ _ E j (elem_of_sublist _ _ _ Hj Hsub)) as [[cj Hcj] Hr]. split; [|done].
  destruct (Hs _ _ Hcj) as (cj'&->&_). by eexists.
Qed.

(** [deleteCase] on the store: the case is destroyed, nothing else is, and
    cases only lose children. *)
Lemma Collection_deleteCase_store cid k h c :
  store h !! k = Some c →
  storeShrinks (store h) (store (Collection_deleteCase cid k h)) ∧
  destroyedIn (store (Collection_deleteCase cid k h)) k ∧
  (∀ id, id ≠ k → destroyedIn (store (Collection_deleteCase cid k h)) id →
         destroyedIn (store h) id).
Proof.
  intros Hk. unfold Collection_deleteCase. rewrite Hk. simpl.
  set (destroy := λ c0 : Case,
         {| case_id := case_id c0; case_collection := case_collection c0;
            case_parent := case_parent c0; children := children c0;
            _valuesMap := ∅; isDestroyed := true |}).
  set (st1 := match case_parent c with
              | Some p => alter (λ pc, set_children (filter (λ k0, k0 ≠ k) (children pc)) pc)
                                p (store h)
              | None => store h
              end).
  assert (Hst1 : ∀ id,
            st1 !! id = (λ c0, if decide (case_parent c = Some id)
                               then set_children (filter (λ k0, k0 ≠ k) (children c0)) c0
                               else c0) <$> store h !! id).
  { intros id. subst st1. destruct (case_parent c) as [p|].
    - destruct (decide (Some p = Some id)) as [[= ->]|Hne].
      + by rewrite lookup_alter_eq.
      + rewrite lookup_alter_ne by congruence. by destruct (store h !! id).
    - destruct (decide (None = Some id)); [done|]. by destruct (store h !! id). }
  split; [|split].
  - split.
    + intros id c0 Hid. destruct (decide (id = k)) as [->|Hne].
      * rewrite lookup_alter_eq, Hst1, Hid. simpl. eexists. split; [done|].
        destruct (decide _); repeat split; try done. simpl. apply sublist_filter.
      * rewrite lookup_alter_ne, Hst1, Hid by done. simpl. eexists. split; [done|].
        destruct (decide _); [|apply caseShrinks_refl].
        repeat split; try done. simpl. apply sublist_filter.
    + intros id Hid. destruct (decide (id = k)) as [->|Hne]; [congruence|].
      by rewrite lookup_alter_ne, Hst1, Hid.
  - unfold destroyedIn. rewrite lookup_alter_eq, Hst1, Hk. simpl. by eexists.
  - intros id Hne (c'&Hc'&Hd). rewrite lookup_alter_ne, Hst1 in Hc' by done.
    destruct (store h !! id) as [c0|] eqn:E; [|done]. simpl in Hc'. simplify_eq.
    exists c0. split; [done|]. by destruct (decide _).
Qed.

Lemma deleteThisCase_inv st0 rank x v v' c :
  deleteInv st0 v →
  store (del_hierarchy v) !! x = Some c → isDestroyed c = false →
  deleteThisCase x v = Some v' →
  deleteStepOk st0 rank (rank x) v v'.
Proof.
  intros (Hshr&Hnd&Hold&Hids&Hall) Hx Hnd_x H.
  unfold deleteThisCase in H. rewrite Hx in H.
  destruct (getCollectionForCase _ c) as [tCollection|]; [|done]. simplify_eq.
  destruct (Collection_deleteCase_store (case_collection c) x (del_hierarchy v) c Hx)
    as (Hs&Hd&Ho).
  assert (¬ destroyedIn (store (del_hierarchy v)) x) as Hlive.
  { intros (c'&Hc'&Hd'). congruence. }
  split; [|split]; simpl.
  - split; [by eapply storeShrinks_trans|]. simpl. split; [|split; [|split]].
    + apply NoDup_app. split; [done|]. split; [|apply NoDup_singleton].
      intros id Hid ->%list_elem_of_singleton. by apply Hlive, Hids.
    + by rewrite fmap_app, Hold.
    + intros id [Hid| ->%list_elem_of_singleton]%elem_of_app.
      * destruct (Hids _ Hid). split; [by eapply storeShrinks_destroyed|done].
      * split; [done|]. intros Hd0. by eapply Hlive, storeShrinks_destroyed.
    + intros id Hid. destruct (decide (id = x)) as [->|Hne].
      * right. apply elem_of_app. right. by apply list_elem_of_singleton.
      * destruct (Hall id (Ho _ Hne Hid)); [by left|right].
        apply elem_of_app. by left.
  - done.
  - intros id Hid. destruct (decide (id = x)) as [->|Hne]; [by right|].
    left. by apply Ho.
Qed.

Lemma deleteChildrenLoop_inv st0 rank rec x :
  (∀ child v v',
     acyclicStore (store (del_hierarchy v)) rank → deleteInv st0 v →
     rec child v = Some v' → deleteStepOk st0 rank (rank child) v v') →
  ∀ ix v v',
    acyclicStore (store (del_hierarchy v)) rank → deleteInv st0 v →
    deleteChildrenLoop rec x ix v = Some v' →
    deleteInv st0 v' ∧
    storeShrinks (store (del_hierarchy v)) (store (del_hierarchy v')) ∧
    (∀ id, destroyedIn (store (del_hierarchy v')) id →
           destroyedIn (store (del_hierarchy v)) id ∨ rank id < rank x).
Proof.
  intros Hrec. induction ix as [|i IH]; intros v v' Hacyc Hinv H; simpl in H.
  { simplify_eq. split; [done|]. split; [apply storeShrinks_refl|]. by left. }
  destruct (store (del_hierarchy v) !! x) as [c|] eqn:Hx; [|done].
  destruct (children c !! i) as [child|] eqn:Hchild; [|done].
  destruct (rec child v) as [v1|] eqn:Hr; [|done].
  destruct (Hrec _ _ _ Hacyc Hinv Hr) as (Hinv1&Hs1&Hb1).
  destruct (IH v1 v' (storeShrinks_acyclic _ _ _ Hs1 Hacyc) Hinv1 H) as (Hinv'&Hs'&Hb').
  split; [done|]. split; [by eapply storeShrinks_trans|].
  intros id Hid. destruct (Hb' _ Hid) as [Hid1|?]; [|by right].
  destruct (Hb1 _ Hid1) as [?|Hle]; [by left|right].
  assert (child ∈ children c) as Hin by (by eapply list_elem_of_lookup_2).
  destruct (Hacyc _ _ Hx _ Hin) as [_ Hlt]. lia.
Qed.

Lemma deleteCaseAndChildren_inv st0 rank fuel :
  ∀ x v v',
    acyclicStore (store (del_hierarchy v)) rank → deleteInv st0 v →
    deleteCaseAndChildren fuel x v = Some v' →
    deleteStepOk st0 rank (rank x) v v'.
Proof.
  induction fuel as [|fuel IH]; intros x v v' Hacyc Hinv H; [done|].
  simpl in H. destruct (store (del_hierarchy v) !! x) as [c|] eqn:Hx; [|done].
  destruct (isDestroyed c) eqn:Hd.
  { simplify_eq. split; [done|]. split; [apply storeShrinks_refl|]. by left. }
  destruct (deleteChildrenLoop _ x _ v) as [v1|] eqn:Hloop; [|done].
  destruct (deleteChildrenLoop_inv st0 rank _ x IH _ _ _ Hacyc Hinv Hloop)
    as (Hinv1&Hs1&Hb1).
  destruct (proj1 Hs1 _ _ Hx) as (c1&Hx1&_).
  assert (isDestroyed c1 = false) as Hd1.
  { destruct (isDestroyed c1) eqn:E; [|done].
    destruct (Hb1 x) as [(c0&Hc0&Hd0)|Hlt]; [by exists c1|congruence|lia]. }
  destruct (deleteThisCase_inv st0 rank x v1 v' c1 Hinv1 Hx1 Hd1 H) as (Hinv'&Hs'&Hb').
  split; [done|]. split; [by eapply storeShrinks_trans|].
  intros id Hid. destruct (Hb' _ Hid) as [Hid1|?]; [|by right].
  destruct (Hb1 _ Hid1) as [?|?]; [by left|right; lia].
Qed.

Lemma forEachM_total {A S} (P : S → Prop) (f : A → S → option S) l s :
  (∀ x s, x ∈ l → P s → ∃ s', f x s = Some s' ∧ P s') →
  P s → ∃ s', forEachM f l s = Some s' ∧ P s'.
Proof.
  revert s. induction l as [|x l IH]; intros s Hf Hs; simpl; [by exists s|].
  destruct (Hf x s) as (s1&->&Hs1); [by left|done|].
  apply IH; [|done]. intros y s0 Hy. apply Hf. by right.
Qed.

Lemma filter_ne_id (l : list nat) x : x ∉ l → filter (λ k, k ≠ x) l = l.
Proof.
  induction l as [|a l IH]; intros Hx; [done|].
  apply not_elem_of_cons in Hx as [Hne Hx].
  rewrite filter_cons_True by done. by rewrite IH.
Qed.

Lemma filter_ne_length (K : list nat) i child :
  NoDup K → K !! i = Some child → i ≤ length (filter (λ k, k ≠ child) K).
Proof.
  revert i. induction K as [|a K IH]; intros i Hnd Hi; [done|].
  destruct i as [|i]; [lia|]. simpl in Hi.
  apply NoDup_cons in Hnd as [Ha Hnd].
  assert (a ≠ child) as Hne.
  { intros ->. apply Ha. by eapply list_elem_of_lookup_2. }
  rewrite filter_cons_True by done. simpl. specialize (IH i Hnd Hi). lia.
Qed.

Lemma treeStore_shrinks cl cl' st st' rank :
  treeStore cl st rank → storeShrinks st st' →
  (∀ cid, is_Some (cl !! cid) → is_Some (cl' !! cid)) →
  treeStore cl' st' rank.
Proof.
  intros [Hacyc Htree] Hshr Hcl. split; [by eapply storeShrinks_acyclic|].
  intros y c' Hy. destruct Hshr as [Hs Hn].
  destruct (st !! y) as [c|] eqn:E; [|rewrite (Hn _ E) in Hy; done].
  destruct (Hs _ _ E) as (c2&Hc2&Hp&Hcoll&Hsub&_). simplify_eq.
  destruct (Htree _ _ E) as (Hnd&Hclient&Hpar).
  split; [by eapply sublist_NoDup|]. split; [rewrite Hcoll; by apply Hcl|].
  intros x Hx. destruct (Hpar x (elem_of_sublist _ _ _ Hx Hsub)) as (cx&Hcx&Hpx).
  destruct (Hs _ _ Hcx) as (cx'&Hcx'&Hpx'&_). exists cx'. split; [done|congruence].
Qed.

Lemma Collection_deleteCase_children cid k h c y cy :
  store h !! k = Some c → store h !! y = Some cy → y ≠ k →
  ∃ cy', store (Collection_deleteCase cid k h) !! y = Some cy' ∧
         (children cy' = children cy ∨
          children cy' = filter (λ k0, k0 ≠ k) (children cy)).
Proof.
  intros Hk Hy Hne. unfold Collection_deleteCase. rewrite Hk. simpl.
  rewrite lookup_alter_ne by done.
  destruct (case_parent c) as [p|]; [|exists cy; by split; [|left]].
  destruct (decide (p = y)) as [->|Hpy].
  - rewrite lookup_alter_eq, Hy. simpl. eexists. split; [done|]. by right.
  - rewrite lookup_alter_ne by done. exists cy. by split; [|left].
Qed.

Lemma Collection_deleteCase_clients cid k h cid' :
  is_Some (_collectionClients h !! cid') →
  is_Some (_collectionClients (Collection_deleteCase cid k h) !! cid').
Proof. intros H. unfold Collection_deleteCase. simpl. by apply lookup_alter_is_Some. Qed.

Lemma deleteChildrenLoop_total rank rec x :
  (∀ child v, treeVars rank v → is_Some (store (del_hierarchy v) !! child) →
              rank child < rank x →
              ∃ v', rec child v = Some v' ∧ deleteReturns rank child v v') →
  ∀ ix v c,
    treeVars rank v → store (del_hierarchy v) !! x = Some c → ix ≤ length (children c) →
    ∃ v', deleteChildrenLoop rec x ix v = Some v' ∧ treeVars rank v' ∧
          storeShrinks (store (del_hierarchy v)) (store (del_hierarchy v')) ∧
          ∀ y cy, store (del_hierarchy v) !! y = Some cy → rank x < rank y →
                  ∃ cy', store (del_hierarchy v') !! y = Some cy' ∧
                         children cy' = children cy.
Proof.
  intros Hrec. induction ix as [|i IH]; intros v c Htree Hx Hix; simpl.
  { exists v. split; [done|]. split; [done|]. split; [apply storeShrinks_refl|]. eauto. }
  rewrite Hx.
  destruct (lookup_lt_is_Some_2 (children c) i) as [child Hchild]; [lia|].
  rewrite Hchild.
  assert (child ∈ children c) as Hin by (by eapply list_elem_of_lookup_2).
  destruct Htree as [Hacyc Ht].
  destruct (Hacyc _ _ Hx _ Hin) as [Hcs Hcr].
  destruct (Ht _ _ Hx) as (Hnd&_&Hpar).
  destruct (Hrec child v (conj Hacyc Ht) Hcs Hcr) as (v1&->&Htree1&Hs1&Hf1).
  destruct (Hf1 _ _ Hx Hcr) as (c1&Hx1&Hch1).
  assert (i ≤ length (children c1)) as Hi1.
  { destruct Hch1 as [->| ->]; [lia|by apply filter_ne_length]. }
  destruct (IH v1 c1 Htree1 Hx1 Hi1) as (v'&Hloop&Htree'&Hs'&Hf').
  exists v'. split; [done|]. split; [done|]. split; [by eapply storeShrinks_trans|].
  intros y cy Hy Hr.
  destruct (Hf1 _ _ Hy) as (cy1&Hy1&Hcy1); [lia|].
  destruct (Hf' _ _ Hy1 Hr) as (cy'&Hy'&Hcy'). exists cy'. split; [done|].
  rewrite Hcy'. destruct Hcy1 as [->| ->]; [done|].
  apply filter_ne_id. intros Hchy.
  destruct (Ht _ _ Hy) as (_&_&Hpary).
  destruct (Hpary _ Hchy) as (cc&Hcc&Hpc).
  destruct (Hpar _ Hin) as (cc'&Hcc'&Hpc'). simplify_eq. lia.
Qed.

Lemma deleteCaseAndChildren_total rank fuel :
  ∀ x v,
    treeVars rank v → is_Some (store (del_hierarchy v) !! x) → rank x < fuel →
    ∃ v', deleteCaseAndChildren fuel x v = Some v' ∧ deleteReturns rank x v v'.
Proof.
  induction fuel as [|fuel IH]; intros x v Htree [c Hx] Hr; [lia|].
  simpl. rewrite Hx. destruct (isDestroyed c) eqn:Hd.
  { exists v. split; [done|]. split; [done|]. split; [apply storeShrinks_refl|].
    intros y cy Hy _. exists cy. split; [done|by left]. }
  destruct (deleteChildrenLoop_total rank (deleteCaseAndChildren fuel) x) with
    (ix := length (children c)) (v := v) (c := c) as (v1&->&Htree1&Hs1&Hf1); try done.
  { intros child v0 Ht0 Hc0 Hr0. apply IH; [done|done|lia]. }
  destruct (proj1 Hs1 _ _ Hx) as (c1&Hx1&_).
  destruct Htree1 as [Hacyc1 Ht1].
  destruct (Ht1 _ _ Hx1) as (_&[coll Hcoll]&_).
  unfold deleteThisCase. rewrite Hx1. unfold getCollectionForCase, getCollectionByID.
  rewrite Hcoll. eexists. split; [reflexivity|].
  destruct (Collection_deleteCase_store (case_collection c1) x (del_hierarchy v1) c1 Hx1)
    as (Hs2&_&_).
  split; [|split]; simpl.
  - eapply treeStore_shrinks; [exact (conj Hacyc1 Ht1)|exact Hs2|].
    intros cid. apply Collection_deleteCase_clients.
  - by eapply storeShrinks_trans.
  - intros y cy Hy Hry. destruct (Hf1 _ _ Hy Hry) as (cy1&Hy1&Hcy1).
    destruct (Collection_deleteCase_children (case_collection c1) x (del_hierarchy v1)
                c1 y cy1 Hx1 Hy1) as (cy'&Hy'&Hcy'); [intros ->; lia|].
    exists cy'. split; [done|]. by rewrite <- Hcy1.
Qed.

(** [doDeleteCases] returns on a forest when the cases of the change are in
    the store and [fuel] exceeds their ranks. *)
Lemma doDeleteCases_total fuel rank iChange dc l :
  cases iChange = Some l →
  treeStore (_collectionClients (hierarchy dc)) (store (hierarchy dc)) rank →
  (∀ x, x ∈ l → is_Some (store (hierarchy dc) !! x) ∧ rank x < fuel) →
  ∃ iChange' dc',
    doDeleteCases fuel iChange dc =
      Some (iChange', dc', {| success := true; caseIDs := None; caseID := None |}).
Proof.
  intros Hl Htree Hall. unfold doDeleteCases. rewrite Hl.
  destruct (forEachM_total
              (λ v, treeVars rank v ∧
                    storeShrinks (store (hierarchy dc)) (store (del_hierarchy v)))
              (deleteCaseAndChildren fuel) l
              {| del_ids := []; del_collectionIDs := ∅; deletedCases := [];
                 del_hierarchy := hierarchy dc |}) as (v&->&_).
  - intros x s Hx [Ht Hs]. destruct (Hall x Hx) as [[c Hc] Hr].
    destruct (proj1 Hs _ _ Hc) as (c'&Hc'&_).
    destruct (deleteCaseAndChildren_total rank fuel x s Ht) as (s'&->&Ht'&Hs'&_);
      [by eexists|done|].
    eexists. split; [done|]. split; [done|]. by eapply storeShrinks_trans.
  - split; [done|apply storeShrinks_refl].
  - by eexists _, _.
Qed.

(** On a store without cycles, whatever the list of cases: when
    [doDeleteCases] returns, the recorded ids are distinct, the command keeps
    exactly one record per id, in the same order, every recorded id is a
    case that was not destroyed before and is destroyed now, and nothing
    else has been destroyed. *)
Lemma doDeleteCases_ids fuel rank iChange dc iChange' dc' res :
  acyclicStore (store (hierarchy dc)) rank →
  doDeleteCases fuel iChange dc = Some (iChange', dc', res) →
  NoDup (ids iChange') ∧
  (∃ cmd rest, undoStack (history dc') = cmd :: rest ∧
               oldCase <$> _undoData cmd = ids iChange') ∧
  (∀ id, id ∈ ids iChange' →
         destroyedIn (store (hierarchy dc')) id ∧
         ¬ destroyedIn (store (hierarchy dc)) id) ∧
  (∀ id, destroyedIn (store (hierarchy dc')) id →
         destroyedIn (store (hierarchy dc)) id ∨ id ∈ ids iChange').
Proof.
  intros Hacyc H. unfold doDeleteCases in H.
  destruct (cases iChange) as [l|]; [|done].
  destruct (forEachM _ l _) as [v|] eqn:Hall; [|done]. simplify_eq.
  assert (deleteInv (store (hierarchy dc)) v ∧
          acyclicStore (store (del_hierarchy v)) rank) as [(Hs&Hnd&Hold&Hids&Hcompl) _].
  { eapply (forEachM_invariant
              (λ v, deleteInv (store (hierarchy dc)) v ∧
                    acyclicStore (store (del_hierarchy v)) rank)); [| |exact Hall].
    - intros x s s' _ [Hinv Ha] Hstep.
      destruct (deleteCaseAndChildren_inv _ rank fuel x s s' Ha Hinv Hstep) as (?&Hshr&_).
      split; [done|]. by eapply storeShrinks_acyclic.
    - split; [|done]. split; [apply storeShrinks_refl|]. simpl.
      split; [apply NoDup_nil_2|]. split; [done|]. split.
      + intros id Hid. by apply elem_of_nil in Hid.
      + intros id Hid. by left. }
  simpl. split; [done|]. split; [|by split].
  eexists _, _. split; [reflexivity|]. done.
Qed.

(** C10.  For a [deleteCases] change on a forest of cases, whatever its list
    of cases (an ancestor together with one of its descendants, a case
    twice): [doDeleteCases] returns, every case is destroyed at most once,
    that is the recorded ids are distinct and the command keeps exactly one
    record per id; every recorded id is a case that was not destroyed before
    and is destroyed now, and nothing else has been destroyed. *)
Theorem deleteCases_ids_distinct fuel rank iChange dc l :
  cases iChange = Some l →
  treeStore (_collectionClients (hierarchy dc)) (store (hierarchy dc)) rank →
  (∀ x, x ∈ l → is_Some (store (hierarchy dc) !! x) ∧ rank x < fuel) →
  ∃ iChange' dc',
    doDeleteCases fuel iChange dc =
      Some (iChange', dc', {| success := true; caseIDs := None; caseID := None |}) ∧
    NoDup (ids iChange') ∧
    (∃ cmd rest, undoStack (history dc') = cmd :: rest ∧
                 oldCase <$> _undoData cmd = ids iChange') ∧
    (∀ id, id ∈ ids iChange' →
           destroyedIn (store (hierarchy dc')) id ∧
           ¬ destroyedIn (store (hierarchy dc)) id) ∧
    (∀ id, destroyedIn (store (hierarchy dc')) id →
           destroyedIn (store (hierarchy dc)) id ∨ id ∈ ids iChange').
Proof.
  intros Hl Htree Hall.
  destruct (doDeleteCases_total fuel rank iChange dc l Hl Htree Hall) as (iChange'&dc'&Hdo).
  exists iChange', dc'. split; [done|].
  eapply doDeleteCases_ids; [exact (proj1 Htree)|exact Hdo].
Qed.

Lemma treeStoreCheck_sound cl st rank :
  treeStoreCheck cl st rank = true → treeStore cl st rank.
Proof.
  unfold treeStoreCheck. intros H. apply bool_decide_eq_true in H. split.
  - intros k c Hk j Hj. destruct (H k c Hk) as (_&_&Hall).
    rewrite Forall_forall in Hall. destruct (Hall j Hj) as (?&?&_). done.
  - intros y c Hy. destruct (H y c Hy) as (Hnd&Hcl&Hall).
    split; [done|]. split; [done|]. intros x Hx.
    rewrite Forall_forall in Hall. destruct (Hall x Hx) as (_&_&Hp).
    destruct (st !! x) as [cx|]; [|done]. by exists cx.
Qed.

Lemma deleteCases_ids_distinct_witness :
  ∃ iChange' dc',
    doDeleteCases 2 (deleteChange [11; 10; 11]) (contextOf oneFamily) =
      Some (iChange', dc', {| success := true; caseIDs := None; caseID := None |}) ∧
    NoDup (ids iChange').
Proof.
  destruct (deleteCases_ids_distinct 2 familyRank (deleteChange [11; 10; 11])
              (contextOf oneFamily) [11; 10; 11] eq_refl)
    as (iChange'&dc'&Hdo&Hnd&_).
  - apply treeStoreCheck_sound. vm_compute; reflexivity.
  - apply Forall_forall.
    repeat (apply Forall_cons; split; [split; [eexists; vm_compute; reflexivity|vm_compute; lia]|]).
    apply Forall_nil_2.
  - exists iChange', dc'. split; [exact Hdo|exact Hnd].
Defined.

(** The ids recorded in that example: the person named first, then the
    other people from the last to the first, then the family. *)
Example deleteCases_example :
  ∃ iChange' dc' res,
    doDeleteCases 2 (deleteChange [11; 10; 11]) (contextOf oneFamily) =
      Some (iChange', dc', res) ∧
    ids iChange' = [11; 13; 12; 10].
Proof. eexists _, _, _. split; vm_compute; reflexivity. Qed.

(** ** Undo of a deletion *)

(** *** The values of a map, read in the order of its keys *)

Lemma omap_none {A B} (f : A → option B) l :
  (∀ x, x ∈ l → f x = None) → omap f l = [].
Proof.
  induction l as [|a l IH]; intros H; [done|]. simpl.
  rewrite (H a) by left. apply IH. intros x Hx. apply H. by right.
Qed.

(** Reading a map that was built from a key-sorted association list, over a
    range of keys that holds them all, gives back the values in the order of
    the list. *)
Lemma omap_sorted_keys (kvs : list (nat * Value)) a len :
  StronglySorted lt kvs.*1 →
  Forall (λ k, a ≤ k < a + len) kvs.*1 →
  omap (λ k, (list_to_map kvs : gmap nat Value) !! k) (seq a len) = kvs.*2.
Proof.
  revert a len. induction kvs as [|[k v] kvs IH]; intros a len Hs Hb.
  - apply omap_none. intros x _. apply lookup_empty.
  - simpl in *. apply StronglySorted_inv in Hs as [Hs Hk].
    apply Forall_cons in Hb as [Hka Hb].
    replace len with ((k - a) + S (a + len - S k)) by lia.
    rewrite seq_app, omap_app. simpl.
    replace (a + (k - a)) with k by lia.
    rewrite lookup_insert_eq.
    rewrite omap_none.
    2:{ intros x [Hx1 Hx2]%elem_of_seq. rewrite lookup_insert_ne by lia.
        apply not_elem_of_list_to_map_1. intros Hin.
        rewrite Forall_forall in Hk. specialize (Hk _ Hin). lia. }
    simpl. f_equal.
    etrans; [|apply (IH (S k) (a + len - S k)); [done|]].
    + apply list_omap_ext. apply Forall2_same_length_lookup_2; [done|].
      intros i x y Hx Hy. rewrite Hx in Hy. injection Hy as <-.
      apply lookup_seq in Hx as [-> _]. rewrite lookup_insert_ne by lia. done.
    + rewrite Forall_forall in Hk, Hb |- *. intros x Hx.
      specialize (Hk _ Hx). specialize (Hb _ Hx). lia.
Qed.

(** Positional assignment to distinct keys is the map of the pairs. *)
Lemma assignValues_list_to_map (kvs : list (nat * Value)) (m : gmap nat Value) :
  NoDup kvs.*1 →
  foldl (λ acc p, <[fst p := snd p]> acc) m kvs = list_to_map kvs ∪ m.
Proof.
  revert m. induction kvs as [|[k v] kvs IH]; intros m Hnd; simpl.
  - by rewrite (left_id_L ∅ (∪)).
  - apply NoDup_cons in Hnd as [Hk Hnd]. rewrite IH by done.
    rewrite <- insert_union_l. rewrite <- insert_union_r; [done|].
    by apply not_elem_of_list_to_map_1.
Qed.

Lemma zip_keys_Forall {B} (P : nat → Prop) (l : list nat) (k : list B) :
  Forall P l → Forall P (zip l k).*1.
Proof.
  intros H. revert k. induction H as [|a l Ha H IH]; intros [|b k]; simpl; try done.
  constructor; [done|apply IH].
Qed.

Lemma zip_keys_sorted {B} (l : list nat) (k : list B) :
  StronglySorted lt l → StronglySorted lt (zip l k).*1.
Proof.
  intros H. revert k. induction H as [|a l Hs IH Ha]; intros [|b k]; simpl;
    try constructor; [apply IH|by apply zip_keys_Forall].
Qed.

Lemma StronglySorted_lt_NoDup (l : list nat) : StronglySorted lt l → NoDup l.
Proof.
  induction 1 as [|a l Hs IH Ha]; constructor; [|done].
  intros Hin. rewrite Forall_forall in Ha. specialize (Ha _ Hin). lia.
Qed.

(** When the attributes of a collection are listed in ascending order of
    their ids, the values of a case read in key order are the value vector
    that was assigned to it. *)
Lemma ObjectMap_values_assignValues attrs vals :
  StronglySorted lt attrs → length vals ≤ length attrs →
  ObjectMap_values (assignValues attrs vals ∅) = vals.
Proof.
  intros Hs Hlen. unfold ObjectMap_values, assignValues.
  pose proof (zip_keys_sorted attrs vals Hs) as Hz.
  rewrite assignValues_list_to_map by by apply StronglySorted_lt_NoDup.
  rewrite (right_id_L ∅ (∪)).
  rewrite omap_sorted_keys; [by apply snd_zip|done|].
  apply Forall_forall. intros k Hk. split; [lia|]. simpl.
  assert (k ∈ elements (dom (list_to_map (zip attrs vals) : gmap nat Value))) as Hin.
  { apply elem_of_elements, elem_of_dom.
    apply list_elem_of_fmap in Hk as ([k' v]&->&Hin). exists v.
    apply elem_of_list_to_map_1; [by apply StronglySorted_lt_NoDup|done]. }
  apply max_list_elem_of_le in Hin. lia.
Qed.

(** *** The place of a case among the cases of its collection *)

Lemma caseIDToIndexMap_lookup coll i x :
  NoDup (casesController coll) → casesController coll !! i = Some x →
  caseIDToIndexMap coll x = Some i.
Proof.
  intros Hnd Hi. unfold caseIDToIndexMap.
  assert (list_find (λ k, k = x) (casesController coll) = Some (i, x)) as ->; [|done].
  apply list_find_Some. split; [done|]. split; [done|].
  intros j y Hj Hlt ->. pose proof (NoDup_lookup _ _ _ _ Hnd Hi Hj). lia.
Qed.

Lemma filter_ne_take_drop (K : list nat) i x :
  NoDup K → K !! i = Some x → filter (λ k, k ≠ x) K = take i K ++ drop (S i) K.
Proof.
  revert i. induction K as [|a K IH]; intros i Hnd Hi; [done|].
  apply NoDup_cons in Hnd as [Ha Hnd]. destruct i as [|i]; simpl in Hi.
  - injection Hi as ->. rewrite filter_cons_False by (intros H; by apply H).
    simpl. rewrite drop_0. by apply filter_ne_id.
  - assert (a ≠ x) as Hne.
    { intros ->. apply Ha. by eapply list_elem_of_lookup_2. }
    rewrite filter_cons_True by done. simpl. f_equal. by apply IH.
Qed.

(** Taking a case out and putting a new one at its old index puts the new
    one in its place. *)
Lemma insertAt_filter (K : list nat) i x n :
  NoDup K → K !! i = Some x →
  insertAt (Some i) n (filter (λ k, k ≠ x) K) = <[i := n]> K.
Proof.
  intros Hnd Hi. unfold insertAt.
  pose proof (filter_ne_length K i x Hnd Hi) as Hlen.
  destruct (decide _) as [_|Hn]; [|done].
  rewrite (filter_ne_take_drop K i x) by done.
  pose proof (lookup_lt_Some _ _ _ Hi) as Hlt.
  assert (length (take i K) = i) as Hti by (rewrite length_take; lia).
  rewrite take_app_length' by done. rewrite drop_app_length' by done.
  symmetry. by apply insert_take_drop.
Qed.

(** *** Deleting a case without children, and undoing it *)

Lemma deleteCaseAndChildren_leaf fuel x c coll v :
  store (del_hierarchy v) !! x = Some c → isDestroyed c = false → children c = [] →
  _collectionClients (del_hierarchy v) !! case_collection c = Some coll →
  deleteCaseAndChildren (S fuel) x v =
    Some {| del_ids := del_ids v ++ [x];
            del_collectionIDs := {[case_collection c]} ∪ del_collectionIDs v;
            deletedCases :=
              deletedCases v ++
                [{| oldCase := x; oldValues := _valuesMap c;
                    oldIndex := caseIDToIndexMap coll x |}];
            del_hierarchy := Collection_deleteCase (case_collection c) x (del_hierarchy v) |}.
Proof.
  intros Hx Hd Hch Hcl. simpl. rewrite Hx, Hd, Hch. simpl.
  unfold deleteThisCase. rewrite Hx. unfold getCollectionForCase, getCollectionByID.
  by rewrite Hcl.
Qed.

Lemma hierarchy_dirty dc : hierarchy (DG_dirtyCurrentDocument dc) = hierarchy dc.
Proof. unfold DG_dirtyCurrentDocument. by destruct (inProgress (history dc)). Qed.

Section UndoDelete.
Context (doCreateCollection doUpdateCases doCreateAttributes doUpdateAttributes
         doDeleteAttributes doResetCollections
           : Change → Hierarchy → option (Change * Hierarchy * Result)).

#[local] Abbreviation applyChange' :=
  (applyChange doCreateCollection doUpdateCases doCreateAttributes doUpdateAttributes
     doDeleteAttributes doResetCollections).
#[local] Abbreviation UndoHistory_undo' :=
  (UndoHistory_undo doCreateCollection doUpdateCases doCreateAttributes doUpdateAttributes
     doDeleteAttributes doResetCollections).

(** A [createCase] change whose parent is an object (a case, or null) and
    whose collection is given as a client: the case it makes. *)
Lemma createCase_at_index fuel dc cid coll pr idx vals :
  _collectionClients (hierarchy dc) !! cid = Some coll →
  typeof_is_object pr = true →
  ∃ dc' res c' coll',
    applyChange' fuel
      {| operation := createCase; isComplete := false;
         collection := Some (ByClient cid);
         properties := Some {| parent := pr; index := idx |};
         values := Some vals;
         cases := None; select := false; extend := false;
         ids := []; collectionIDs := ∅; result := None |} dc = Some (dc', res) ∧
    caseID res = Some (newCaseID (store (hierarchy dc))) ∧
    store (hierarchy dc') !! newCaseID (store (hierarchy dc)) = Some c' ∧
    case_collection c' = cid ∧
    case_parent c' = resolveParent (hierarchy dc) pr ∧
    isDestroyed c' = false ∧
    _valuesMap c' = assignValues (attributeIDs coll) vals ∅ ∧
    _collectionClients (hierarchy dc') !! cid = Some coll' ∧
    casesController coll' =
      insertAt idx (newCaseID (store (hierarchy dc))) (casesController coll).
Proof.
  intros Hcl Hobj.
  unfold applyChange, performChange. cbn.
  unfold doCreateCases, targetCollection, defaultedCollection. cbn.
  rewrite Hcl, Hobj. cbn.
  unfold createOneCase, Collection_createCase, Collection_setCaseValuesFromArray. cbn.
  rewrite lookup_alter_eq, Hcl. cbn.
  set (n := newCaseID (store (hierarchy dc))).
  pose proof (newCaseID_fresh (store (hierarchy dc))) as Hfresh. fold n in Hfresh.
  eexists _, _, _, _. split; [reflexivity|]. cbn.
  split; [reflexivity|].
  rewrite hierarchy_dirty. cbn.
  assert (∀ st, match resolveParent (hierarchy dc) pr with
           | Some p => alter (λ pc, set_children (children pc ++ [n]) pc) p
                         (<[n := st]> (store (hierarchy dc)))
           | None => <[n := st]> (store (hierarchy dc))
           end !! n = Some st) as Hn.
  { intros st. destruct (resolveParent (hierarchy dc) pr) as [p|] eqn:Hp.
    - assert (p ≠ n) as Hne.
      { intros ->. unfold resolveParent in Hp. destruct pr as [| |k|k]; try done;
          destruct (getCaseByID (hierarchy dc) k) eqn:Hk; try done;
          injection Hp as ->; apply getCaseByID_Some in Hk as [Hk _]; congruence. }
      by rewrite lookup_alter_ne, lookup_insert_eq.
    - by rewrite lookup_insert_eq. }
  rewrite lookup_alter_eq, Hn. cbn.
  split; [reflexivity|]. cbn. repeat (split; [reflexivity|]).
  rewrite lookup_alter_eq, Hcl. cbn. split; reflexivity.
Qed.

(** One turn of the undo loop, on a fresh map of old to new cases. *)
Lemma undoDeletedCase_spec fuel d dc oc coll :
  store (hierarchy dc) !! oldCase d = Some oc →
  _collectionClients (hierarchy dc) !! case_collection oc = Some coll →
  ∃ dc' m' c' coll',
    undoDeletedCase doCreateCollection doUpdateCases doCreateAttributes doUpdateAttributes
      doDeleteAttributes doResetCollections fuel d (dc, ∅) = Some (dc', m') ∧
    store (hierarchy dc') !! newCaseID (store (hierarchy dc)) = Some c' ∧
    case_collection c' = case_collection oc ∧
    case_parent c' =
      match case_parent oc with
      | Some p => resolveParent (hierarchy dc) (ParentCase p)
      | None => None
      end ∧
    isDestroyed c' = false ∧
    _valuesMap c' = assignValues (attributeIDs coll) (ObjectMap_values (oldValues d)) ∅ ∧
    _collectionClients (hierarchy dc') !! case_collection oc = Some coll' ∧
    casesController coll' =
      insertAt (oldIndex d) (newCaseID (store (hierarchy dc))) (casesController coll).
Proof.
  intros Hx Hcl. unfold undoDeletedCase. rewrite Hx.
  unfold getCollectionForCase, getCollectionByID. rewrite Hcl. cbn -[applyChange ObjectMap_values resolveParent].
  set (pr := match case_parent oc with
             | Some p => ParentCase (default p (∅ !! p))
             | None => ParentNull
             end).
  destruct (createCase_at_index fuel dc (case_collection oc) coll pr (oldIndex d)
              (ObjectMap_values (oldValues d)) Hcl)
    as (dc'&res&c'&coll'&->&Hres&Hc'&Hcc&Hcp&Hcd&Hcv&Hcl'&Hcs).
  { subst pr. by destruct (case_parent oc). }
  rewrite Hres, Hcl'.
  assert (∃ m', (if decide (newCaseID (store (hierarchy dc)) ∈ casesController coll')
                 then Some (dc', <[oldCase d := newCaseID (store (hierarchy dc))]> ∅)
                 else Some (dc', (∅ : gmap nat nat))) = Some (dc', m')) as [m' ->].
  { destruct (decide _); by eexists. }
  exists dc', m', c', coll'. repeat (split; [done|]). split; [|done].
  rewrite Hcp. subst pr. destruct (case_parent oc) as [p|]; [|done].
  by rewrite lookup_empty.
Qed.

(** The undo of a command that deleted one case. *)
Lemma UndoHistory_undo_one fuel dc cmd rest d oc coll :
  undoStack (history dc) = cmd :: rest →
  _undoData cmd = [d] → oldCaseToNewCaseMap cmd = ∅ →
  store (hierarchy dc) !! oldCase d = Some oc →
  _collectionClients (hierarchy dc) !! case_collection oc = Some coll →
  ∃ dc' c' coll',
    UndoHistory_undo' fuel dc = Some dc' ∧
    store (hierarchy dc') !! newCaseID (store (hierarchy dc)) = Some c' ∧
    case_collection c' = case_collection oc ∧
    case_parent c' =
      match case_parent oc with
      | Some p => resolveParent (hierarchy dc) (ParentCase p)
      | None => None
      end ∧
    isDestroyed c' = false ∧
    _valuesMap c' = assignValues (attributeIDs coll) (ObjectMap_values (oldValues d)) ∅ ∧
    _collectionClients (hierarchy dc') !! case_collection oc = Some coll' ∧
    casesController coll' =
      insertAt (oldIndex d) (newCaseID (store (hierarchy dc))) (casesController coll).
Proof.
  intros Hstack Hdata Hmap Hoc Hcl.
  unfold UndoHistory_undo, Command_undo. rewrite Hstack, Hdata, Hmap.
  cbn [reverse rev_append forEachM].
  set (dc1 := set_history _ dc).
  destruct (undoDeletedCase_spec fuel d dc1 oc coll Hoc Hcl)
    as (dc'&m'&c'&coll'&->&Hc'&Hcc&Hcp&Hcd&Hcv&Hcl'&Hcs).
  eexists _, c', coll'. split; [reflexivity|].
  cbn [hierarchy set_history]. rewrite hierarchy_dirty. done.
Qed.

(** [deleteCases] of one case without children: the hierarchy after it and
    the command on the undo stack. *)
Lemma deleteCases_leaf fuel dc x c coll :
  store (hierarchy dc) !! x = Some c → isDestroyed c = false → children c = [] →
  _collectionClients (hierarchy dc) !! case_collection c = Some coll →
  ∃ dc' res cmd,
    applyChange' (S fuel) (deleteChange [x]) dc = Some (dc', res) ∧
    hierarchy dc' = Collection_deleteCase (case_collection c) x (hierarchy dc) ∧
    undoStack (history dc') = cmd :: undoStack (history dc) ∧
    _undoData cmd =
      [{| oldCase := x; oldValues := _valuesMap c; oldIndex := caseIDToIndexMap coll x |}] ∧
    oldCaseToNewCaseMap cmd = ∅.
Proof.
  intros Hx Hd Hch Hcl.
  pose proof (deleteCaseAndChildren_leaf fuel x c coll
                {| del_ids := []; del_collectionIDs := ∅; deletedCases := [];
                   del_hierarchy := hierarchy dc |} Hx Hd Hch Hcl) as Hdel.
  unfold applyChange, performChange.
  cbn [isComplete operation deleteChange].
  unfold doDeleteCases. cbn [cases deleteChange forEachM]. rewrite Hdel.
  cbn [forEachM dirty del_ids del_collectionIDs deletedCases del_hierarchy app].
  eexists _, _, _. split; [reflexivity|]. done.
Qed.

(** Deleting a case without children and undoing the deletion, in a
    collection whose attributes are listed in ascending order of their ids,
    for a case that holds the values of a value vector: the new case has a
    new id, and the values, the parent, the collection and the place of the
    deleted one. *)
Lemma undo_deleteCases_restores fuel dc x c coll i vals :
  store (hierarchy dc) !! x = Some c → isDestroyed c = false → children c = [] →
  _collectionClients (hierarchy dc) !! case_collection c = Some coll →
  NoDup (casesController coll) → casesController coll !! i = Some x →
  (∀ p, case_parent c = Some p → p ≠ x ∧ is_Some (getCaseByID (hierarchy dc) p)) →
  StronglySorted lt (attributeIDs coll) →
  length vals ≤ length (attributeIDs coll) →
  _valuesMap c = assignValues (attributeIDs coll) vals ∅ →
  ∃ dc2 r2 dc3 c' coll',
    applyChange' (S fuel) (deleteChange [x]) dc = Some (dc2, r2) ∧
    UndoHistory_undo' (S fuel) dc2 = Some dc3 ∧
    store (hierarchy dc) !! newCaseID (store (hierarchy dc)) = None ∧
    store (hierarchy dc3) !! newCaseID (store (hierarchy dc)) = Some c' ∧
    isDestroyed c' = false ∧
    _valuesMap c' = _valuesMap c ∧
    case_parent c' = case_parent c ∧
    case_collection c' = case_collection c ∧
    _collectionClients (hierarchy dc3) !! case_collection c = Some coll' ∧
    casesController coll' = <[i := newCaseID (store (hierarchy dc))]> (casesController coll).
Proof.
  intros Hx Hd Hch Hcl Hnd Hi Hpar Hsorted Hlen Hvals.
  destruct (deleteCases_leaf fuel dc x c coll Hx Hd Hch Hcl)
    as (dc2&r2&cmd&Hdel&Hh2&Hstack&Hdata&Hmap).
  set (cid := case_collection c) in *.
  set (h1 := Collection_deleteCase cid x (hierarchy dc)) in *.
  assert (Hx1 : ∃ oc, store h1 !! x = Some oc ∧ case_collection oc = cid ∧
                      case_parent oc = case_parent c).
  { subst h1. unfold Collection_deleteCase. rewrite Hx. cbn.
    rewrite lookup_alter_eq.
    destruct (case_parent c) as [p|] eqn:Hp.
    - destruct (Hpar p eq_refl) as [Hne _].
      rewrite lookup_alter_ne, Hx by done. cbn. eexists. by rewrite Hp.
    - rewrite Hx. cbn. eexists. by rewrite Hp. }
  assert (Hcl1 : _collectionClients h1 !! cid =
                   Some (set_casesController (filter (λ k, k ≠ x) (casesController coll)) coll)).
  { subst h1. unfold Collection_deleteCase. cbn. by rewrite lookup_alter_eq, Hcl. }
  assert (Hp1 : ∀ p, case_parent c = Some p → resolveParent h1 (ParentCase p) = Some p).
  { intros p Hp. destruct (Hpar p Hp) as [Hne [pc [Hps Hpd]%getCaseByID_Some]].
    destruct (Collection_deleteCase_children cid x (hierarchy dc) c p pc Hx Hps Hne)
      as (pc'&Hpc'&_).
    assert (isDestroyed pc' = false) as Hpd'.
    { revert Hpc'. unfold Collection_deleteCase. rewrite Hx, Hp. cbn.
      rewrite lookup_alter_ne, lookup_alter_eq, Hps by done. cbn. by intros [= <-]. }
    unfold resolveParent, getCaseByID. fold h1 in Hpc'. by rewrite Hpc', Hpd'. }
  assert (Hnew : newCaseID (store h1) = newCaseID (store (hierarchy dc))).
  { subst h1. unfold Collection_deleteCase, newCaseID. rewrite Hx. cbn.
    rewrite dom_alter_L. by destruct (case_parent c); [rewrite dom_alter_L|]. }
  destruct Hx1 as (oc&Hoc&Hocc&Hocp).
  rewrite <- Hh2 in Hoc, Hcl1, Hp1, Hnew. rewrite <- Hocc in Hcl1.
  destruct (UndoHistory_undo_one (S fuel) dc2 cmd _ _ oc _ Hstack Hdata Hmap Hoc Hcl1)
    as (dc3&c'&coll'&Hundo&Hc'&Hcc&Hcp&Hcd&Hcv&Hcl'&Hcs).
  cbn [oldValues oldIndex attributeIDs casesController set_casesController] in Hcv, Hcs.
  rewrite Hnew in Hc', Hcs. rewrite Hocc in Hcl', Hcc.
  exists dc2, r2, dc3, c', coll'. split; [exact Hdel|]. split; [exact Hundo|].
  split; [apply newCaseID_fresh|]. split; [exact Hc'|]. split; [exact Hcd|].
  split.
  { rewrite Hcv, Hvals. by rewrite ObjectMap_values_assignValues. }
  split.
  { rewrite Hcp, Hocp. destruct (case_parent c) as [p|] eqn:Hp; [|done]. by apply Hp1. }
  split; [exact Hcc|]. split; [exact Hcl'|].
  rewrite Hcs, (caseIDToIndexMap_lookup coll i x) by done.
  by apply insertAt_filter.
Qed.

End UndoDelete.

(** *** Examples *)

(** The round trip at person 13 of the one family: the new person, 14, has
    the values and the parent of 13 and stands in its place. *)
Example undo_deleteCases_restores_person :
  ∃ dc2 r2 dc3 c' coll',
    applyChange idleHandler idleHandler idleHandler idleHandler idleHandler idleHandler 1
      (deleteChange [13]) (contextOf oneFamily) = Some (dc2, r2) ∧
    UndoHistory_undo idleHandler idleHandler idleHandler idleHandler idleHandler idleHandler 1
      dc2 = Some dc3 ∧
    store (hierarchy dc3) !! 14 = Some c' ∧
    _valuesMap c' = {[ 2 := VString "Smith"; 3 := VString "Cy" ]} ∧
    case_parent c' = Some 10 ∧
    _collectionClients (hierarchy dc3) !! 2 = Some coll' ∧
    casesController coll' = [11; 12; 14].
Proof.
  destruct (undo_deleteCases_restores
              idleHandler idleHandler idleHandler idleHandler idleHandler idleHandler
              0 (contextOf oneFamily) 13
              (mkCaseOf 13 2 (Some 10) [] [(2, VString "Smith"); (3, VString "Cy")])
              {| parentCollectionID := Some 1; attributeIDs := [2; 3];
                 casesController := [11; 12; 13]; selection := ∅ |}
              2 [VString "Smith"; VString "Cy"])
    as (dc2&r2&dc3&c'&coll'&Hdel&Hundo&_&Hc'&_&Hv&Hp&_&Hcl&Hcs).
  - vm_compute; reflexivity.
  - reflexivity.
  - reflexivity.
  - vm_compute; reflexivity.
  - cbn. repeat constructor; set_solver.
  - reflexivity.
  - intros p [= <-]. split; [lia|]. eexists. vm_compute; reflexivity.
  - cbn. repeat constructor.
  - cbn. lia.
  - vm_compute; reflexivity.
  - exists dc2, r2, dc3, c', coll'. split; [exact Hdel|]. split; [exact Hundo|].
    split; [exact Hc'|]. split; [rewrite Hv; vm_compute; reflexivity|].
    split; [exact Hp|]. split; [exact Hcl|]. exact Hcs.
Qed.

(** A person is created under family 10, deleted, and the deletion is
    undone: the new person has another id, the values and the parent of the
    deleted one, and its place among the people.  The attributes of "People"
    are listed in ascending order of their ids. *)
Example undo_deleteCases_example :
  ∃ dc1 r1 dc2 r2 dc3 c c',
    applyChange idleHandler idleHandler idleHandler idleHandler idleHandler idleHandler 2
      (createCaseChange (Some (ByName "People")) (ParentID 10) [VString "Dee"])
      (contextOf oneFamily) = Some (dc1, r1) ∧
    caseID r1 = Some 14 ∧ store (hierarchy dc1) !! 14 = Some c ∧
    casesController <$> _collectionClients (hierarchy dc1) !! 2 = Some [11; 12; 13; 14] ∧
    applyChange idleHandler idleHandler idleHandler idleHandler idleHandler idleHandler 2
      (deleteChange [14]) dc1 = Some (dc2, r2) ∧
    UndoHistory_undo idleHandler idleHandler idleHandler idleHandler idleHandler idleHandler 2
      dc2 = Some dc3 ∧
    casesController <$> _collectionClients (hierarchy dc3) !! 2 = Some [11; 12; 13; 15] ∧
    store (hierarchy dc3) !! 15 = Some c' ∧
    _valuesMap c' = _valuesMap c ∧ case_parent c' = case_parent c ∧
    children <$> store (hierarchy dc3) !! 10 = Some [11; 12; 13; 15].
Proof.
  eexists _, _, _, _, _, _, _.
  repeat (split; [vm_compute; reflexivity|]). vm_compute; reflexivity.
Qed.

(** C6, at a failing input.  In "Trials" attribute 2 is listed before
    attribute 1.  A case is created with the values "a" and 1, deleted, and
    the deletion is undone.  The undo reads the values out of the old values
    map in the order of the attribute ids (1, then 2) and hands them to the
    creation, which assigns them in the order of the attributes (2, then
    1): the new case is at the place of the old one, with the two values
    exchanged. *)
Theorem undo_deleteCases_reordered_attributes :
  ∃ dc1 r1 dc2 r2 dc3 c c',
    applyChange idleHandler idleHandler idleHandler idleHandler idleHandler idleHandler 2
      (createCaseChange (Some (ByName "Trials")) ParentUndefined [VString "a"; VNumber 1])
      (contextOf (trials [2; 1])) = Some (dc1, r1) ∧
    caseID r1 = Some 11 ∧ store (hierarchy dc1) !! 11 = Some c ∧
    _valuesMap c = {[ 2 := VString "a"; 1 := VNumber 1 ]} ∧
    casesController <$> _collectionClients (hierarchy dc1) !! 1 = Some [10; 11] ∧
    applyChange idleHandler idleHandler idleHandler idleHandler idleHandler idleHandler 2
      (deleteChange [11]) dc1 = Some (dc2, r2) ∧
    UndoHistory_undo idleHandler idleHandler idleHandler idleHandler idleHandler idleHandler 2
      dc2 = Some dc3 ∧
    casesController <$> _collectionClients (hierarchy dc3) !! 1 = Some [10; 12] ∧
    store (hierarchy dc3) !! 12 = Some c' ∧
    _valuesMap c' = {[ 2 := VNumber 1; 1 := VString "a" ]} ∧
    _valuesMap c' ≠ _valuesMap c.
Proof.
  eexists _, _, _, _, _, _, _.
  repeat (split; [vm_compute; reflexivity|]).
  intros H. apply (f_equal (λ m : gmap nat Value, m !! 2)) in H.
  vm_compute in H. discriminate H.
Qed.

(* ===================================================================== *)
(** * Further properties *)
(* ===================================================================== *)

(** ** The change log as its clients read it *)


Section ChangeLog.
Context (doCreateCollection doUpdateCases doCreateAttributes doUpdateAttributes
         doDeleteAttributes doResetCollections
           : Change → Hierarchy → option (Change * Hierarchy * Result)).

#[local] Abbreviation applyChange' :=
  (applyChange doCreateCollection doUpdateCases doCreateAttributes
     doUpdateAttributes doDeleteAttributes doResetCollections).
#[local] Abbreviation run' :=
  (run doCreateCollection doUpdateCases doCreateAttributes
     doUpdateAttributes doDeleteAttributes doResetCollections).




End ChangeLog.


(** ** The collections of a data context *)

Lemma collectionBefore_absent h x colls prev :
  (∀ a, x = Some a → a ∉ colls.*1) → collectionBefore h x colls prev = None.
Proof.
  revert prev. induction colls as [|[c nm] colls IH]; intros prev Hx; [done|].
  simpl. destruct (decide (Some c = x)) as [<-|Hne].
  - exfalso. apply (Hx c eq_refl). by left.
  - apply IH. intros a Ha Hin. apply (Hx a Ha). by right.
Qed.

Lemma collectionBefore_found h a na l1 l2 prev :
  a ∉ l1.*1 →
  collectionBefore h (Some a) (l1 ++ (a, na) :: l2) prev =
    match last l1 with
    | Some (p, _) => clientOf h p
    | None => prev ≫= clientOf h
    end.
Proof.
  revert prev. induction l1 as [|[c nm] l1 IH]; intros prev Ha; simpl.
  - by rewrite decide_True.
  - rewrite fmap_cons in Ha. simpl in Ha. apply not_elem_of_cons in Ha as [Hne Ha].
    rewrite decide_False by congruence. rewrite IH by done.
    destruct l1 as [|q l1]; [done|]. rewrite last_cons_cons.
    destruct (last (q :: l1)) as [[p ?]|] eqn:E; [done|]. by apply last_None in E.
Qed.

(** X2.  In a data context whose collections have distinct ids,
    [getParentCollection] and [getChildCollection] step between neighbours:
    of two collections that follow each other, the first is the parent of
    the second and the second the child of the first (when it has a client);
    the first collection has no parent, the last one no child; and a
    collection that is not of the context, or none, has neither. *)
Theorem getParentCollection_getChildCollection h :
  NoDup (collections h).*1 →
  (∀ l1 a na b nb l2,
     collections h = l1 ++ (a, na) :: (b, nb) :: l2 →
     getParentCollection h (Some b) = clientOf h a ∧
     getChildCollection h (Some a) = clientOf h b) ∧
  (∀ a na l, collections h = (a, na) :: l → getParentCollection h (Some a) = None) ∧
  (∀ l z nz, collections h = l ++ [(z, nz)] → getChildCollection h (Some z) = None) ∧
  (∀ x, (∀ a, x = Some a → a ∉ (collections h).*1) →
        getParentCollection h x = None ∧ getChildCollection h x = None).
Proof.
  intros Hnd. unfold getParentCollection, getChildCollection.
  split; [|split; [|split]].
  - intros l1 a na b nb l2 H.
    rewrite H in Hnd |- *. rewrite fmap_app, !fmap_cons in Hnd. simpl in Hnd.
    apply NoDup_app in Hnd as (_&Hd&Hnd2). apply NoDup_cons in Hnd2 as [Hab Hnd3].
    split.
    + replace (l1 ++ (a, na) :: (b, nb) :: l2) with ((l1 ++ [(a, na)]) ++ (b, nb) :: l2)
        by by rewrite <- app_assoc.
      rewrite collectionBefore_found; [by rewrite last_snoc|].
      rewrite fmap_app. simpl.
      intros [Hin|Hin%list_elem_of_singleton]%elem_of_app.
      * apply (Hd b Hin). by right; left.
      * subst. apply Hab. by left.
    + rewrite reverse_app, !reverse_cons, <- !app_assoc. simpl.
      replace (reverse l2 ++ (b, nb) :: (a, na) :: reverse l1)
        with ((reverse l2 ++ [(b, nb)]) ++ (a, na) :: reverse l1) by by rewrite <- app_assoc.
      rewrite collectionBefore_found; [by rewrite last_snoc|].
      rewrite fmap_app, fmap_reverse. simpl.
      intros [Hin|Hin%list_elem_of_singleton]%elem_of_app.
      * rewrite elem_of_reverse in Hin. apply Hab, elem_of_cons. by right.
      * subst. apply Hab, elem_of_cons. by left.
  - intros a na l ->. simpl. by rewrite decide_True.
  - intros l z nz ->. rewrite reverse_app. simpl. by rewrite decide_True.
  - intros x Hx. split; apply collectionBefore_absent; [done|].
    intros a Ha. rewrite fmap_reverse, elem_of_reverse. by apply Hx.
Qed.

Lemma getParentCollection_getChildCollection_witness :
  getParentCollection oneFamily (Some 2) = Some 1 ∧
  getChildCollection oneFamily (Some 1) = Some 2.
Proof.
  assert (NoDup (collections oneFamily).*1) as Hnd
    by (cbn; repeat constructor; set_solver).
  destruct (getParentCollection_getChildCollection oneFamily Hnd) as [H _].
  destruct (H [] 1 "Families" 2 "People" [] eq_refl) as [H1 H2].
  split; [rewrite H1|rewrite H2]; reflexivity.
Defined.
Lemma childCollectionID_at_index h :
  childCollectionID h = getCollectionAtIndex h (Z.of_nat (collectionCount h) - 1).
Proof.
  unfold childCollectionID, getCollectionAtIndex, objectAt, collectionCount, clientOf.
  destruct (Z.ltb_spec (Z.of_nat (length (collections h)) - 1)
              (Z.of_nat (length (collections h)))); [|lia].
  rewrite last_lookup.
  destruct (collections h) as [|p l]; [done|].
  destruct (Z.ltb_spec (Z.of_nat (length (p :: l)) - 1) 0); [simpl in *; lia|].
  replace (Z.to_nat (Z.of_nat (length (p :: l)) - 1)) with (pred (length (p :: l)))
    by (simpl; lia).
  done.
Qed.

(** X3.  [parentCollection], found by its index, is the parent that
    [getParentCollection] finds for the child collection, in a data context
    whose collections have distinct ids and whose last collection has a
    client; with fewer than two collections there is none. *)
Theorem parentCollection_of_childCollection h :
  NoDup (collections h).*1 →
  (∀ cid nm, last (collections h) = Some (cid, nm) → is_Some (_collectionClients h !! cid)) →
  parentCollection h = getParentCollection h (childCollectionID h) ∧
  (collectionCount h < 2 → parentCollection h = None).
Proof.
  intros Hnd Hlast.
  unfold parentCollection, getParentCollection, getCollectionAtIndex, objectAt, collectionCount.
  destruct (collections h) as [|p l] eqn:Hc using rev_ind.
  { unfold childCollectionID. rewrite Hc. done. }
  clear IHl. destruct p as [z nz].
  destruct (Hlast z nz) as [collz Hz]; [by rewrite last_snoc|].
  unfold childCollectionID. rewrite Hc, last_snoc, Hz.
  rewrite fmap_app in Hnd. simpl in Hnd.
  apply NoDup_app in Hnd as (_&Hd&_).
  rewrite collectionBefore_found
    by (intros Hin; apply (Hd z Hin); by apply list_elem_of_singleton).
  rewrite length_app. simpl.
  replace (length l + 1 =? 0) with false by (symmetry; apply Nat.eqb_neq; lia).
  destruct (Z.ltb_spec (Z.of_nat (length l + 1) - 2) (Z.of_nat (length l + 1))); [|lia].
  destruct l as [|q l] using rev_ind; [simpl; split; [done|]; done|].
  clear IHl. rewrite last_snoc, length_app. simpl.
  destruct (Z.ltb_spec (Z.of_nat (length l + 1 + 1) - 2) 0); [lia|].
  replace (Z.to_nat (Z.of_nat (length l + 1 + 1) - 2)) with (length l) by lia.
  rewrite <- app_assoc. simpl. rewrite list_lookup_middle by done.
  destruct q as [q nq]. split; [done|]. lia.
Qed.

Lemma parentCollection_of_childCollection_witness :
  parentCollection oneFamily = getParentCollection oneFamily (childCollectionID oneFamily).
Proof.
  apply (parentCollection_of_childCollection oneFamily).
  - cbn. repeat constructor; set_solver.
  - intros cid nm [= <- <-]. eexists. vm_compute; reflexivity.
Defined.

(** X4.  [getCollectionByName] finds the first collection of that name:
    for a collection at index [i] with no collection of its name before it,
    the lookup by name and [getCollectionAtIndex i] give the same client
    (none, when the collection has no client); a name that no collection has
    gives [null]; and an index that is negative or not below the number of
    collections gives [null]. *)
Theorem getCollectionByName_at_index h :
  (∀ i cid nm,
     collections h !! i = Some (cid, nm) →
     (∀ j p, j < i → collections h !! j = Some p → p.2 ≠ nm) →
     getCollectionByName h nm = getCollectionAtIndex h (Z.of_nat i) ∧
     getCollectionAtIndex h (Z.of_nat i) = clientOf h cid) ∧
  (∀ nm, nm ∉ (collections h).*2 → getCollectionByName h nm = None) ∧
  (∀ i : Z, (i < 0 ∨ Z.of_nat (collectionCount h) ≤ i)%Z → getCollectionAtIndex h i = None).
Proof.
  split; [|split].
  - intros i cid nm Hi Hfirst.
    assert (getCollectionAtIndex h (Z.of_nat i) = clientOf h cid) as Hat.
    { unfold getCollectionAtIndex, objectAt, collectionCount.
      pose proof (lookup_lt_Some _ _ _ Hi).
      destruct (Z.ltb_spec (Z.of_nat i) (Z.of_nat (length (collections h)))); [|lia].
      destruct (Z.ltb_spec (Z.of_nat i) 0); [lia|].
      by rewrite Nat2Z.id, Hi. }
    split; [|done]. rewrite Hat. unfold getCollectionByName, clientOf.
    assert (list_find (λ p, p.2 = nm) (collections h) = Some (i, (cid, nm))) as ->; [|done].
    apply list_find_Some. split; [done|]. split; [done|].
    intros j p Hj Hlt. by eapply Hfirst.
  - intros nm Hnm. unfold getCollectionByName.
    destruct (list_find _ _) as [[i [cid nm']]|] eqn:E; [|done].
    apply list_find_Some in E as (Hi&Heq&_). simpl in Heq. subst nm'.
    exfalso. apply Hnm. apply list_elem_of_fmap. exists (cid, nm). split; [done|].
    by eapply list_elem_of_lookup_2.
  - intros i Hi. unfold getCollectionAtIndex, objectAt.
    destruct (Z.ltb_spec i (Z.of_nat (collectionCount h))); [|done].
    destruct (Z.ltb_spec i 0); [done|lia].
Qed.

(** ** The selected cases of a data context *)

Lemma elem_of_getSelectedCases h k :
  k ∈ getSelectedCases h ↔
  ∃ cid coll, cid ∈ (collections h).*1 ∧ _collectionClients h !! cid = Some coll ∧
              k ∈ selection coll.
Proof.
  unfold getSelectedCases. rewrite list_elem_of_In, in_flat_map. split.
  - intros (i&Hi%list_elem_of_In&Hk%list_elem_of_In). apply elem_of_seq in Hi as [_ Hi].
    unfold getCollectionAtIndex, objectAt, clientOf, collectionCount in *. simpl in Hi.
    destruct (Z.ltb_spec (Z.of_nat i) (Z.of_nat (length (collections h)))); [|lia].
    destruct (Z.ltb_spec (Z.of_nat i) 0); [lia|]. rewrite Nat2Z.id in Hk.
    destruct (collections h !! i) as [[cid nm]|] eqn:Hl; [|by apply elem_of_nil in Hk].
    destruct (_collectionClients h !! cid) as [coll|] eqn:Hc; [|by apply elem_of_nil in Hk].
    rewrite Hc in Hk. apply elem_of_elements in Hk.
    exists cid, coll. split; [|done]. apply list_elem_of_fmap. exists (cid, nm).
    split; [done|]. by eapply list_elem_of_lookup_2.
  - intros (cid&coll&Hcid&Hc&Hk).
    apply list_elem_of_fmap in Hcid as ([cid' nm]&Heq&Hin). simpl in Heq. subst cid'.
    apply list_elem_of_lookup_1 in Hin as [i Hi].
    pose proof (lookup_lt_Some _ _ _ Hi).
    exists i. split; [apply list_elem_of_In, elem_of_seq; unfold collectionCount; lia|].
    apply list_elem_of_In.
    unfold getCollectionAtIndex, objectAt, clientOf, collectionCount.
    destruct (Z.ltb_spec (Z.of_nat i) (Z.of_nat (length (collections h)))); [|lia].
    destruct (Z.ltb_spec (Z.of_nat i) 0); [lia|]. rewrite Nat2Z.id, Hi, Hc, Hc.
    by apply elem_of_elements.
Qed.

Lemma doSelectCases_collections fuel iChange dc iChange' dc' res :
  doSelectCases fuel iChange dc = Some (iChange', dc', res) →
  collections (hierarchy dc') = collections (hierarchy dc) ∧
  store (hierarchy dc') = store (hierarchy dc).
Proof.
  unfold doSelectCases, finishSelection. intros H.
  repeat (case_match; simplify_eq); done.
Qed.

(** [doSelectCases] gives no collection a client. *)
Lemma doSelectCases_clients fuel iChange dc iChange' dc' res cid :
  doSelectCases fuel iChange dc = Some (iChange', dc', res) →
  is_Some (_collectionClients (hierarchy dc') !! cid) →
  is_Some (_collectionClients (hierarchy dc) !! cid).
Proof.
  unfold doSelectCases. intros H.
  destruct (selectCollection _ _) as [tCollection|]; [|done].
  assert (Hfin : ∀ cl ext changed,
            is_Some (_collectionClients
                       (hierarchy (finishSelection iChange dc (cl, ext) changed)) !! cid) →
            is_Some (cl !! cid)).
  { intros cl ext changed. rewrite finishSelection_clients.
    destruct (decide _); [|done]. by rewrite fmap_is_Some. }
  destruct (tCasesOf _ _ _) as [l|].
  2:{ injection H as <- <- <-. apply (Hfin (_collectionClients (hierarchy dc)) ∅ false). }
  destruct (walkCases _ _ _ _) as [v|] eqn:Hv; [|done]. injection H as <- <- <-.
  destruct (applySelection (hierarchy dc) iChange v) as [cl ext] eqn:Happ.
  intros Hsome%Hfin. revert Happ Hsome.
  destruct (walkCases_inv _ _ _ _ _ Hv) as (Hext&_&_).
  unfold applySelection. rewrite Hext. destruct (select iChange).
  - destruct (doSelectByCollection_spec (extend iChange) (tCollectionSelectionMap v)
                (_collectionClients (hierarchy dc))) as [_ Hs1].
    intros Happ. rewrite Happ in Hs1. simpl in Hs1. rewrite Hs1.
    destruct (tCollectionSelectionMap v !! cid); [|done]. by rewrite fmap_is_Some.
  - intros [= <- _]. rewrite doDeselectByCollection_spec.
    destruct (tCollectionSelectionMap v !! cid); [|done]. by rewrite fmap_is_Some.
Qed.

(** X5.  [getSelectedCases] after a [selectCases] change.  When the
    change selects, every walked case (a case of the change or one of its
    descendants) whose collection is one of the data context is among the
    selected cases afterwards.  When the change deselects without [extend]
    and a change is detected, no case is selected afterwards, in a data
    context without a collection of id 0. *)
Theorem selectCases_getSelectedCases fuel iChange dc tCollection :
  selectCollection (hierarchy dc) iChange = Some tCollection →
  walkable (hierarchy dc) fuel (default [] (tCasesOf (hierarchy dc) iChange tCollection)) →
  ∃ dc',
    doSelectCases fuel iChange dc =
      Some (iChange, dc', {| success := true; caseIDs := None; caseID := None |}) ∧
    (select iChange = true →
     ∀ k0 k c,
       k0 ∈ default [] (tCasesOf (hierarchy dc) iChange tCollection) →
       walkedFrom (hierarchy dc) k0 k → store (hierarchy dc) !! k = Some c →
       case_collection c ∈ (collections (hierarchy dc)).*1 →
       k ∈ getSelectedCases (hierarchy dc')) ∧
    (select iChange = false → extend iChange = false →
     changeDetected (hierarchy dc) false
       (default [] (tCasesOf (hierarchy dc) iChange tCollection)) →
     0 ∉ (collections (hierarchy dc)).*1 →
     getSelectedCases (hierarchy dc') = []).
Proof.
  intros Hc Hw.
  destruct (doSelectCases_selection fuel iChange dc tCollection Hc Hw) as (dc'&Hdo&_&Hsel).
  exists dc'. split; [done|].
  destruct (doSelectCases_collections _ _ _ _ _ _ Hdo) as [Hcolls _].
  split.
  - intros Hs k0 k c Hk0 Hwalked Hst Hin.
    destruct (walkedFrom_client _ _ _ Hwalked) as (c'&coll&Hc'&Hcoll).
    rewrite Hst in Hc'. injection Hc' as <-.
    destruct (Hsel _ coll Hcoll) as (coll'&Hcoll'&Hk).
    apply elem_of_getSelectedCases. rewrite Hcolls.
    exists (case_collection c), coll'. split; [done|]. split; [done|].
    rewrite (Hk k), Hs.
    assert (walkedCase (hierarchy dc)
              (default [] (tCasesOf (hierarchy dc) iChange tCollection))
              (case_collection c) k) as Hwc by (by exists k0, c).
    split; [by left|]. left. by exists k.
  - intros Hs Hext Hd H0.
    destruct (getSelectedCases _) as [|x l] eqn:E; [done|]. exfalso.
    assert (x ∈ x :: l) as Hx by by left. rewrite <- E in Hx.
    apply elem_of_getSelectedCases in Hx as (cid&coll'&Hcid&Hcl&Hx). rewrite Hcolls in Hcid.
    destruct (doSelectCases_clients _ _ _ _ _ _ cid Hdo) as [coll Hcoll]; [by eexists|].
    destruct (Hsel _ coll Hcoll) as (coll''&Hcoll''&Hk).
    rewrite Hcl in Hcoll''. injection Hcoll'' as <-.
    apply (Hk x) in Hx. rewrite Hs in Hx. destruct Hx as (_&_&Hn). apply Hn.
    unfold clearedByPass. rewrite Hs. repeat split; try done. intros ->. by apply H0.
Qed.

Lemma selectCases_getSelectedCases_witness :
  ∃ dc', doSelectCases 2 (selectChange [10] true false) (contextOf oneFamily) =
           Some (selectChange [10] true false, dc',
                 {| success := true; caseIDs := None; caseID := None |}) ∧
         12 ∈ getSelectedCases (hierarchy dc').
Proof.
  destruct (selectCases_getSelectedCases 2 (selectChange [10] true false)
              (contextOf oneFamily) (Some 2) eq_refl)
    as (dc'&Hdo&Hsel&_).
  - apply (walkableCheck_sound _ _ _ familyRank). vm_compute; reflexivity.
  - exists dc'. split; [exact Hdo|].
    assert (H12 : store oneFamily !! 12 =
                  Some (mkCaseOf 12 2 (Some 10) [] [(2, VString "Smith"); (3, VString "Bob")]))
      by (vm_compute; reflexivity).
    apply (Hsel eq_refl 10 12
             (mkCaseOf 12 2 (Some 10) [] [(2, VString "Smith"); (3, VString "Bob")])
             (list_elem_of_here _ _)); [|exact H12|cbn; set_solver].
    eapply walkedFrom_child;
      [vm_compute; reflexivity|eexists; vm_compute; reflexivity
      |apply list_elem_of_further, list_elem_of_here|].
    eapply walkedFrom_self; [exact H12|]. eexists. vm_compute; reflexivity.
Defined.

(** ** Rows, groups and counts of the case table *)

Lemma Array_indexOf_spec (l : list nat) x :
  (-1 ≤ Array_indexOf l x < Z.of_nat (length l))%Z ∧
  (∀ r, Array_indexOf l x = Z.of_nat r ↔ l !! r = Some x ∧ ∀ j, j < r → l !! j ≠ Some x) ∧
  (Array_indexOf l x = (-1)%Z ↔ x ∉ l).
Proof.
  unfold Array_indexOf. destruct (list_find _ l) as [[i y]|] eqn:E.
  - apply list_find_Some in E as (Hi&->&Hfirst).
    pose proof (lookup_lt_Some _ _ _ Hi). split; [lia|]. split.
    + intros r. split.
      * intros ->%Nat2Z.inj. split; [done|]. intros j Hj Hl. by apply (Hfirst j x).
      * intros [Hr Hr']. f_equal.
        destruct (Nat.lt_total i r) as [Hlt|[->|Hlt]]; [|done|].
        -- by destruct (Hr' i Hlt).
        -- by destruct (Hfirst r x Hr Hlt).
    + split; [lia|]. intros Hx. exfalso. apply Hx. by eapply list_elem_of_lookup_2.
  - apply list_find_None in E. split; [lia|]. split.
    + intros r. split; [lia|]. intros [Hr _]. exfalso.
      rewrite Forall_forall in E. apply (E x); [by eapply list_elem_of_lookup_2|done].
    + split; [|done]. intros _ Hx. rewrite Forall_forall in E. by apply (E x).
Qed.

(** X6.  [getRowById] and [getItem]: the row found holds the case, and is
    the first row that does; the answer is -1 exactly when the store does
    not find the case (it is unknown or destroyed) or no row holds it; and
    the answer is never outside of -1 and the rows of the table. *)
Theorem getRowById_getItem h m iCaseID :
  (-1 ≤ getRowById h m iCaseID < Z.of_nat (getLength m))%Z ∧
  (∀ r, getRowById h m iCaseID = Z.of_nat r →
        getItem m r = Some iCaseID ∧ is_Some (getCaseByID h iCaseID) ∧
        ∀ j, j < r → getItem m j ≠ Some iCaseID) ∧
  (∀ r, is_Some (getCaseByID h iCaseID) → getItem m r = Some iCaseID →
        (∀ j, j < r → getItem m j ≠ Some iCaseID) →
        getRowById h m iCaseID = Z.of_nat r) ∧
  (getRowById h m iCaseID = (-1)%Z ↔
   getCaseByID h iCaseID = None ∨ iCaseID ∉ _rowCaseMap m).
Proof.
  unfold getRowById, getLength, getItem.
  destruct (Array_indexOf_spec (_rowCaseMap m) iCaseID) as (Hrange&Hrow&Hnone).
  destruct (getCaseByID h iCaseID) as [c|] eqn:Hc.
  - split; [done|]. split; [|split].
    + intros r Hr. apply Hrow in Hr as [H1 H2]. split; [done|]. split; [by eexists|done].
    + intros r _ H1 H2. by apply Hrow.
    + rewrite Hnone. split; [by right|]. by intros [?|?].
  - split; [lia|]. split; [|split].
    + intros r Hr. lia.
    + by intros r [? ?].
    + split; [by left|done].
Qed.

Lemma forEachM_app {A S} (f : A → S → option S) l1 l2 s :
  forEachM f (l1 ++ l2) s = forEachM f l1 s ≫= forEachM f l2.
Proof.
  revert s. induction l1 as [|x l1 IH]; intros s; simpl; [done|].
  destruct (f x s); [apply IH|done].
Qed.

Lemma forEachM_count {A} (f : A → option nat) l ns c0 :
  Forall2 (λ x n, f x = Some n) l ns →
  forEachM (λ x count, match f x with Some n => Some (count + n) | None => None end) l c0
  = Some (c0 + sum_list ns).
Proof.
  intros H. revert c0. induction H as [|x n l ns Hx H IH]; intros c0; simpl.
  - f_equal. lia.
  - rewrite Hx, IH. f_equal. lia.
Qed.

Section Levelled.
Variables (h : Hierarchy) (C : nat).

(** A table on [C] with nothing collapsed shows the cases of the last
    level, and [subcaseCount] of a case counts those below it. *)
Lemma subcaseCount_levelled m m0 depth :
  table_collection m = Some C → collapsedNodes m0 = ∅ →
  ∀ nodes fuel, levelled h C depth nodes → depth < fuel →
    ∃ ns full,
      Forall2 (λ x n, subcaseCount fuel h m x = Some n) nodes ns ∧
      (∀ acc, visit h m0 depth nodes acc = Some (acc ++ full)) ∧
      sum_list ns = length full.
Proof.
  intros Ht H0. induction depth as [|depth IH]; intros nodes fuel Hlev Hfuel.
  - exists (replicate (length nodes) 1), nodes. simpl in Hlev. split; [|split; [done|]].
    + induction Hlev as [|x l (c&Hc&Hcoll) _ IHl]; [constructor|]. simpl. constructor; [|done].
      destruct fuel as [|fuel]; [lia|]. simpl. by rewrite Hc, Ht, decide_True.
    + clear. induction nodes as [|x l IHl]; simpl; [done|]. by rewrite IHl.
  - simpl in Hlev. destruct fuel as [|fuel]; [lia|].
    induction Hlev as [|x l (c&Hc&Hcoll&Hkids) _ IHl].
    { exists [], []. split; [constructor|]. split; [|done]. intros acc. simpl.
      by rewrite app_nil_r. }
    destruct IHl as (ns&full&Hns&Hfull&Hsum).
    destruct (IH (children c) fuel Hkids ltac:(lia)) as (nsc&fullc&Hnsc&Hfullc&Hsumc).
    exists (sum_list nsc :: ns), (fullc ++ full). split; [|split].
    + constructor; [|done]. simpl. rewrite Hc, Ht, decide_False by done.
      by rewrite (forEachM_count _ _ _ _ Hnsc).
    + intros acc. simpl. unfold isCollapsedNode at 1. rewrite H0.
      rewrite bool_decide_eq_false_2 by apply not_elem_of_empty.
      rewrite Hc, Hfullc. simpl in Hfull. rewrite Hfull. by rewrite app_assoc.
    + simpl. rewrite length_app. lia.
Qed.

(** The rows of a table on [C], whatever is collapsed: each row is a case
    of the store, a row of another collection than [C] is a collapsed case,
    and the counts of the rows add up to the number of rows of the table
    with nothing collapsed. *)
Lemma visit_levelled m m0 depth :
  table_collection m = Some C → collapsedNodes m0 = ∅ →
  ∀ nodes fuel, levelled h C depth nodes → depth < fuel →
    ∃ rows ns full,
      (∀ acc, visit h m depth nodes acc = Some (acc ++ rows)) ∧
      Forall2 (λ x n, subcaseCount fuel h m x = Some n) rows ns ∧
      (∀ acc, visit h m0 depth nodes acc = Some (acc ++ full)) ∧
      sum_list ns = length full ∧
      Forall (λ k, ∃ c, store h !! k = Some c ∧
                        (case_collection c ≠ C → k ∈ collapsedNodes m)) rows ∧
      (collapsedNodes m = ∅ → rows = full).
Proof.
  intros Ht H0. induction depth as [|depth IH]; intros nodes fuel Hlev Hfuel.
  - destruct (subcaseCount_levelled m m0 0 Ht H0 nodes fuel Hlev Hfuel)
      as (ns&full&Hns&Hfull&Hsum).
    assert (full = nodes) as ->.
    { specialize (Hfull []). simpl in Hfull. by injection Hfull. }
    exists nodes, ns, nodes. repeat split; try done.
    simpl in Hlev. eapply Forall_impl; [exact Hlev|]. simpl.
    intros k (c&Hc&Hcoll). exists c. split; [done|]. by intros Hne.
  - pose proof Hlev as Hlev0. simpl in Hlev.
    induction Hlev as [|x l (c&Hc&Hcoll&Hkids) Hl IHl].
    { exists [], [], []. repeat split; try constructor; intros acc; simpl;
        by rewrite app_nil_r. }
    destruct IHl as (rows&ns&full&Hrows&Hns&Hfull&Hsum&Hall&Hsame).
    { simpl. done. }
    destruct (decide (x ∈ collapsedNodes m)) as [Hx|Hx].
    + destruct (subcaseCount_levelled m m0 (S depth) Ht H0 [x] fuel) as (nsx&fullx&Hnsx&Hfullx&Hsumx);
        [simpl; constructor; [by exists c|constructor]|done|].
      apply Forall2_cons_inv_l in Hnsx as (nx&nsx'&Hnx&Hnil&->).
      apply Forall2_nil_inv_l in Hnil as ->.
      exists (x :: rows), (nx :: ns), (fullx ++ full). repeat split.
      * intros acc. simpl. unfold isCollapsedNode at 1.
        rewrite bool_decide_eq_true_2 by done.
        simpl in Hrows. rewrite Hrows. by rewrite <- app_assoc.
      * by constructor.
      * intros acc. change (x :: l) with ([x] ++ l).
        change (visit h m0 (S depth) ([x] ++ l) acc)
          with (forEachM (λ node acc0,
                  if isCollapsedNode m0 node then Some (acc0 ++ [node])
                  else match store h !! node with
                       | Some c0 => visit h m0 depth (children c0) acc0
                       | None => None
                       end) ([x] ++ l) acc).
        rewrite forEachM_app.
        change (forEachM _ [x] acc) with (visit h m0 (S depth) [x] acc).
        rewrite Hfullx. simpl. simpl in Hfull. rewrite Hfull. by rewrite app_assoc.
      * simpl in *. rewrite length_app. lia.
      * constructor; [|done]. exists c. by split.
      * intros He. rewrite He in Hx. by apply not_elem_of_empty in Hx.
    + destruct (IH (children c) fuel Hkids ltac:(lia))
        as (rowsc&nsc&fullc&Hrowsc&Hnsc&Hfullc&Hsumc&Hallc&Hsamec).
      exists (rowsc ++ rows), (nsc ++ ns), (fullc ++ full). repeat split.
      * intros acc. simpl. unfold isCollapsedNode at 1.
        rewrite bool_decide_eq_false_2 by done.
        rewrite Hc, Hrowsc. simpl in Hrows. rewrite Hrows. by rewrite app_assoc.
      * by apply Forall2_app.
      * intros acc. simpl. unfold isCollapsedNode at 1. rewrite H0.
        rewrite bool_decide_eq_false_2 by apply not_elem_of_empty.
        rewrite Hc, Hfullc. simpl in Hfull. rewrite Hfull. by rewrite app_assoc.
      * rewrite sum_list_with_app, length_app. lia.
      * by apply Forall_app.
      * intros He. by rewrite Hsamec, Hsame.
Qed.

End Levelled.
Lemma subcaseCount_table fuel h m1 m2 k :
  table_collection m1 = table_collection m2 →
  subcaseCount fuel h m1 k = subcaseCount fuel h m2 k.
Proof.
  intros Ht. revert k. induction fuel as [|fuel IH]; intros k; [done|]. simpl.
  rewrite Ht. destruct (store h !! k) as [c|]; [|done].
  destruct (table_collection m2) as [cid|]; [|done].
  destruct (decide _) as [|Hne]; [done|].
  generalize 0. induction (children c) as [|x l IHl]; intros cnt; simpl; [done|].
  rewrite IH. destruct (subcaseCount fuel h m2 x); [apply IHl|done].
Qed.

Lemma visit_collapsed h m1 m2 depth nodes acc :
  collapsedNodes m1 = collapsedNodes m2 →
  visit h m1 depth nodes acc = visit h m2 depth nodes acc.
Proof.
  intros Hc. revert nodes acc. induction depth as [|depth IH]; intros nodes acc; [done|].
  simpl. revert acc. induction nodes as [|x l IHl]; intros acc; simpl; [done|].
  unfold isCollapsedNode at 1 3. rewrite Hc.
  destruct (bool_decide _); [apply IHl|].
  destruct (store h !! x) as [c|]; [|done]. rewrite IH.
  destruct (visit h m2 depth (children c) acc); [apply IHl|done].
Qed.

(** What a refresh that is not suspended does, given the chain of
    collections and the rows that [visit] assembles. *)
Lemma refresh_rows fuel h m root ancestors rootColl rows :
  suspended m = false →
  makeCollections fuel h (table_collection m) = Some (root :: ancestors) →
  _collectionClients h !! root = Some rootColl →
  visit h m (length ancestors) (casesController rootColl) [] = Some rows →
  ∃ m', refresh fuel h m = Some m' ∧ _rowCaseMap m' = rows ∧
        collapsedNodes m' = collapsedNodes m ∧ table_collection m' = table_collection m ∧
        suspended m' = false ∧ refreshNeeded m' = false.
Proof.
  intros Hs Hm Hr Hv. unfold refresh. rewrite Hs, Hm, Hr, Hv.
  eexists. split; [reflexivity|]. done.
Qed.

(** X7.  The counts on the rows of a table.  In a hierarchy whose levels
    are those of the chain of collections of the table, a refresh returns,
    [subcaseCount] returns for the case of every row, and these counts add up
    to the number of rows that the table has when nothing is collapsed: a
    collapsed row stands for as many rows as it counts. *)
Theorem refresh_subcaseCount fuel h m C root ancestors rootColl :
  suspended m = false → table_collection m = Some C →
  makeCollections fuel h (Some C) = Some (root :: ancestors) →
  _collectionClients h !! root = Some rootColl →
  levelled h C (length ancestors) (casesController rootColl) →
  length ancestors < fuel →
  ∃ m' mfull ns,
    refresh fuel h m = Some m' ∧
    Forall2 (λ k n, subcaseCount fuel h m' k = Some n) (_rowCaseMap m') ns ∧
    refresh fuel h (set_collapsedNodes ∅ m) = Some mfull ∧
    sum_list ns = getLength mfull ∧
    (collapsedNodes m = ∅ → _rowCaseMap m' = _rowCaseMap mfull).
Proof.
  intros Hs Ht Hm Hr Hlev Hfuel.
  destruct (visit_levelled h C m (set_collapsedNodes ∅ m) (length ancestors) Ht eq_refl
              _ fuel Hlev Hfuel) as (rows&ns&full&Hrows&Hns&Hfull&Hsum&_&Hsame).
  destruct (refresh_rows fuel h m root ancestors rootColl rows Hs) as (m'&Hm'&Hr'&_&Ht'&_);
    [by rewrite Ht|done|apply (Hrows [])|].
  destruct (refresh_rows fuel h (set_collapsedNodes ∅ m) root ancestors rootColl full)
    as (mfull&Hmf&Hrf&_); [done|by simpl; rewrite Ht|done|apply (Hfull [])|].
  exists m', mfull, ns. split; [done|]. split.
  { rewrite Hr'. eapply Forall2_impl; [exact Hns|]. simpl. intros k n <-.
    by apply subcaseCount_table. }
  split; [done|]. unfold getLength. rewrite Hrf, Hr'. split; [done|]. exact Hsame.
Qed.

(** X8.  The metadata of the rows of a table, in such a hierarchy:
    [getItemMetadata] returns for every row of the table, with the group
    metadata exactly on the rows whose case is not of the collection of the
    table, and such a row always stands for a collapsed case; on a row that
    the table does not have, the call fails. *)
Theorem refresh_getItemMetadata fuel h m C root ancestors rootColl :
  suspended m = false → table_collection m = Some C →
  makeCollections fuel h (Some C) = Some (root :: ancestors) →
  _collectionClients h !! root = Some rootColl →
  levelled h C (length ancestors) (casesController rootColl) →
  length ancestors < fuel →
  ∃ m',
    refresh fuel h m = Some m' ∧
    (∀ r k, getItem m' r = Some k →
       ∃ c, store h !! k = Some c ∧
            getItemMetadata h m' r =
              Some (if decide (case_collection c ≠ C) then Some GroupRowMetadata else None) ∧
            (case_collection c ≠ C → isCollapsedNode m' k = true)) ∧
    (∀ r, getLength m' ≤ r → getItemMetadata h m' r = None).
Proof.
  intros Hs Ht Hm Hr Hlev Hfuel.
  destruct (visit_levelled h C m (set_collapsedNodes ∅ m) (length ancestors) Ht eq_refl
              _ fuel Hlev Hfuel) as (rows&ns&full&Hrows&_&_&_&Hall&_).
  destruct (refresh_rows fuel h m root ancestors rootColl rows Hs) as (m'&Hm'&Hr'&Hc'&Ht'&_);
    [by rewrite Ht|done|apply (Hrows [])|].
  exists m'. split; [done|]. split.
  - intros r k Hk. unfold getItemMetadata. rewrite Hk.
    unfold getItem in Hk. rewrite Hr' in Hk.
    rewrite Forall_forall in Hall.
    destruct (Hall k) as (c&Hc&Hcoll); [by eapply list_elem_of_lookup_2|].
    exists c. rewrite Hc, Ht', Ht. repeat split.
    intros Hne. unfold isCollapsedNode. rewrite Hc'. apply bool_decide_eq_true. by apply Hcoll.
  - intros r Hrge. unfold getItemMetadata, getItem. unfold getLength in Hrge.
    by rewrite lookup_ge_None_2.
Qed.
Lemma oneFamily_levelled : levelled oneFamily 2 1 [10].
Proof.
  constructor; [|constructor].
  exists (mkCaseOf 10 1 None [11; 12; 13] [(1, VString "Smith")]).
  split; [vm_compute; reflexivity|]. split; [done|].
  repeat (constructor; [eexists; split; [vm_compute; reflexivity|reflexivity]|]).
  constructor.
Qed.

Lemma refresh_subcaseCount_witness :
  ∃ m' mfull ns,
    refresh 2 oneFamily (collapseGroup oneFamily 10 (caseTableInit (Some 2))) = Some m' ∧
    Forall2 (λ k n, subcaseCount 2 oneFamily m' k = Some n) (_rowCaseMap m') ns ∧
    refresh 2 oneFamily
      (set_collapsedNodes ∅ (collapseGroup oneFamily 10 (caseTableInit (Some 2))))
      = Some mfull ∧
    sum_list ns = getLength mfull ∧
    (collapsedNodes (collapseGroup oneFamily 10 (caseTableInit (Some 2))) = ∅ →
     _rowCaseMap m' = _rowCaseMap mfull).
Proof.
  apply (refresh_subcaseCount 2 oneFamily
           (collapseGroup oneFamily 10 (caseTableInit (Some 2))) 2 1 [2]
           {| parentCollectionID := None; attributeIDs := [1];
              casesController := [10]; selection := ∅ |}).
  - reflexivity.
  - reflexivity.
  - vm_compute; reflexivity.
  - vm_compute; reflexivity.
  - exact oneFamily_levelled.
  - simpl; lia.
Defined.

Lemma refresh_getItemMetadata_witness :
  ∃ m',
    refresh 2 oneFamily (collapseGroup oneFamily 10 (caseTableInit (Some 2))) = Some m' ∧
    (∀ r k, getItem m' r = Some k →
       ∃ c, store oneFamily !! k = Some c ∧
            getItemMetadata oneFamily m' r =
              Some (if decide (case_collection c ≠ 2) then Some GroupRowMetadata else None) ∧
            (case_collection c ≠ 2 → isCollapsedNode m' k = true)) ∧
    (∀ r, getLength m' ≤ r → getItemMetadata oneFamily m' r = None).
Proof.
  apply (refresh_getItemMetadata 2 oneFamily
           (collapseGroup oneFamily 10 (caseTableInit (Some 2))) 2 1 [2]
           {| parentCollectionID := None; attributeIDs := [1];
              casesController := [10]; selection := ∅ |}).
  - reflexivity.
  - reflexivity.
  - vm_compute; reflexivity.
  - vm_compute; reflexivity.
  - exact oneFamily_levelled.
  - simpl; lia.
Defined.

Lemma visit_one_elem h m nodes k :
  ∀ acc rows, visit h m 1 nodes acc = Some rows →
    (k ∈ rows ↔
     k ∈ acc ∨
     ∃ P, P ∈ nodes ∧
          (isCollapsedNode m P = true ∧ k = P ∨
           isCollapsedNode m P = false ∧ ∃ c, store h !! P = Some c ∧ k ∈ children c)).
Proof.
  induction nodes as [|x l IH]; intros acc rows H; simpl in H.
  - simplify_eq. split; [by left|]. intros [?|(P&HP&_)]; [done|]. by apply elem_of_nil in HP.
  - destruct (isCollapsedNode m x) eqn:Hx.
    + rewrite (IH _ _ H). rewrite elem_of_app, list_elem_of_singleton. split.
      * intros [[?| ->]|(P&HP&HPk)]; [by left| |].
        -- right. exists x. split; [by left|]. by left.
        -- right. exists P. split; [by right|done].
      * intros [?|(P&[->|HP]%elem_of_cons&HPk)]; [by left; left| |].
        -- destruct HPk as [[_ ->]|[Hf _]]; [by left; right|congruence].
        -- right. by exists P.
    + destruct (store h !! x) as [c|] eqn:Hc; [|done].
      rewrite (IH _ _ H). rewrite elem_of_app. split.
      * intros [[?|Hk]|(P&HP&HPk)]; [by left| |].
        -- right. exists x. split; [by left|]. right. split; [done|]. by exists c.
        -- right. exists P. split; [by right|done].
      * intros [?|(P&[->|HP]%elem_of_cons&HPk)]; [by left; left| |].
        -- destruct HPk as [[Ht _]|[_ (c'&Hc'&Hk)]]; [congruence|]. simplify_eq.
           by left; right.
        -- right. by exists P.
Qed.

(** X9.  A case that is part of a collapsed group is not part of the
    table.  In a table on the child collection of a two-level hierarchy, after
    a refresh: a case that is no case of the root collection, and that is a
    child only of collapsed cases of the root collection, has the row -1;
    a collapsed case of the root collection that the store finds has a row,
    which holds it; and so has a child, that the store finds, of a case of
    the root collection that is not collapsed. *)
Theorem getRowById_collapsed_group fuel h m m' C R collC collR :
  2 ≤ fuel → suspended m = false → table_collection m = Some C →
  _collectionClients h !! C = Some collC → parentCollectionID collC = Some R →
  _collectionClients h !! R = Some collR → parentCollectionID collR = None →
  refresh fuel h m = Some m' →
  (∀ k, k ∉ casesController collR →
        (∀ P c, P ∈ casesController collR → store h !! P = Some c → k ∈ children c →
                isCollapsedNode m P = true) →
        getRowById h m' k = (-1)%Z) ∧
  (∀ P, P ∈ casesController collR → isCollapsedNode m P = true →
        is_Some (getCaseByID h P) →
        ∃ r, getRowById h m' P = Z.of_nat r ∧ getItem m' r = Some P) ∧
  (∀ P c k, P ∈ casesController collR → isCollapsedNode m P = false →
            store h !! P = Some c → k ∈ children c → is_Some (getCaseByID h k) →
            ∃ r, getRowById h m' k = Z.of_nat r ∧ getItem m' r = Some k).
Proof.
  intros Hf Hs Ht HC HpC HR HpR Href.
  assert (Hv : visit h m 1 (casesController collR) [] = Some (_rowCaseMap m')).
  { unfold refresh in Href.
    rewrite Hs, Ht, (makeCollections_two_levels fuel h C R collC collR) in Href by done.
    rewrite HR in Href. change (length [C]) with 1 in Href.
    destruct (visit h m 1 (casesController collR) []) as [rows|]; [|done].
    by simplify_eq. }
  assert (Hrow : ∀ k, k ∈ _rowCaseMap m' → is_Some (getCaseByID h k) →
                      ∃ r, getRowById h m' k = Z.of_nat r ∧ getItem m' r = Some k).
  { intros k Hk Hsome.
    destruct (getRowById_getItem h m' k) as (Hrange&Hget&_&Hnone).
    destruct (getRowById h m' k) as [|p|p] eqn:E.
    - exists 0. split; [done|]. by apply (Hget 0).
    - exists (Pos.to_nat p). rewrite positive_nat_Z. split; [done|].
      apply Hget. by rewrite positive_nat_Z.
    - assert (Z.neg p = (-1)%Z) as Hm1 by lia. rewrite Hm1 in Hnone.
      destruct (proj1 Hnone eq_refl) as [Hn|Hn]; [|done].
      rewrite Hn in Hsome. by destruct Hsome. }
  split; [|split].
  - intros k Hroot Hall. apply (getRowById_getItem h m' k). right.
    rewrite (visit_one_elem h m _ k _ _ Hv).
    intros [Hnil|(P&HP&[[_ ->]|[Hexp (c&Hc&Hk)]])]; [by apply elem_of_nil in Hnil|done|].
    rewrite (Hall P c HP Hc Hk) in Hexp. done.
  - intros P HP Hcol Hsome. apply Hrow; [|done].
    apply (visit_one_elem h m _ P _ _ Hv). right. exists P. split; [done|]. by left.
  - intros P c k HP Hexp Hc Hk Hsome. apply Hrow; [|done].
    apply (visit_one_elem h m _ k _ _ Hv). right. exists P. split; [done|]. right.
    split; [done|]. by exists c.
Qed.

Lemma getRowById_collapsed_group_witness :
  ∃ m', refresh 2 oneFamily (collapseGroup oneFamily 10 (caseTableInit (Some 2))) = Some m' ∧
        getRowById oneFamily m' 11 = (-1)%Z.
Proof.
  destruct (refresh 2 oneFamily (collapseGroup oneFamily 10 (caseTableInit (Some 2))))
    as [m'|] eqn:E; [|vm_compute in E; discriminate E].
  exists m'. split; [reflexivity|].
  destruct (getRowById_collapsed_group 2 oneFamily
              (collapseGroup oneFamily 10 (caseTableInit (Some 2))) m' 2 1
              {| parentCollectionID := Some 1; attributeIDs := [2; 3];
                 casesController := [11; 12; 13]; selection := ∅ |}
              {| parentCollectionID := None; attributeIDs := [1];
                 casesController := [10]; selection := ∅ |})
    as [H _]; [lia|reflexivity|reflexivity|vm_compute; reflexivity|reflexivity
              |vm_compute; reflexivity|reflexivity|exact E|].
  apply H.
  - cbn. set_solver.
  - intros P c [->|HP]%elem_of_cons _ _; [vm_compute; reflexivity|].
    by apply elem_of_nil in HP.
Defined.
(** A table in a batch of updates, against the same table outside of the
    batch on which no refresh is asked for. *)
Lemma tableRun_suspended fuel h ops :
  ∀ s g b,
    table_collection s = table_collection g → collapsedNodes s = collapsedNodes g →
    _rowCaseMap s = _rowCaseMap g → onRowCountChanged s = onRowCountChanged g →
    suspended s = true → refreshNeeded s = b →
    ∃ s' g',
      tableRun fuel h ops s = Some s' ∧
      tableRun fuel h (filter (λ op, isRefresh op = false) ops) g = Some g' ∧
      table_collection s' = table_collection g' ∧ collapsedNodes s' = collapsedNodes g' ∧
      _rowCaseMap s' = _rowCaseMap g' ∧ onRowCountChanged s' = onRowCountChanged g' ∧
      _rowCaseMap g' = _rowCaseMap g ∧ onRowCountChanged g' = onRowCountChanged g ∧
      suspended g' = suspended g ∧ refreshNeeded g' = refreshNeeded g ∧
      suspended s' = true ∧ refreshNeeded s' = (b || existsb isRefresh ops).
Proof.
  unfold tableRun. induction ops as [|op ops IH]; intros s g b Ht Hc Hr Hn Hs Hb.
  - exists s, g. simpl. rewrite orb_false_r. by repeat split.
  - destruct op as [|id|id].
    + rewrite filter_cons_False by (simpl; congruence). simpl.
      unfold refresh at 1. rewrite Hs.
      destruct (IH {| table_collection := table_collection s;
                      collapsedNodes := collapsedNodes s; suspended := true;
                      refreshNeeded := true; _rowCaseMap := _rowCaseMap s;
                      onRowCountChanged := onRowCountChanged s |} g true)
        as (s'&g'&H1&H2&H3); try done.
      exists s', g'. split; [exact H1|]. rewrite orb_true_r. exact (conj H2 H3).
    + rewrite filter_cons_True by done. simpl.
      edestruct (IH (collapseGroup h id s) (collapseGroup h id g) b)
        as (s'&g'&H1&H2&H3&H4&H5&H6&H7&H8&H9&H10&H11&H12);
        [unfold collapseGroup; destruct (getCaseByID h id); simpl; congruence..|].
      exists s', g'. split; [exact H1|]. split; [exact H2|].
      repeat split; try done;
        first [rewrite H7|rewrite H8|rewrite H9|rewrite H10];
        unfold collapseGroup; by destruct (getCaseByID h id).
    + rewrite filter_cons_True by done. simpl.
      edestruct (IH (expandGroup h id s) (expandGroup h id g) b)
        as (s'&g'&H1&H2&H3&H4&H5&H6&H7&H8&H9&H10&H11&H12);
        [unfold expandGroup; destruct (getCaseByID h id); simpl; congruence..|].
      exists s', g'. split; [exact H1|]. split; [exact H2|].
      repeat split; try done;
        first [rewrite H7|rewrite H8|rewrite H9|rewrite H10];
        unfold expandGroup; by destruct (getCaseByID h id).
Qed.

(** X10.  A batch of updates.  Between [beginUpdate] and [endUpdate] the
    requests for a refresh are held back: the rows stay as they are and no
    notification is fired, while groups are collapsed and expanded as
    asked.  [endUpdate] then refreshes once if a refresh was asked for, and
    not at all otherwise; in both cases the table ends as if the groups had
    been collapsed and expanded outside of any batch with (at most) one
    refresh at the end. *)
Theorem update_batch fuel h m ops :
  suspended m = false → refreshNeeded m = false →
  ∃ m1 m2,
    tableRun fuel h ops (beginUpdate m) = Some m1 ∧
    _rowCaseMap m1 = _rowCaseMap m ∧ onRowCountChanged m1 = onRowCountChanged m ∧
    tableRun fuel h (filter (λ op, isRefresh op = false) ops) m = Some m2 ∧
    endUpdate fuel h m1 = (if existsb isRefresh ops then refresh fuel h m2 else Some m2).
Proof.
  intros Hs Hn.
  destruct (tableRun_suspended fuel h ops (beginUpdate m) m false)
    as (m1&m2&H1&H2&Ht&Hc&Hr&Ho&Hr2&Ho2&Hs2&Hn2&Hs1&Hn1); try done.
  exists m1, m2. split; [done|]. split; [congruence|]. split; [congruence|]. split; [done|].
  unfold endUpdate. cbn [refreshNeeded]. rewrite Hn1. simpl.
  rewrite Hs in Hs2. rewrite Hn in Hn2.
  destruct (existsb isRefresh ops).
  - unfold refresh. cbn [suspended _rowCaseMap table_collection collapsedNodes
                         onRowCountChanged]. rewrite Hs2, Ht, Hr, Ho.
    destruct (makeCollections fuel h (table_collection m2)) as [[|root anc]|]; try done.
    destruct (_collectionClients h !! root) as [rootColl|]; [|done].
    rewrite (visit_collapsed h _ m2) by done. by rewrite Hc.
  - f_equal. destruct m2. simpl in *. by subst.
Qed.

Lemma update_batch_witness :
  ∃ m1 m2,
    tableRun 2 oneFamily [OpRefresh; OpCollapseGroup 10; OpRefresh]
      (beginUpdate (caseTableInit (Some 2))) = Some m1 ∧
    _rowCaseMap m1 = _rowCaseMap (caseTableInit (Some 2)) ∧
    onRowCountChanged m1 = onRowCountChanged (caseTableInit (Some 2)) ∧
    tableRun 2 oneFamily
      (filter (λ op, isRefresh op = false) [OpRefresh; OpCollapseGroup 10; OpRefresh])
      (caseTableInit (Some 2)) = Some m2 ∧
    endUpdate 2 oneFamily m1 =
      (if existsb isRefresh [OpRefresh; OpCollapseGroup 10; OpRefresh]
       then refresh 2 oneFamily m2 else Some m2).
Proof.
  apply (update_batch 2 oneFamily (caseTableInit (Some 2))
           [OpRefresh; OpCollapseGroup 10; OpRefresh]); reflexivity.
Defined.

Lemma expandCollapseCounts_fold m l e0 c0 :
  foldl (λ counts myCase,
           if isCollapsedNode m myCase
           then {| expanded := expanded counts; collapsed := collapsed counts + 1 |}
           else {| expanded := expanded counts + 1; collapsed := collapsed counts |})
        {| expanded := e0; collapsed := c0 |} l
  = {| expanded := e0 + length (filter (λ k, k ∉ collapsedNodes m) l);
       collapsed := c0 + length (filter (λ k, k ∈ collapsedNodes m) l) |}.
Proof.
  revert e0 c0. induction l as [|x l IH]; intros e0 c0; cbn [foldl].
  - simpl. f_equal; lia.
  - destruct (isCollapsedNode m x) eqn:E; unfold isCollapsedNode in E.
    + apply bool_decide_eq_true in E. cbn [expanded collapsed]. rewrite IH.
      rewrite filter_cons_False by (intros Hn; by apply Hn).
      rewrite filter_cons_True by done. simpl. f_equal; lia.
    + apply bool_decide_eq_false in E. cbn [expanded collapsed]. rewrite IH.
      rewrite filter_cons_True by done.
      rewrite filter_cons_False by done. simpl. f_equal; lia.
Qed.

Lemma filter_ext_elem {A} (P Q : A → Prop) `{!∀ x, Decision (P x)} `{!∀ x, Decision (Q x)}
    (l : list A) :
  (∀ x, x ∈ l → P x ↔ Q x) → filter P l = filter Q l.
Proof.
  induction l as [|a l IH]; intros Hpq; [done|].
  assert (filter P l = filter Q l) as IH' by (apply IH; intros x Hx; apply Hpq; by right).
  destruct (decide (P a)) as [Ha|Ha].
  - rewrite !filter_cons_True; [by rewrite IH'|by apply (Hpq a); [left|]|done].
  - rewrite !filter_cons_False; [done|rewrite <- (Hpq a) by left; done|done].
Qed.

Lemma filter_length_insert (S : gset nat) (l : list nat) x :
  NoDup l → x ∈ l → x ∉ S →
  length (filter (λ k, k ∈ {[x]} ∪ S) l) = 1 + length (filter (λ k, k ∈ S) l) ∧
  1 + length (filter (λ k, k ∉ {[x]} ∪ S) l) = length (filter (λ k, k ∉ S) l).
Proof.
  intros Hnd Hx HS. induction Hnd as [|a l Ha Hnd IH]; [by apply elem_of_nil in Hx|].
  apply elem_of_cons in Hx as [<-|Hx].
  - rewrite (filter_cons_True (λ k, k ∈ {[x]} ∪ S)) by set_solver.
    rewrite (filter_cons_False (λ k, k ∈ S)) by done.
    rewrite (filter_cons_False (λ k, k ∉ {[x]} ∪ S)) by set_solver.
    rewrite (filter_cons_True (λ k, k ∉ S)) by done. simpl.
    rewrite (filter_ext_elem (λ k, k ∈ {[x]} ∪ S) (λ k, k ∈ S)) by (intros k Hk; set_solver).
    rewrite (filter_ext_elem (λ k, k ∉ {[x]} ∪ S) (λ k, k ∉ S)) by (intros k Hk; set_solver).
    done.
  - assert (a ≠ x) by (intros ->; done). destruct (IH Hx) as [IH1 IH2].
    destruct (decide (a ∈ S)) as [HaS|HaS].
    + rewrite (filter_cons_True (λ k, k ∈ {[x]} ∪ S)) by set_solver.
      rewrite (filter_cons_True (λ k, k ∈ S)) by done.
      rewrite (filter_cons_False (λ k, k ∉ {[x]} ∪ S)) by set_solver.
      rewrite (filter_cons_False (λ k, k ∉ S)) by (intros Hn; by apply Hn).
      simpl. lia.
    + rewrite (filter_cons_False (λ k, k ∈ {[x]} ∪ S)) by set_solver.
      rewrite (filter_cons_False (λ k, k ∈ S)) by done.
      rewrite (filter_cons_True (λ k, k ∉ {[x]} ∪ S)) by set_solver.
      rewrite (filter_cons_True (λ k, k ∉ S)) by done.
      simpl. lia.
Qed.

(** X11.  The counts of expanded and collapsed cases.  They add up to the
    number of cases of the collection of the table.  Collapsing a case of
    that collection that the store finds and that is expanded moves one
    from [expanded] to [collapsed], and expanding it again gives the counts
    back; collapsing a case that is not of that collection leaves them as
    they are. *)
Theorem expandCollapseCounts_collapseGroup h m C coll :
  table_collection m = Some C → _collectionClients h !! C = Some coll →
  NoDup (casesController coll) →
  ∃ counts,
    expandCollapseCounts h m = Some counts ∧
    expanded counts + collapsed counts = length (casesController coll) ∧
    (∀ id, id ∈ casesController coll → is_Some (getCaseByID h id) →
           isCollapsedNode m id = false →
           1 ≤ expanded counts ∧
           expandCollapseCounts h (collapseGroup h id m) =
             Some {| expanded := expanded counts - 1; collapsed := collapsed counts + 1 |} ∧
           expandCollapseCounts h (expandGroup h id (collapseGroup h id m)) = Some counts) ∧
    (∀ id, id ∉ casesController coll →
           expandCollapseCounts h (collapseGroup h id m) = Some counts).
Proof.
  intros Ht HC Hnd. unfold expandCollapseCounts. rewrite Ht. simpl. rewrite HC.
  eexists. split; [reflexivity|]. rewrite expandCollapseCounts_fold. simpl.
  split; [|split].
  - clear. induction (casesController coll) as [|x l IH]; [done|].
    destruct (decide (x ∈ collapsedNodes m)).
    + rewrite filter_cons_False by (intros Hn; by apply Hn).
      rewrite filter_cons_True by done. simpl. lia.
    + rewrite filter_cons_True by done. rewrite filter_cons_False by done. simpl. lia.
  - intros id Hid [c Hc] Hexp.
    apply bool_decide_eq_false in Hexp.
    destruct (filter_length_insert (collapsedNodes m) _ id Hnd Hid Hexp) as [H1 H2].
    split; [lia|].
    assert (table_collection (collapseGroup h id m) = Some C ∧
            collapsedNodes (collapseGroup h id m) = {[id]} ∪ collapsedNodes m) as [Ht1 Hc1]
      by (unfold collapseGroup; by rewrite Hc).
    assert (table_collection (expandGroup h id (collapseGroup h id m)) = Some C ∧
            collapsedNodes (expandGroup h id (collapseGroup h id m)) = collapsedNodes m)
      as [Ht2 Hc2].
    { unfold expandGroup. rewrite Hc. simpl. split; [done|]. rewrite Hc1. set_solver. }
    rewrite Ht1, Ht2. simpl. rewrite HC, !expandCollapseCounts_fold, Hc1, Hc2. simpl.
    split; [f_equal; f_equal; lia|done].
  - intros id Hid. unfold collapseGroup. destruct (getCaseByID h id); simpl.
    + rewrite Ht. simpl. rewrite HC, expandCollapseCounts_fold. simpl. f_equal.
      rewrite (filter_ext_elem (λ k, k ∉ {[id]} ∪ collapsedNodes m)
                 (λ k, k ∉ collapsedNodes m)) by (intros k Hk; set_solver).
      rewrite (filter_ext_elem (λ k, k ∈ {[id]} ∪ collapsedNodes m)
                 (λ k, k ∈ collapsedNodes m)) by (intros k Hk; set_solver).
      done.
    + rewrite Ht. simpl. by rewrite HC, expandCollapseCounts_fold.
Qed.

Lemma expandCollapseCounts_collapseGroup_witness :
  ∃ counts,
    expandCollapseCounts oneFamily (caseTableInit (Some 2)) = Some counts ∧
    expanded counts + collapsed counts = 3 ∧
    expandCollapseCounts oneFamily (collapseGroup oneFamily 12 (caseTableInit (Some 2))) =
      Some {| expanded := expanded counts - 1; collapsed := collapsed counts + 1 |}.
Proof.
  destruct (expandCollapseCounts_collapseGroup oneFamily (caseTableInit (Some 2)) 2
              {| parentCollectionID := Some 1; attributeIDs := [2; 3];
                 casesController := [11; 12; 13]; selection := ∅ |})
    as (counts&H1&H2&H3&_).
  - reflexivity.
  - vm_compute; reflexivity.
  - cbn. repeat constructor; set_solver.
  - exists counts. split; [exact H1|]. split; [exact H2|].
    destruct (H3 12) as (_&H4&_).
    + cbn. set_solver.
    + eexists. vm_compute; reflexivity.
    + reflexivity.
    + exact H4.
Defined.

(** ** The unsaved changes of the document *)

Lemma Array_indexOf_elem (l : list nat) x :
  (Array_indexOf l x =? -1)%Z = false ↔ x ∈ l.
Proof.
  unfold Array_indexOf. destruct (list_find _ l) as [[i y]|] eqn:E.
  - apply list_find_Some in E as (Hi&->&_). split; [|intros _; apply Z.eqb_neq; lia].
    intros _. by eapply list_elem_of_lookup_2.
  - apply list_find_None in E. split; [done|]. intros Hx. exfalso.
    rewrite Forall_forall in E. by apply (E x).
Qed.

Lemma Array_indexOf_lookup (l : list nat) x :
  x ∈ l → l !! Z.to_nat (Array_indexOf l x) = Some x.
Proof.
  intros Hx. unfold Array_indexOf. destruct (list_find _ l) as [[i y]|] eqn:E.
  - apply list_find_Some in E as (Hi&->&_). by rewrite Nat2Z.id.
  - apply list_find_None in E. exfalso. rewrite Forall_forall in E. by apply (E x).
Qed.

Lemma elem_of_delete_NoDup (l : list nat) i x y :
  NoDup l → l !! i = Some x → (y ∈ delete i l ↔ y ∈ l ∧ y ≠ x).
Proof.
  intros Hnd Hi. rewrite <- (take_drop_middle l i x Hi) in Hnd |- * at 2.
  rewrite delete_take_drop.
  apply NoDup_app in Hnd as (_&Hd&Hnd2). apply NoDup_cons in Hnd2 as [Hx _].
  rewrite !elem_of_app, elem_of_cons. split.
  - intros [Hy|Hy]; (split; [tauto|]); intros ->; [|done].
    apply (Hd x Hy). by left.
  - intros [[Hy|[->|Hy]] Hne]; tauto.
Qed.

(** X12.  The objects that have changed are kept as a set.  Starting from
    a list without repetition, [objectChanged] and [clearChangedObject] keep
    it so; after [objectChanged] the object has unsaved changes and after
    [clearChangedObject] it has none; and neither touches the answer for
    another object. *)
Theorem changedObjects_set (d : DocumentController.DocumentController) obj :
  NoDup (DocumentController._changedObjects d) →
  NoDup (DocumentController._changedObjects (DocumentController.objectChanged obj d)) ∧
  NoDup (DocumentController._changedObjects (DocumentController.clearChangedObject obj d)) ∧
  DocumentController.objectHasUnsavedChanges obj (DocumentController.objectChanged obj d)
    = true ∧
  DocumentController.objectHasUnsavedChanges obj (DocumentController.clearChangedObject obj d)
    = false ∧
  (∀ o, o ≠ obj →
        DocumentController.objectHasUnsavedChanges o (DocumentController.objectChanged obj d)
          = DocumentController.objectHasUnsavedChanges o d ∧
        DocumentController.objectHasUnsavedChanges o (DocumentController.clearChangedObject obj d)
          = DocumentController.objectHasUnsavedChanges o d).
Proof.
  intros Hnd.
  assert (Hhas : ∀ o d0, DocumentController.objectHasUnsavedChanges o d0 =
                         bool_decide (o ∈ DocumentController._changedObjects d0)).
  { intros o d0. unfold DocumentController.objectHasUnsavedChanges.
    destruct (Array_indexOf _ o =? -1)%Z eqn:E; simpl; symmetry.
    - apply bool_decide_eq_false. intros Hin. apply Array_indexOf_elem in Hin. congruence.
    - apply bool_decide_eq_true. by apply Array_indexOf_elem. }
  assert (Hadd : ∀ o, o ∈ DocumentController._changedObjects
                            (DocumentController.objectChanged obj d) ↔
                      o ∈ DocumentController._changedObjects d ∨ o = obj).
  { intros o. unfold DocumentController.objectChanged.
    destruct (Array_indexOf _ obj =? -1)%Z eqn:E; simpl.
    - by rewrite elem_of_app, list_elem_of_singleton.
    - apply Array_indexOf_elem in E. split; [by left|]. by intros [?| ->]. }
  assert (Hdel : ∀ o, o ∈ DocumentController._changedObjects
                            (DocumentController.clearChangedObject obj d) ↔
                      o ∈ DocumentController._changedObjects d ∧ o ≠ obj).
  { intros o. unfold DocumentController.clearChangedObject.
    destruct (Array_indexOf _ obj =? -1)%Z eqn:E; simpl.
    - split; [|tauto]. intros Ho. split; [done|]. intros ->.
      apply Array_indexOf_elem in Ho. congruence.
    - apply Array_indexOf_elem in E.
      by apply elem_of_delete_NoDup; [|apply Array_indexOf_lookup]. }
  split; [|split; [|split; [|split]]].
  - unfold DocumentController.objectChanged.
    destruct (Array_indexOf _ obj =? -1)%Z eqn:E; simpl; [|done].
    apply NoDup_app. split; [done|]. split; [|apply NoDup_singleton].
    intros x Hx ->%list_elem_of_singleton. apply Array_indexOf_elem in Hx. congruence.
  - unfold DocumentController.clearChangedObject.
    destruct (Array_indexOf _ obj =? -1)%Z; simpl; [done|].
    eapply sublist_NoDup; [apply Hnd|apply sublist_delete].
  - rewrite Hhas. apply bool_decide_eq_true, Hadd. by right.
  - rewrite Hhas. apply bool_decide_eq_false. rewrite Hdel. tauto.
  - intros o Hne. rewrite !Hhas. split; apply bool_decide_ext.
    + rewrite Hadd. tauto.
    + rewrite Hdel. tauto.
Qed.

Lemma changedObjects_set_witness :
  DocumentController.objectHasUnsavedChanges 7
    (DocumentController.clearChangedObject 7
       {| DocumentController.content := 1; DocumentController.changeCount := 2;
          DocumentController.savedChangeCount := 0;
          DocumentController._changedObjects := [1; 7];
          DocumentController.saveInProgress := None |}) = false.
Proof.
  apply (changedObjects_set
           {| DocumentController.content := 1; DocumentController.changeCount := 2;
              DocumentController.savedChangeCount := 0;
              DocumentController._changedObjects := [1; 7];
              DocumentController.saveInProgress := None |} 7).
  cbn. repeat constructor; set_solver.
Defined.

(** The callbacks of a save that holds back [n] dirtyings, run on a
    controller: the count grows by [n], and the objects have changed. *)
Lemma update_run objs :
  ∀ d, let d' := foldl DocumentController.runCallback d (DocumentController.Update <$> objs) in
       DocumentController.changeCount d' = DocumentController.changeCount d + length objs ∧
       DocumentController.savedChangeCount d' = DocumentController.savedChangeCount d ∧
       DocumentController.saveInProgress d' = DocumentController.saveInProgress d ∧
       DocumentController.content d' = DocumentController.content d ∧
       (∀ o, o ∈ DocumentController._changedObjects d' ↔
             o ∈ DocumentController._changedObjects d ∨ o ∈ objs).
Proof.
  induction objs as [|x objs IH]; intros d.
  - simpl. repeat split; try lia; [by left|]. intros [?|H]; [done|by apply elem_of_nil in H].
  - cbv zeta. rewrite fmap_cons. cbn [foldl length].
    change (DocumentController.runCallback d (DocumentController.Update x))
      with (DocumentController.update x d).
    destruct (IH (DocumentController.update x d)) as (H1&H2&H3&H4&H5). cbv zeta in *.
    rewrite H1, H2, H3, H4.
    assert (Hx : ∀ o, o ∈ DocumentController._changedObjects (DocumentController.update x d) ↔
                      o ∈ DocumentController._changedObjects d ∨ o = x).
    { intros o. unfold DocumentController.update, DocumentController.objectChanged. simpl.
      destruct (Array_indexOf _ x =? -1)%Z eqn:E; simpl.
      - by rewrite elem_of_app, list_elem_of_singleton.
      - apply Array_indexOf_elem in E. split; [by left|]. by intros [?| ->]. }
    unfold DocumentController.update at 1 2 3 4. simpl.
    assert (∀ d0, DocumentController.savedChangeCount (DocumentController.objectChanged x d0)
                  = DocumentController.savedChangeCount d0 ∧
                  DocumentController.changeCount (DocumentController.objectChanged x d0)
                  = DocumentController.changeCount d0 ∧
                  DocumentController.saveInProgress (DocumentController.objectChanged x d0)
                  = DocumentController.saveInProgress d0 ∧
                  DocumentController.content (DocumentController.objectChanged x d0)
                  = DocumentController.content d0) as Hoc.
    { intros d0. unfold DocumentController.objectChanged.
      by destruct (Array_indexOf _ x =? -1)%Z. }
    destruct (Hoc d) as (->&->&->&->).
    repeat split; try lia.
    + intros Ho. apply H5 in Ho as [Ho|Ho]; [apply Hx in Ho as [?| ->]|].
      * by left.
      * right. by left.
      * right. by right.
    + intros [Ho|[->|Ho]%elem_of_cons]; apply H5.
      * left. apply Hx. by left.
      * left. apply Hx. by right.
      * by right.
Qed.

(** X13.  Changes made while a save is in progress are not lost.  After
    [signalSaveInProgress] and [updateSavedChangeCount], as [saveDocument]
    calls them, any number of calls of [DG.dirtyCurrentDocument] leave the
    counts and the changed objects as they are; when the save is resolved,
    [saveInProgress] is cleared, the change count has grown by the number of
    these calls, each of their objects (the document, where none is given)
    has unsaved changes, and with at least one call, and saving enabled, the
    document has unsaved changes. *)
Theorem dirtyCurrentDocument_during_save (d : DocumentController.DocumentController)
    (objs : list (option nat)) :
  let d1 := DocumentController.updateSavedChangeCount
              (DocumentController.signalSaveInProgress d) in
  let d2 := foldl (λ d0 o, DocumentController.dirtyCurrentDocument o d0) d1 objs in
  let d3 := DocumentController.resolve d2 in
  DocumentController.changeCount d2 = DocumentController.changeCount d ∧
  DocumentController._changedObjects d2 = DocumentController._changedObjects d ∧
  DocumentController.savedChangeCount d2 = DocumentController.changeCount d ∧
  DocumentController.saveInProgress d3 = None ∧
  DocumentController.changeCount d3 = DocumentController.changeCount d + length objs ∧
  (∀ o, o ∈ objs →
        DocumentController.objectHasUnsavedChanges
          (default (DocumentController.content d) o) d3 = true) ∧
  (objs ≠ [] → ∀ game, DocumentController.hasUnsavedChanges true game d3 = true).
Proof.
  intros d1 d2 d3.
  assert (Hd2 : ∀ cbs d0,
            DocumentController.saveInProgress d0 = Some cbs →
            let d0' := foldl (λ d0 o, DocumentController.dirtyCurrentDocument o d0) d0 objs in
            DocumentController.changeCount d0' = DocumentController.changeCount d0 ∧
            DocumentController._changedObjects d0' = DocumentController._changedObjects d0 ∧
            DocumentController.savedChangeCount d0' = DocumentController.savedChangeCount d0 ∧
            DocumentController.content d0' = DocumentController.content d0 ∧
            DocumentController.saveInProgress d0' =
              Some (cbs ++ (DocumentController.Update <$>
                              (default (DocumentController.content d0) <$> objs)))).
  { clear. induction objs as [|o objs IH]; intros cbs d0 Hs; simpl.
    - by rewrite app_nil_r.
    - assert (Hd : DocumentController.dirtyCurrentDocument o d0 =
                   DocumentController.mkDocumentController
                     (DocumentController.content d0) (DocumentController.changeCount d0)
                     (DocumentController.savedChangeCount d0)
                     (DocumentController._changedObjects d0)
                     (Some (cbs ++ [DocumentController.Update
                                      (default (DocumentController.content d0) o)]))).
      { unfold DocumentController.dirtyCurrentDocument. by rewrite Hs. }
      destruct (IH (cbs ++ [DocumentController.Update
                              (default (DocumentController.content d0) o)])
                  (DocumentController.dirtyCurrentDocument o d0))
        as (H1&H2&H3&H4&H5); [by rewrite Hd|]. cbv zeta in *.
      rewrite H1, H2, H3, H4, H5, Hd. simpl. by rewrite <- app_assoc. }
  destruct (Hd2 [DocumentController.ClearSaveInProgress] d1 eq_refl) as (H1&H2&H3&H4&H5).
  fold d2 in H1, H2, H3, H4, H5. cbv zeta in *.
  split; [done|]. split; [done|]. split; [done|].
  assert (Hd3 : d3 = foldl DocumentController.runCallback
                       (DocumentController.runCallback d2 DocumentController.ClearSaveInProgress)
                       (DocumentController.Update <$>
                          (default (DocumentController.content d) <$> objs))).
  { unfold d3, DocumentController.resolve. rewrite H5. done. }
  destruct (update_run (default (DocumentController.content d) <$> objs)
              (DocumentController.runCallback d2 DocumentController.ClearSaveInProgress))
    as (U1&U2&U3&U4&U5). cbv zeta in *. rewrite <- Hd3 in U1, U2, U3, U4, U5.
  rewrite length_fmap in U1. simpl in U1, U2, U3, U5.
  split; [done|]. split; [by rewrite U1, H1|].
  assert (Hchanged : ∀ o, o ∈ objs →
            DocumentController.objectHasUnsavedChanges
              (default (DocumentController.content d) o) d3 = true).
  { intros o Ho. unfold DocumentController.objectHasUnsavedChanges.
    apply negb_true_iff, Array_indexOf_elem, U5. right.
    apply list_elem_of_fmap. by exists o. }
  split; [done|].
  intros Hne game. unfold DocumentController.hasUnsavedChanges. simpl.
  destruct objs as [|o objs]; [done|].
  rewrite bool_decide_eq_true_2; [done|].
  rewrite U1, U2, H1, H3. simpl. lia.
Qed.

(** ** Deletion of cases with their descendants *)

Lemma destroyedIn_dec st id : destroyedIn st id ∨ ¬ destroyedIn st id.
Proof.
  unfold destroyedIn. destruct (st !! id) as [c|] eqn:E.
  - destruct (isDestroyed c) eqn:Hd; [left; by exists c|right].
    intros (c'&?&?). simplify_eq. congruence.
  - right. by intros (c'&?&_).
Qed.

Lemma deleteKeeps_refl v : deleteKeeps v v.
Proof.
  split; [apply storeShrinks_refl|]. split.
  - intros y cy k Hy Hk. left. by exists cy.
  - by intros id Hd Hnd.
Qed.

Lemma deleteKeeps_trans v1 v2 v3 :
  deleteKeeps v1 v2 → deleteKeeps v2 v3 → deleteKeeps v1 v3.
Proof.
  intros (S12&K12&D12) (S23&K23&D23). split; [by eapply storeShrinks_trans|]. split.
  - intros y cy k Hy Hk. destruct (K12 _ _ _ Hy Hk) as [(cy2&Hy2&Hk2)|Hd].
    + apply (K23 _ _ _ Hy2 Hk2).
    + right. by eapply storeShrinks_destroyed.
  - intros id Hd3 Hnd1.
    destruct (destroyedIn_dec (store (del_hierarchy v2)) id) as [Hd2|Hnd2].
    + destruct (D12 _ Hd2 Hnd1) as (c2&Hc2&Hch2).
      destruct (proj1 S23 _ _ Hc2) as (c3&Hc3&_&_&Hsub&_).
      exists c3. split; [done|]. rewrite Hch2 in Hsub. by apply sublist_nil_r in Hsub.
    + by apply D23.
Qed.

(** [deleteCase] takes the case out of the children of its parent, and
    leaves the children of the other cases as they are. *)
Lemma Collection_deleteCase_parent cid k h c y cy :
  store h !! k = Some c → store h !! y = Some cy → y ≠ k →
  ∃ cy', store (Collection_deleteCase cid k h) !! y = Some cy' ∧
         children cy' = if decide (case_parent c = Some y)
                        then filter (λ k0, k0 ≠ k) (children cy) else children cy.
Proof.
  intros Hk Hy Hne. unfold Collection_deleteCase. rewrite Hk. simpl.
  rewrite lookup_alter_ne by done.
  destruct (case_parent c) as [p|].
  - destruct (decide (Some p = Some y)) as [[= ->]|Hpy].
    + rewrite lookup_alter_eq, Hy. simpl. by eexists.
    + rewrite lookup_alter_ne by congruence. by exists cy.
  - rewrite decide_False by done. by exists cy.
Qed.

Lemma filter_ne_last (K : list nat) i child :
  NoDup K → K !! i = Some child → length K = S i →
  length (filter (λ k, k ≠ child) K) = i.
Proof.
  intros Hnd Hi Hlen.
  assert (K = take i K ++ [child]) as HK.
  { rewrite <- (take_drop_middle K i child Hi) at 1.
    by rewrite (drop_ge K (S i)) by lia. }
  rewrite HK in Hnd. apply NoDup_app in Hnd as (_&Hd&_).
  rewrite HK, filter_app, filter_cons_False, filter_nil, app_nil_r by (by intros H; apply H).
  rewrite filter_ne_id; [rewrite length_take; lia|].
  intros Hin. apply (Hd _ Hin). by left.
Qed.

Lemma deleteThisCase_tree rank x v v' c :
  liveVars rank v → store (del_hierarchy v) !! x = Some c → children c = [] →
  deleteThisCase x v = Some v' → deletedTree rank x v v'.
Proof.
  intros [[Hacyc Ht] Hlive] Hx Hch H.
  unfold deleteThisCase in H. rewrite Hx in H.
  destruct (getCollectionForCase _ c) as [tCollection|]; [|done]. simplify_eq.
  destruct (Collection_deleteCase_store (case_collection c) x (del_hierarchy v) c Hx)
    as (Hs&Hdx&Hother).
  assert (Hframe : ∀ y cy, store (del_hierarchy v) !! y = Some cy → y ≠ x →
            ∃ cy', store (Collection_deleteCase (case_collection c) x (del_hierarchy v)) !! y
                     = Some cy' ∧
                   children cy' = filter (λ k, k ≠ x) (children cy)).
  { intros y cy Hy Hne.
    destruct (Collection_deleteCase_parent (case_collection c) x _ c y cy Hx Hy Hne)
      as (cy'&Hy'&Hc').
    exists cy'. split; [done|]. rewrite Hc'. destruct (decide _) as [Hp|Hp]; [done|].
    symmetry. apply filter_ne_id. intros Hin. destruct (Ht _ _ Hy) as (_&_&Hpar).
    destruct (Hpar _ Hin) as (cx&Hcx&Hpx). by simplify_eq. }
  assert (Hx' : ∃ c', store (Collection_deleteCase (case_collection c) x (del_hierarchy v)) !! x
                        = Some c' ∧ children c' = []).
  { destruct (proj1 Hs _ _ Hx) as (c'&Hc'&_&_&Hsub&_). exists c'. split; [done|].
    rewrite Hch in Hsub. by apply sublist_nil_r in Hsub. }
  unfold deletedTree, liveVars, treeVars. cbn [del_hierarchy].
  split; [split|split; [|split]].
  - eapply treeStore_shrinks; [exact (conj Hacyc Ht)|exact Hs|].
    intros cid. apply Collection_deleteCase_clients.
  - intros y cy' k Hy' Hk Hd.
    destruct (decide (y = x)) as [->|Hne].
    { destruct Hx' as (c'&Hc'&Hnil). simplify_eq. rewrite Hnil in Hk.
      by apply elem_of_nil in Hk. }
    destruct (store (del_hierarchy v) !! y) as [cy|] eqn:Hy;
      [|rewrite (proj2 Hs _ Hy) in Hy'; done].
    destruct (Hframe _ _ Hy Hne) as (cy2&Hy2&Hc2). simplify_eq.
    rewrite Hc2 in Hk. apply list_elem_of_filter in Hk as [Hkx Hk].
    apply (Hlive _ _ _ Hy Hk). by apply Hother.
  - split; [done|]. split.
    + intros y cy k Hy Hk. destruct (decide (y = x)) as [->|Hne].
      { simplify_eq. rewrite Hch in Hk. by apply elem_of_nil in Hk. }
      destruct (Hframe _ _ Hy Hne) as (cy'&Hy'&Hc').
      destruct (decide (k = x)) as [->|Hkx]; [by right|].
      left. exists cy'. split; [done|]. rewrite Hc'. by apply list_elem_of_filter.
    + intros id Hd Hnd. destruct (decide (id = x)) as [->|Hne]; [done|].
      destruct Hnd. by apply Hother.
  - done.
  - intros y cy Hy Hr. apply Hframe; [done|]. intros ->. lia.
Qed.

Lemma deleteChildrenLoop_tree rank rec x :
  (∀ child v v1, liveVars rank v → rank child < rank x → rec child v = Some v1 →
                 deletedTree rank child v v1) →
  ∀ ix v c v',
    liveVars rank v → store (del_hierarchy v) !! x = Some c → length (children c) = ix →
    deleteChildrenLoop rec x ix v = Some v' →
    liveVars rank v' ∧ deleteKeeps v v' ∧
    (∃ c', store (del_hierarchy v') !! x = Some c' ∧ children c' = []) ∧
    (∀ y cy, store (del_hierarchy v) !! y = Some cy → rank x < rank y →
             ∃ cy', store (del_hierarchy v') !! y = Some cy' ∧ children cy' = children cy).
Proof.
  intros Hrec. induction ix as [|i IH]; intros v c v' Hv Hx Hlen H; simpl in H.
  { simplify_eq. split; [done|]. split; [apply deleteKeeps_refl|]. split; [|by eauto].
    exists c. split; [done|]. by apply nil_length_inv. }
  rewrite Hx in H.
  destruct (children c !! i) as [child|] eqn:Hchild; [|done].
  destruct (rec child v) as [v1|] eqn:Hr; [|done].
  assert (child ∈ children c) as Hin by (by eapply list_elem_of_lookup_2).
  pose proof Hv as [[Hacyc Ht] Hlive].
  destruct (Hacyc _ _ Hx _ Hin) as [_ Hcr].
  destruct (Ht _ _ Hx) as (Hnd&_&Hpar).
  destruct (Hrec child v v1 Hv Hcr Hr) as (Hv1&Hk1&Hd1&Hf1).
  destruct (Hf1 _ _ Hx Hcr) as (c1&Hx1&Hch1).
  assert (length (children c1) = i) as Hlen1.
  { rewrite Hch1. by apply filter_ne_last. }
  destruct (IH v1 c1 v' Hv1 Hx1 Hlen1 H) as (Hv'&Hk'&Hc'&Hf').
  split; [done|]. split; [by eapply deleteKeeps_trans|]. split; [done|].
  intros y cy Hy Hry. destruct (Hf1 _ _ Hy) as (cy1&Hy1&Hcy1); [lia|].
  destruct (Hf' _ _ Hy1 Hry) as (cy'&Hy'&Hcy'). exists cy'. split; [done|].
  rewrite Hcy', Hcy1. apply filter_ne_id. intros Hchy.
  destruct (Ht _ _ Hy) as (_&_&Hpary).
  destruct (Hpary _ Hchy) as (cc&Hcc&Hpc).
  destruct (Hpar _ Hin) as (cc'&Hcc'&Hpc'). simplify_eq. lia.
Qed.

Lemma deleteCaseAndChildren_tree rank fuel :
  ∀ x v v', liveVars rank v → deleteCaseAndChildren fuel x v = Some v' →
            deletedTree rank x v v'.
Proof.
  induction fuel as [|fuel IH]; intros x v v' Hv H; [done|].
  simpl in H. destruct (store (del_hierarchy v) !! x) as [c|] eqn:Hx; [|done].
  destruct (isDestroyed c) eqn:Hd.
  { simplify_eq. split; [done|]. split; [apply deleteKeeps_refl|]. split; [by exists c|].
    intros y cy Hy _. exists cy. split; [done|]. symmetry. apply filter_ne_id.
    intros Hin. apply (proj2 Hv _ _ _ Hy Hin). by exists c. }
  destruct (deleteChildrenLoop _ x _ v) as [v1|] eqn:Hloop; [|done].
  destruct (deleteChildrenLoop_tree rank _ x
              (λ child v0 v2 Hv0 _ Hr, IH child v0 v2 Hv0 Hr) _ _ _ _ Hv Hx eq_refl Hloop)
    as (Hv1&Hk1&(c1&Hx1&Hch1)&Hf1).
  destruct (deleteThisCase_tree rank x v1 v' c1 Hv1 Hx1 Hch1 H) as (Hv'&Hk'&Hd'&Hf').
  split; [done|]. split; [by eapply deleteKeeps_trans|]. split; [done|].
  intros y cy Hy Hr. destruct (Hf1 _ _ Hy Hr) as (cy1&Hy1&Hc1).
  destruct (Hf' _ _ Hy1 Hr) as (cy'&Hy'&Hc').
  exists cy'. split; [done|]. by rewrite Hc', Hc1.
Qed.

(** The cases of the collections stay cases that are not destroyed. *)
Lemma Collection_deleteCase_collections k h c :
  store h !! k = Some c → liveCollections h →
  liveCollections (Collection_deleteCase (case_collection c) k h).
Proof.
  intros Hk Hl cid coll' j Hcl Hj.
  destruct (Collection_deleteCase_store (case_collection c) k h c Hk) as (Hs&_&Hother).
  change (_collectionClients (Collection_deleteCase (case_collection c) k h))
    with (alter (λ c0, set_casesController
                         (filter (λ k0, k0 ≠ k) (casesController c0)) c0)
                (case_collection c) (_collectionClients h)) in Hcl.
  assert (∃ coll, _collectionClients h !! cid = Some coll ∧ j ∈ casesController coll ∧ j ≠ k)
    as (coll&Hc&Hjc&Hjk).
  { destruct (decide (cid = case_collection c)) as [->|Hne].
    - rewrite lookup_alter_eq in Hcl.
      destruct (_collectionClients h !! case_collection c) as [coll|] eqn:E; [|done].
      simpl in Hcl. simplify_eq. simpl in Hj.
      apply list_elem_of_filter in Hj as [? ?]. by exists coll.
    - rewrite lookup_alter_ne in Hcl by done. exists coll'. split; [done|]. split; [done|].
      intros ->. destruct (Hl _ _ _ Hcl Hj) as (c0&?&?&_). by simplify_eq. }
  destruct (Hl _ _ _ Hc Hjc) as (cj&Hcj&Hcc&Hdj).
  destruct (proj1 Hs _ _ Hcj) as (cj'&Hcj'&_&Hcoll&_&_).
  exists cj'. split; [done|]. split; [congruence|].
  destruct (isDestroyed cj') eqn:E; [|done].
  destruct (Hother j Hjk) as (c0&?&?); [by exists cj'|]. simplify_eq. congruence.
Qed.

Lemma deleteChildrenLoop_collections (rec : nat → DeleteVars → option DeleteVars) x :
  (∀ child v v1, liveCollections (del_hierarchy v) → rec child v = Some v1 →
                 liveCollections (del_hierarchy v1)) →
  ∀ ix v v', liveCollections (del_hierarchy v) →
             deleteChildrenLoop rec x ix v = Some v' → liveCollections (del_hierarchy v').
Proof.
  intros Hrec. induction ix as [|i IH]; intros v v' Hv H; simpl in H; [by simplify_eq|].
  destruct (store (del_hierarchy v) !! x) as [c|]; [|done].
  destruct (children c !! i) as [child|]; [|done].
  destruct (rec child v) as [v1|] eqn:Hr; [|done].
  eapply IH; [|exact H]. by eapply Hrec.
Qed.

Lemma deleteCaseAndChildren_collections fuel :
  ∀ x v v', liveCollections (del_hierarchy v) → deleteCaseAndChildren fuel x v = Some v' →
            liveCollections (del_hierarchy v').
Proof.
  induction fuel as [|fuel IH]; intros x v v' Hv H; [done|].
  simpl in H. destruct (store (del_hierarchy v) !! x) as [c|] eqn:Hx; [|done].
  destruct (isDestroyed c); [by simplify_eq|].
  destruct (deleteChildrenLoop _ x _ v) as [v1|] eqn:Hloop; [|done].
  pose proof (deleteChildrenLoop_collections _ x IH _ _ _ Hv Hloop) as Hv1.
  unfold deleteThisCase in H.
  destruct (store (del_hierarchy v1) !! x) as [c1|] eqn:Hx1; [|done].
  destruct (getCollectionForCase _ c1); [|done]. simplify_eq. simpl.
  by apply Collection_deleteCase_collections.
Qed.

Lemma forEachM_delete_tree rank fuel l :
  ∀ v v', liveVars rank v → liveCollections (del_hierarchy v) →
          forEachM (deleteCaseAndChildren fuel) l v = Some v' →
          liveVars rank v' ∧ liveCollections (del_hierarchy v') ∧ deleteKeeps v v' ∧
          ∀ x, x ∈ l → destroyedIn (store (del_hierarchy v')) x.
Proof.
  induction l as [|a l IH]; intros v v' Hv Hc H; simpl in H.
  { simplify_eq. split; [done|]. split; [done|]. split; [apply deleteKeeps_refl|].
    intros x Hx. by apply elem_of_nil in Hx. }
  destruct (deleteCaseAndChildren fuel a v) as [v1|] eqn:Ha; [|done].
  destruct (deleteCaseAndChildren_tree rank fuel a v v1 Hv Ha) as (Hv1&Hk1&Hd1&_).
  pose proof (deleteCaseAndChildren_collections fuel a v v1 Hc Ha) as Hc1.
  destruct (IH v1 v' Hv1 Hc1 H) as (Hv'&Hc'&Hk'&Hd').
  split; [done|]. split; [done|]. split; [by eapply deleteKeeps_trans|].
  intros x [->|Hx]%elem_of_cons; [|by apply Hd'].
  eapply storeShrinks_destroyed; [exact (proj1 Hk')|done].
Qed.

Lemma liveCheck_sound h :
  liveCheck h = true → liveChildren (store h) ∧ liveCollections h.
Proof.
  unfold liveCheck. intros [H1 H2]%andb_true_iff.
  apply bool_decide_eq_true in H1, H2. split.
  - intros y c k Hy Hk (c'&Hc'&Hd). specialize (H1 y c Hy).
    rewrite Forall_forall in H1. specialize (H1 k Hk). rewrite Hc' in H1.
    simpl in H1. congruence.
  - intros cid coll k Hcl Hk. specialize (H2 cid coll Hcl).
    rewrite Forall_forall in H2. destruct (H2 k Hk) as [Hc Hd].
    destruct (store h !! k) as [c|]; [|done]. simpl in Hc, Hd. exists c.
    split; [done|]. split; congruence.
Qed.

(** X14.  A [deleteCases] change on a forest of cases in which no destroyed
    case is a child or a case of a collection: [doDeleteCases] returns;
    every case of the change is destroyed; the recorded ids are closed under
    children, so a case goes with all its descendants; afterwards again no
    destroyed case is a child of a case or a case of a collection; and a
    child that is not among the recorded ids is still a child of its
    parent. *)
Theorem deleteCases_descendants fuel rank iChange dc l :
  cases iChange = Some l →
  treeStore (_collectionClients (hierarchy dc)) (store (hierarchy dc)) rank →
  liveChildren (store (hierarchy dc)) → liveCollections (hierarchy dc) →
  (∀ x, x ∈ l → is_Some (store (hierarchy dc) !! x) ∧ rank x < fuel) →
  ∃ iChange' dc',
    doDeleteCases fuel iChange dc =
      Some (iChange', dc', {| success := true; caseIDs := None; caseID := None |}) ∧
    (∀ x, x ∈ l → destroyedIn (store (hierarchy dc')) x) ∧
    (∀ id c0 k, id ∈ ids iChange' → store (hierarchy dc) !! id = Some c0 →
                k ∈ children c0 → k ∈ ids iChange') ∧
    liveChildren (store (hierarchy dc')) ∧ liveCollections (hierarchy dc') ∧
    (∀ y cy k, store (hierarchy dc) !! y = Some cy → k ∈ children cy →
               k ∉ ids iChange' →
               ∃ cy', store (hierarchy dc') !! y = Some cy' ∧ k ∈ children cy').
Proof.
  intros Hl Htree Hlive Hcoll Hall.
  destruct (doDeleteCases_total fuel rank iChange dc l Hl Htree Hall) as (iChange'&dc'&Hdo).
  exists iChange', dc'. split; [done|].
  destruct (doDeleteCases_ids fuel rank iChange dc iChange' dc' _ (proj1 Htree) Hdo)
    as (_&_&Hids&Hdestroyed).
  unfold doDeleteCases in Hdo. rewrite Hl in Hdo.
  destruct (forEachM _ l _) as [v|] eqn:Hloop; [|done].
  destruct (forEachM_delete_tree rank fuel l
              {| del_ids := []; del_collectionIDs := ∅; deletedCases := [];
                 del_hierarchy := hierarchy dc |} v (conj Htree Hlive) Hcoll Hloop)
    as ([_ Hlive']&Hcoll'&(Hs&Hkeep&Hempty)&Hnamed).
  injection Hdo as <- <-. cbn [del_hierarchy] in *.
  change (hierarchy (set_history _ (set_hierarchy (del_hierarchy v) dc)))
    with (del_hierarchy v) in *.
  assert (Hnew : ∀ k y cy, store (hierarchy dc) !! y = Some cy → k ∈ children cy →
                           destroyedIn (store (del_hierarchy v)) k →
                           k ∈ ids (set_ids (del_ids v) (del_collectionIDs v) iChange)).
  { intros k y cy Hy Hk Hd. destruct (Hdestroyed k Hd) as [Hold|?]; [|done].
    by destruct (Hlive _ _ _ Hy Hk). }
  split; [|split; [|split; [done|split; [done|]]]].
  - done.
  - intros id c0 k Hid Hc0 Hk. destruct (Hids id Hid) as [Hd Hnd].
    destruct (Hempty id Hd Hnd) as (c'&Hc'&Hnil).
    destruct (Hkeep _ _ _ Hc0 Hk) as [(cy'&Hcy'&Hk')|Hdk].
    + simplify_eq. rewrite Hnil in Hk'. by apply elem_of_nil in Hk'.
    + by eapply Hnew.
  - intros y cy k Hy Hk Hnot. destruct (Hkeep _ _ _ Hy Hk) as [?|Hdk]; [done|].
    destruct Hnot. by eapply Hnew.
Qed.
Lemma deleteCases_descendants_witness :
  ∃ iChange' dc',
    doDeleteCases 2 (deleteChange [10]) (contextOf oneFamily) =
      Some (iChange', dc', {| success := true; caseIDs := None; caseID := None |}) ∧
    (∀ x, x ∈ [10] → destroyedIn (store (hierarchy dc')) x) ∧
    (∀ id c0 k, id ∈ ids iChange' → store (hierarchy (contextOf oneFamily)) !! id = Some c0 →
                k ∈ children c0 → k ∈ ids iChange').
Proof.
  destruct (deleteCases_descendants 2 familyRank (deleteChange [10]) (contextOf oneFamily)
              [10] eq_refl) as (iChange'&dc'&Hdo&Hnamed&Hclosed&_).
  - apply treeStoreCheck_sound. vm_compute; reflexivity.
  - apply (proj1 (liveCheck_sound (hierarchy (contextOf oneFamily))
                    ltac:(vm_compute; reflexivity))).
  - apply (proj2 (liveCheck_sound (hierarchy (contextOf oneFamily))
                    ltac:(vm_compute; reflexivity))).
  - apply Forall_forall.
    repeat (apply Forall_cons; split; [split; [eexists; vm_compute; reflexivity|vm_compute; lia]|]).
    apply Forall_nil_2.
  - exists iChange', dc'. split; [exact Hdo|]. split; [exact Hnamed|exact Hclosed].
Defined.

(** The ids recorded when the family of the example is deleted: its people
    from the last to the first, then the family; no case is left in a
    collection. *)
Example deleteCases_descendants_family :
  ∃ iChange' dc' res,
    doDeleteCases 2 (deleteChange [10]) (contextOf oneFamily) = Some (iChange', dc', res) ∧
    ids iChange' = [13; 12; 11; 10] ∧
    map_Forall (λ _ coll, casesController coll = [])
               (_collectionClients (hierarchy dc')).
Proof.
  eexists _, _, _. split; [vm_compute; reflexivity|]. split; [vm_compute; reflexivity|].
  match goal with |- ?G => apply (bool_decide_eq_true_1 G) end. vm_compute; reflexivity.
Qed.

(** ** The rectangles of an incremental selection *)



